(** * Aura: the message orchestrator of [index.tsx]

    A shallow embedding of the [App] component of [src/index.tsx]: the
    conversation store, the submission handler [handleSendMessage] and its
    two protocols [sendChatMessage] (streamed chat) and [generateVideo]
    (polled video job), followed by the properties of the specification.

    Conventions.
    - React state is an explicit record [AppState].  A handler reads the
      state variables of the render it was created in (its closure) and
      writes through setters.
    - [setMessages] is always called with an updater function.  React does
      not run the function at the call: it queues it and runs the queue,
      in order, when it next renders the component.  An updater that reads
      the clock or a variable of the handler reads it then, not at the
      call.  A [Frame] is a world together with the updaters that wait.
    - React renders while a handler waits: every [await] of the handlers
      is on a timer, on the host page or on the network, so what is queued
      is rendered before the handler goes on.  The chunks of a response
      stream are the exception: a chunk may be delivered in the task that
      delivered the chunk before it, with no render in between.
    - The run of an [async] function is followed up to the point where a
      caller that awaits it goes on; what is queued by then is rendered.
      Between the end of a protocol and the end of [handleSendMessage]
      only the busy flag is set, so the updaters read the same values as
      in the one render React makes for both.
    - The other state variables are set to values, or by an updater that
      reads nothing else ([setInput] in the recognition callback); they
      are set at the call, which no handler can tell from the next render.
    - The browser and the remote services are an environment [Env] that
      fixes, for one run of a handler, what each awaited call answers: a
      value, a thrown value, or nothing at all (the promise never settles).
    - Every effect a handler performs is appended to a trace, and every
      store React computes from an updater to a history, so that
      statements about what was invoked, and in which order, are
      statements about lists.
    - Strings are sequences of 8-bit characters.  [trim] and [toLowerCase]
      are the ECMAScript operations on the ASCII range; characters above 127
      are left alone.
    - The text of a chunk is a string.  Reading the attached file and
      building the client object [new GoogleGenAI] are local steps that
      succeed.  The file is read under an [await] that comes just before
      the chat request; nothing is queued and the clock is not read
      between the two, so the render at the request computes the stores
      React computes at the first of them.  Resetting the file input
      element, scrolling and the development-mode double invocation of
      updaters are not modelled.
    - A submission runs from its first to its last effect without another
      handler in between: while it is in flight the input, the buttons and
      the guard of [handleSendMessage] keep other submissions out. *)

From Stdlib Require Import Bool Arith ZArith List Ascii String Lia.
From Stdlib Require Import DecimalString.
From Stdlib Require DecimalPos DecimalZ.
Import ListNotations.
Local Open Scope list_scope.
Local Open Scope string_scope.

(** ** JavaScript strings *)

Module Js.

(** White space of [String.prototype.trim] in the ASCII range:
    TAB, LF, VT, FF, CR and SPACE. *)
Definition isWhiteSpace (c : ascii) : bool :=
  let n := nat_of_ascii c in
  ((9 <=? n)%nat && (n <=? 13)%nat) || (n =? 32)%nat.

Fixpoint trimStart (s : string) : string :=
  match s with
  | EmptyString => EmptyString
  | String c s' => if isWhiteSpace c then trimStart s' else s
  end.

Fixpoint trimEnd (s : string) : string :=
  match s with
  | EmptyString => EmptyString
  | String c s' =>
      match trimEnd s' with
      | EmptyString => if isWhiteSpace c then EmptyString else String c EmptyString
      | t => String c t
      end
  end.

Definition trim (s : string) : string := trimEnd (trimStart s).

Definition lowerChar (c : ascii) : ascii :=
  let n := nat_of_ascii c in
  if ((65 <=? n)%nat && (n <=? 90)%nat)%bool then ascii_of_nat (n + 32) else c.

Fixpoint toLowerCase (s : string) : string :=
  match s with
  | EmptyString => EmptyString
  | String c s' => String (lowerChar c) (toLowerCase s')
  end.

(** [s.startsWith(p)] *)
Fixpoint startsWith (s p : string) {struct p} : bool :=
  match p with
  | EmptyString => true
  | String c p' =>
      match s with
      | EmptyString => false
      | String d s' => Ascii.eqb d c && startsWith s' p'
      end
  end.

(** [s.substring(start)]: the characters from index [start] on. *)
Fixpoint substring (start : nat) (s : string) : string :=
  match start, s with
  | O, _ => s
  | S _, EmptyString => EmptyString
  | S n, String _ s' => substring n s'
  end.

(** [s.includes(p)] *)
Fixpoint includes (s p : string) : bool :=
  startsWith s p ||
  match s with
  | EmptyString => false
  | String _ s' => includes s' p
  end.

(** Truthiness of a string: only the empty string is falsy. *)
Definition truthy (s : string) : bool :=
  match s with EmptyString => false | _ => true end.

(** Truthiness of a value that is a string, [null] or [undefined]. *)
Definition truthy_opt (o : option string) : bool :=
  match o with Some s => truthy s | None => false end.

(** [n.toString()] for an integral number. *)
Definition toString (n : Z) : string := NilZero.string_of_int (Z.to_int n).

(** The double-quote character, for the template literals that contain it. *)
Definition dquote : string := String (ascii_of_nat 34) EmptyString.

(** A thrown value: an [Error] with its [message], or anything else; of
    the latter only [String(e)] is ever inspected, and [None] stands for
    [null] and [undefined]. *)
Inductive Thrown : Type :=
| ErrorObj (message : string)
| OtherValue (str : option string).

(** What an awaited call does. *)
Inductive Reply (A : Type) : Type :=
| Returns (a : A)
| Throws (e : Thrown)
| NeverSettles.
Arguments Returns {A} a.
Arguments Throws {A} e.
Arguments NeverSettles {A}.

End Js.
Import Js.

(** ** Data model *)

Inductive Sender : Type := user | ai.

Module Message.
(** [interface Message]; an optional field is an [option], [None] being
    [undefined] (or [null] for [imagePreview]). *)
Record t : Type := mk {
  id : string;
  text : string;
  sender : Sender;
  imagePreview : option string;
  videoUrl : option string;
  isLoading : option bool;
  streamingText : option string;
  isError : option bool
}.

(** Object spreads [{...msg, field: v}] used by the handlers. *)
Definition with_text (v : string) (m : t) : t :=
  mk (id m) v (sender m) (imagePreview m) (videoUrl m) (isLoading m)
     (streamingText m) (isError m).
Definition with_videoUrl (v : option string) (m : t) : t :=
  mk (id m) (text m) (sender m) (imagePreview m) v (isLoading m)
     (streamingText m) (isError m).
Definition with_isLoading (v : option bool) (m : t) : t :=
  mk (id m) (text m) (sender m) (imagePreview m) (videoUrl m) v
     (streamingText m) (isError m).
Definition with_streamingText (v : option string) (m : t) : t :=
  mk (id m) (text m) (sender m) (imagePreview m) (videoUrl m) (isLoading m)
     v (isError m).
Definition with_isError (v : option bool) (m : t) : t :=
  mk (id m) (text m) (sender m) (imagePreview m) (videoUrl m) (isLoading m)
     (streamingText m) v.
End Message.

(** A [File] as the transcoder sees it: its base64 content and MIME type. *)
Record File : Type := { file_data : string; file_type : string }.

(** [Part] of the request payload. *)
Inductive Part : Type :=
| InlineData (data mimeType : string)
| TextPart (text : string).

(** The chat session handle returned by [ai.chats.create]. *)
Record Chat : Type := { chat_model : string }.


(** A chunk of the response stream, as the loop receives it. *)
Record Chunk : Type := {
  chunk_text : string;
  (** the chunk is delivered in the task that delivered the chunk before
      it: React has not rendered in between *)
  same_task : bool
}.

(** How a response stream ends. *)
Inductive StreamEnd : Type :=
| Exhausted
| StreamThrows (e : Thrown)
| StreamStalls.

Record ChatStream : Type := { chunks : list Chunk; ending : StreamEnd }.

(** The video operation handle, with the optional chain
    [operation.response?.generatedVideos?.[0]?.video?.uri]. *)
Record Video : Type := { uri : option string }.
Record GeneratedVideo : Type := { video : option Video }.
Record VideosResponse : Type := { generatedVideos : option (list GeneratedVideo) }.
Record OperationError : Type := { message : option string }.

Module Operation.
Record t : Type := mk {
  done : bool;
  error : option OperationError;
  response : option VideosResponse
}.
End Operation.

(** [window.aistudio], when the host page provides it. *)
Record Aistudio : Type := {
  hasSelectedApiKey : Reply bool;
  openSelectKey : Reply unit
}.

(** The state variables of [App]. *)
Record AppState : Type := {
  messages : list Message.t;
  input : string;
  imageFile : option File;
  imagePreview : option string;
  isLoading : bool;
  chat : option Chat;
  error : option string;
  isRecording : bool
}.

(** ** The environment of one run of a handler *)

Record Env : Type := {
  (** successive readings of [Date.now()] *)
  dateNow : nat -> Z;
  (** [process.env.API_KEY], as a template literal renders it *)
  API_KEY : string;
  (** [window.aistudio] *)
  aistudio : option Aistudio;
  (** what [chat.sendMessageStream] answers *)
  sendMessageStream : Reply ChatStream;
  (** what [ai.models.generateVideos] answers *)
  generateVideos : Reply Operation.t;
  (** what the successive calls of [ai.operations.getVideosOperation]
      answer; a call beyond the end of the list is never answered *)
  getVideosOperation : list (Reply Operation.t)
}.

(** Effects, in the order the handlers perform them. *)
Inductive Event : Type :=
| CallSendChatMessage (prompt : string) (file : option File)
| CallGenerateVideo (prompt : string)
| SendMessageStream (parts : list Part)
| HasSelectedApiKey
| OpenSelectKey
| GenerateVideos (prompt : string)
| Sleep (ms : Z)
| GetVideosOperation (operation : Operation.t)
| ConsoleError (e : Thrown).

(** The component as React has rendered it, and what has happened so far. *)
Record World : Type := {
  app : AppState;
  (** every store React has computed from an updater, oldest first *)
  history : list (list Message.t);
  trace : list Event;
  (** number of [Date.now()] readings taken so far *)
  ndate : nat
}.

(** The world with more events on its trace. *)
Definition add_events (w : World) (evs : list Event) : World :=
  {| app := app w; history := history w;
     trace := (trace w ++ evs)%list; ndate := ndate w |}.

(** The world after one more reading of [Date.now()]. *)
Definition tick (w : World) : World :=
  {| app := app w; history := history w; trace := trace w;
     ndate := S (ndate w) |}.

(** The world after one more store has been computed. *)
Definition write_store (w : World) (s : list Message.t) : World :=
  {| app := {| messages := s; input := input (app w);
               imageFile := imageFile (app w);
               imagePreview := imagePreview (app w);
               isLoading := isLoading (app w); chat := chat (app w);
               error := error (app w); isRecording := isRecording (app w) |};
     history := (history w ++ [s])%list;
     trace := trace w; ndate := ndate w |}.

(** ** Updaters, and the worlds in which some are waiting *)

(** The function passed to [setMessages], by what its body reads when
    React runs it besides the store: nothing but constants of the handler,
    the clock, or the variable [accumulatedText] of [sendChatMessage]. *)
Inductive Updater : Type :=
| Pure (f : list Message.t -> list Message.t)
| ReadsDateNow (f : Z -> list Message.t -> list Message.t)
| ReadsAccumulatedText (f : string -> list Message.t -> list Message.t).

(** The function an updater is when the clock reads [now] and the
    variable holds [accumulatedText]. *)
Definition updater_fn (u : Updater) (now : Z) (accumulatedText : string)
  : list Message.t -> list Message.t :=
  match u with
  | Pure f => f
  | ReadsDateNow f => f now
  | ReadsAccumulatedText f => f accumulatedText
  end.

(** A handler in flight: the world as rendered, the updaters passed to
    [setMessages] since the last render, oldest first, and the variable
    [accumulatedText] of the run of [sendChatMessage]. *)
Record Frame : Type := {
  world :> World;
  queue : list Updater;
  accumulatedText : string
}.

(** A handler starts in a rendered world: no updater is waiting. *)
Definition start (w : World) : Frame :=
  {| world := w; queue := []; accumulatedText := "" |}.

#[warning="-ambiguous-paths"] Coercion start : World >-> Frame.

(** ** A monad for asynchronous handlers *)

Inductive Res (A : Type) : Type :=
| Ok (a : A)
| Raise (e : Thrown)
| Blocked.
Arguments Ok {A} a.
Arguments Raise {A} e.
Arguments Blocked {A}.

Definition M (A : Type) : Type := Frame -> Res A * Frame.

Definition ret {A} (a : A) : M A := fun f => (Ok a, f).

Definition bind {A B} (c : M A) (k : A -> M B) : M B :=
  fun f =>
    match c f with
    | (Ok a, f') => k a f'
    | (Raise e, f') => (Raise e, f')
    | (Blocked, f') => (Blocked, f')
    end.

Notation "x <- c ;; k" := (bind c (fun x => k))
  (at level 61, c at next level, right associativity).
Notation "c ;; k" := (bind c (fun _ => k))
  (at level 61, right associativity).

Definition throw {A} (e : Thrown) : M A := fun f => (Raise e, f).

Definition try_catch {A} (body : M A) (handler : Thrown -> M A) : M A :=
  fun f =>
    match body f with
    | (Raise e, f') => handler e f'
    | r => r
    end.

(** What the handler gets from a call: its value, what it throws, or
    nothing, ever. *)
Definition reply {A} (r : Reply A) : M A :=
  fun f =>
    match r with
    | Returns a => (Ok a, f)
    | Throws e => (Raise e, f)
    | NeverSettles => (Blocked, f)
    end.

(** A step that changes the rendered world and nothing else. *)
Definition on_world (g : World -> World) : M unit :=
  fun f => (Ok tt, {| world := g f; queue := queue f;
                      accumulatedText := accumulatedText f |}).

Definition emit (ev : Event) : M unit :=
  on_world (fun w => add_events w [ev]).

Definition console_error (e : Thrown) : M unit := emit (ConsoleError e).

Definition modify_app (g : AppState -> AppState) : M unit :=
  on_world (fun w => {| app := g (app w); history := history w;
                        trace := trace w; ndate := ndate w |}).

(** *** State setters *)

(** [setMessages(updater)]: the updater joins the queue. *)
Definition setMessages (updater : Updater) : M unit :=
  fun f => (Ok tt, {| world := f; queue := (queue f ++ [updater])%list;
                      accumulatedText := accumulatedText f |}).

Definition setInput (v : string) : M unit :=
  modify_app (fun a =>
    {| messages := messages a; input := v; imageFile := imageFile a;
       imagePreview := imagePreview a; isLoading := isLoading a;
       chat := chat a; error := error a; isRecording := isRecording a |}).

Definition setImageFile (v : option File) : M unit :=
  modify_app (fun a =>
    {| messages := messages a; input := input a; imageFile := v;
       imagePreview := imagePreview a; isLoading := isLoading a;
       chat := chat a; error := error a; isRecording := isRecording a |}).

Definition setImagePreview (v : option string) : M unit :=
  modify_app (fun a =>
    {| messages := messages a; input := input a; imageFile := imageFile a;
       imagePreview := v; isLoading := isLoading a;
       chat := chat a; error := error a; isRecording := isRecording a |}).

Definition setIsLoading (v : bool) : M unit :=
  modify_app (fun a =>
    {| messages := messages a; input := input a; imageFile := imageFile a;
       imagePreview := imagePreview a; isLoading := v;
       chat := chat a; error := error a; isRecording := isRecording a |}).

Definition setChat (v : option Chat) : M unit :=
  modify_app (fun a =>
    {| messages := messages a; input := input a; imageFile := imageFile a;
       imagePreview := imagePreview a; isLoading := isLoading a;
       chat := v; error := error a; isRecording := isRecording a |}).

Definition setError (v : option string) : M unit :=
  modify_app (fun a =>
    {| messages := messages a; input := input a; imageFile := imageFile a;
       imagePreview := imagePreview a; isLoading := isLoading a;
       chat := chat a; error := v; isRecording := isRecording a |}).

Definition setIsRecording (v : bool) : M unit :=
  modify_app (fun a =>
    {| messages := messages a; input := input a; imageFile := imageFile a;
       imagePreview := imagePreview a; isLoading := isLoading a;
       chat := chat a; error := error a; isRecording := v |}).

(** [prev.map(msg => msg.id === id ? f(msg) : msg)] *)
Definition updateById (id : string) (f : Message.t -> Message.t)
  (prev : list Message.t) : list Message.t :=
  map (fun msg => if String.eqb (Message.id msg) id then f msg else msg) prev.

(** [[...prev, m]] *)
Definition append (m : Message.t) (prev : list Message.t) : list Message.t :=
  (prev ++ [m])%list.

(** The variable [accumulatedText]: [let accumulatedText = v] and
    [accumulatedText += s]. *)
Definition let_accumulatedText (v : string) : M unit :=
  fun f => (Ok tt, {| world := f; queue := queue f; accumulatedText := v |}).

Definition add_accumulatedText (s : string) : M unit :=
  fun f => (Ok tt, {| world := f; queue := queue f;
                      accumulatedText := accumulatedText f ++ s |}).

(** ** The handlers of [App] *)

(** [useState<Message[]>([...])]: the store the component starts with. *)
Definition greeting : Message.t :=
  {| Message.id := "init";
     Message.sender := ai;
     Message.text := "Hello! I'm Aura, your multimodal AI assistant. I can chat, understand images, and create videos. Try asking me something, or type `/video a cat playing a futuristic piano` to see what I can do!";
     Message.imagePreview := None;
     Message.videoUrl := None;
     Message.isLoading := Some false;
     Message.streamingText := None;
     Message.isError := None |}.

Definition initialState : AppState :=
  {| messages := [greeting]; input := ""; imageFile := None;
     imagePreview := None; isLoading := false; chat := None;
     error := None; isRecording := false |}.

Definition initialWorld : World :=
  {| app := initialState; history := []; trace := []; ndate := 0 |}.

(** [fileToGenerativePart] *)
Definition fileToGenerativePart (file : File) : Part :=
  InlineData (file_data file) (file_type file).

(** [operation.response?.generatedVideos?.[0]?.video?.uri] *)
Definition downloadLink (operation : Operation.t) : option string :=
  match Operation.response operation with
  | None => None
  | Some r =>
      match generatedVideos r with
      | Some (v :: _) =>
          match video v with
          | Some vd => uri vd
          | None => None
          end
      | _ => None
      end
  end.

(** [e instanceof Error ? e.message : "An unknown error occurred."] *)
Definition chatErrorMessage (e : Thrown) : string :=
  match e with
  | ErrorObj m => m
  | OtherValue _ => "An unknown error occurred."
  end.

(** [e instanceof Error ? e.message : String(e ?? "An unknown error occurred.")] *)
Definition videoErrorMessage (e : Thrown) : string :=
  match e with
  | ErrorObj m => m
  | OtherValue (Some s) => s
  | OtherValue None => "An unknown error occurred."
  end.

Definition keyHint : string :=
  "API key error. Please try selecting your key again. For more info, visit ai.google.dev/gemini-api/docs/billing".

Definition userFriendlyError (errorMessage : string) : string :=
  if includes errorMessage "Requested entity was not found"
  then keyHint
  else "Error: " ++ errorMessage.

(** [new Error(message)]: an absent message gives the empty string. *)
Definition newError (message : option string) : Thrown :=
  ErrorObj (match message with Some m => m | None => "" end).

Section Render.

(** The environment of the run, and the state variables of the render in
    which the handlers were created. *)
Variable env : Env.
Variable props : AppState.

Definition Date_now : M Z :=
  fun f => (Ok (dateNow env (ndate f)),
            {| world := tick f; queue := queue f;
               accumulatedText := accumulatedText f |}).

(** React runs one updater: on the store as it is by then, with the clock
    and the variable as they are by then. *)
Definition run_updater (accumulatedText : string) (w : World) (u : Updater)
  : World :=
  match u with
  | Pure g => write_store w (g (messages (app w)))
  | ReadsDateNow g =>
      write_store (tick w) (g (dateNow env (ndate w)) (messages (app w)))
  | ReadsAccumulatedText g =>
      write_store w (g accumulatedText (messages (app w)))
  end.

(** React renders: the updaters that wait are run, oldest first. *)
Definition rendered (f : Frame) : Frame :=
  {| world := fold_left (run_updater (accumulatedText f)) (queue f) (world f);
     queue := [];
     accumulatedText := accumulatedText f |}.

Definition render : M unit := fun f => (Ok tt, rendered f).

(** [await]: React renders while the handler waits for the call. *)
Definition await {A} (r : Reply A) : M A :=
  render ;; reply r.

(** An [async] function, run until it settles or waits for good. *)
Definition async {A} (body : M A) : M A :=
  fun f => let (r, f') := body f in (r, rendered f').

(** [removeImage]; resetting the file input element is not modelled. *)
Definition removeImage : M unit :=
  setImageFile None ;;
  setImagePreview None.

(** The [for await] loop of [sendChatMessage]: [result] is what the stream
    still has to deliver, [fin] how it ends. *)
Fixpoint for_await (aiMessageId : string) (result : list Chunk)
  (fin : StreamEnd) : M unit :=
  match result with
  | [] =>
      await (match fin with
             | Exhausted => Returns tt
             | StreamThrows e => Throws e
             | StreamStalls => NeverSettles
             end)
  | chunk :: rest =>
      (if same_task chunk then ret tt else render) ;;
      add_accumulatedText (chunk_text chunk) ;;
      setMessages (ReadsAccumulatedText (fun accumulatedText =>
        updateById aiMessageId
          (Message.with_streamingText (Some accumulatedText)))) ;;
      for_await aiMessageId rest fin
  end.

Definition sendChatMessage (prompt : string) (file : option File) : M unit :=
  async
    (emit (CallSendChatMessage prompt file) ;;
     match chat props with
     | None => setError (Some "Chat session is not initialized.")
     | Some _ =>
         now <- Date_now ;;
         let aiMessageId := toString (now + 1) in
         setMessages (Pure (append
           {| Message.id := aiMessageId; Message.text := "";
              Message.sender := ai; Message.imagePreview := None;
              Message.videoUrl := None; Message.isLoading := Some true;
              Message.streamingText := Some ""; Message.isError := None |})) ;;
         try_catch
           (let parts :=
              ((match file with
                | Some f => [fileToGenerativePart f]
                | None => []
                end) ++
               (if truthy prompt then [TextPart prompt] else []))%list in
            emit (SendMessageStream parts) ;;
            result <- await (sendMessageStream env) ;;
            let_accumulatedText "" ;;
            for_await aiMessageId (chunks result) (ending result) ;;
            setMessages (ReadsAccumulatedText (fun accumulatedText =>
              updateById aiMessageId (fun msg =>
                Message.with_isLoading (Some false)
                  (Message.with_streamingText None
                    (Message.with_text accumulatedText msg))))))
           (fun e =>
              console_error e ;;
              let errorMessage := chatErrorMessage e in
              setMessages (Pure (updateById aiMessageId (fun msg =>
                Message.with_isLoading (Some false)
                  (Message.with_isError (Some true)
                    (Message.with_text
                       ("Sorry, I ran into an error: " ++ errorMessage) msg))))))
     end).

(** The polling loop of [generateVideo]; [polls] is what the calls of
    [getVideosOperation] still to come will answer. *)
Fixpoint poll_loop (polls : list (Reply Operation.t))
  (operation : Operation.t) : M Operation.t :=
  if Operation.done operation then ret operation
  else
    emit (Sleep 10000) ;;
    emit (GetVideosOperation operation) ;;
    match polls with
    | [] => await NeverSettles
    | r :: polls' =>
        operation <- await r ;;
        poll_loop polls' operation
    end.

(** [generateVideo]; the line [const ai = new GoogleGenAI(...)] builds a
    local object and has no counterpart here. *)
Definition generateVideo (prompt : string) : M unit :=
  async
    (emit (CallGenerateVideo prompt) ;;
     now <- Date_now ;;
     let aiMessageId := toString (now + 1) in
     setMessages (Pure (append
       {| Message.id := aiMessageId; Message.sender := ai;
          Message.text :=
            "🎬 Preparing to generate video for: " ++ dquote ++ prompt ++ dquote ++ "...";
          Message.imagePreview := None; Message.videoUrl := None;
          Message.isLoading := Some true; Message.streamingText := None;
          Message.isError := None |})) ;;
     try_catch
       ((match aistudio env with
         | Some studio =>
             emit HasSelectedApiKey ;;
             selected <- await (hasSelectedApiKey studio) ;;
             if negb selected then
               setMessages (Pure (updateById aiMessageId
                 (Message.with_text "Please select an API key to generate videos."))) ;;
               emit OpenSelectKey ;;
               await (openSelectKey studio)
             else ret tt
         | None => ret tt
         end) ;;
        setMessages (Pure (updateById aiMessageId
          (Message.with_text "⏳ Generating your video... This can take a few minutes. Please be patient."))) ;;
        emit (GenerateVideos prompt) ;;
        operation <- await (generateVideos env) ;;
        operation <- poll_loop (getVideosOperation env) operation ;;
        match Operation.error operation with
        | Some err => throw (newError (message err))
        | None =>
            match downloadLink operation with
            | Some link =>
                if truthy link then
                  let videoUrl := link ++ "&key=" ++ API_KEY env in
                  setMessages (Pure (updateById aiMessageId (fun m =>
                    Message.with_isLoading (Some false)
                      (Message.with_videoUrl (Some videoUrl)
                        (Message.with_text "✅ Your video is ready!" m)))))
                else throw (ErrorObj "Video generation failed to return a valid URL.")
            | None => throw (ErrorObj "Video generation failed to return a valid URL.")
            end
        end)
       (fun e =>
          console_error e ;;
          let errorMessage := videoErrorMessage e in
          setMessages (Pure (updateById aiMessageId (fun m =>
            Message.with_isError (Some true)
              (Message.with_isLoading (Some false)
                (Message.with_text (userFriendlyError errorMessage) m))))))).

Definition handleSendMessage : M unit :=
  async
    (if isLoading props
        || (negb (truthy (trim (input props)))
            && match imageFile props with Some _ => false | None => true end)
     then ret tt
     else
       setIsLoading true ;;
       setError None ;;
       let userText := trim (input props) in
       setMessages (ReadsDateNow (fun now => append
         {| Message.id := toString now; Message.text := userText;
            Message.sender := user;
            Message.imagePreview := imagePreview props;
            Message.videoUrl := None; Message.isLoading := None;
            Message.streamingText := None; Message.isError := None |})) ;;
       setInput "" ;;
       removeImage ;;
       (if startsWith (toLowerCase userText) "/video "
        then generateVideo (trim (substring 7 userText))
        else sendChatMessage userText (imageFile props)) ;;
       setIsLoading false).

End Render.

(** *** The other handlers *)

(** The mount effect: [created] is what building the client and
    [ai.chats.create] answer together. *)
Definition useEffect_init (created : Reply Chat) : M unit :=
  try_catch
    (newChat <- reply created ;;
     setChat (Some newChat))
    (fun e =>
       console_error e ;;
       setError (Some "Failed to initialize the AI model. Please check the API key."))%string.

(** [handleImageChange]; [file] is [event.target.files?.[0]] paired with
    the object URL the browser makes for it. *)
Definition handleImageChange (file : option (File * string)) : M unit :=
  match file with
  | Some (f, url) => setImageFile (Some f) ;; setImagePreview (Some url)
  | None => ret tt
  end.

(** The [onresult] callback of the recognition session. *)
Definition onresult (transcript : string) : M unit :=
  modify_app (fun a =>
    {| messages := messages a;
       input := if truthy (input a) then input a ++ " " ++ transcript
                else transcript;
       imageFile := imageFile a; imagePreview := imagePreview a;
       isLoading := isLoading a; chat := chat a; error := error a;
       isRecording := isRecording a |}).

(** What can happen to the component between two renders. *)
Inductive Action : Type :=
| Mount (created : Reply Chat)
| ChangeInput (value : string)
| ImageChange (file : option (File * string))
| RemoveImage
| RecognitionStart
| RecognitionEnd
| RecognitionError (e : Thrown)
| RecognitionResult (transcript : string)
| SendMessage (env : Env).

(** One action, from a rendered world to the world rendered when its
    handler has ended or waits for good. *)
Definition step (a : Action) (w : World) : World :=
  world (snd (match a with
              | Mount created => useEffect_init created (start w)
              | ChangeInput value => setInput value (start w)
              | ImageChange file => handleImageChange file (start w)
              | RemoveImage => removeImage (start w)
              | RecognitionStart => setIsRecording true (start w)
              | RecognitionEnd => setIsRecording false (start w)
              | RecognitionError e =>
                  (console_error e ;; setIsRecording false) (start w)
              | RecognitionResult transcript => onresult transcript (start w)
              | SendMessage env => handleSendMessage env (app w) (start w)
              end)).

(** A session: the actions in order, from the first render. *)
Definition run (actions : list Action) : World :=
  fold_left (fun w a => step a w) actions initialWorld.

(** ** Vocabulary of the properties *)

(** The guard of [handleSendMessage], and its negation. *)
Definition accepted (a : AppState) : Prop :=
  isLoading a = false /\ (trim (input a) <> "" \/ imageFile a <> None).

Definition rejected (a : AppState) : Prop :=
  isLoading a = true \/ (trim (input a) = "" /\ imageFile a = None).

(** One write of the store: a message appended at the end, or the
    messages with a given id rewritten in place, ids untouched. *)
Inductive store_step (s : list Message.t) : list Message.t -> Prop :=
| store_append (m : Message.t) : store_step s (append m s)
| store_update (id : string) (f : Message.t -> Message.t) :
    (forall m, Message.id (f m) = Message.id m) ->
    store_step s (updateById id f s).

(** Successive stores, each one write after the one before. *)
Fixpoint chain (s : list Message.t) (hs : list (list Message.t)) : Prop :=
  match hs with
  | [] => True
  | h :: hs' => store_step s h /\ chain h hs'
  end.

(** The events a run added to the trace, and the stores it wrote. *)
Definition since_trace (w w' : World) (evs : list Event) : Prop :=
  trace w' = (trace w ++ evs)%list.

Definition since_history (w w' : World) (hs : list (list Message.t)) : Prop :=
  history w' = (history w ++ hs)%list.

Definition is_chat_event (ev : Event) : bool :=
  match ev with
  | CallSendChatMessage _ _ | SendMessageStream _ => true
  | _ => false
  end.

Definition is_video_event (ev : Event) : bool :=
  match ev with
  | CallGenerateVideo _ | HasSelectedApiKey | OpenSelectKey
  | GenerateVideos _ | Sleep _ | GetVideosOperation _ => true
  | _ => false
  end.

Definition is_poll (ev : Event) : bool :=
  match ev with GetVideosOperation _ => true | _ => false end.



(** The text accumulated from a list of chunks, in arrival order. *)
Definition joined (cs : list Chunk) : string :=
  fold_right (fun c acc => chunk_text c ++ acc) "" cs.

(** The chunks at the head of [cs] that are delivered in the task of the
    chunk before them. *)
Fixpoint burst (cs : list Chunk) : nat :=
  match cs with
  | c :: rest => if same_task c then S (burst rest) else 0
  | [] => 0
  end.

(** The number of chunks received when React renders after chunk [k],
    counted from 0: the chunks up to [k] and those delivered after it in
    the same task. *)
Definition seen (cs : list Chunk) (k : nat) : nat :=
  S k + burst (skipn (S k) cs).


(** How the polling loop ends: with the first operation that reports
    [done], with what a poll throws, or never. *)
Fixpoint poll_result (polls : list (Reply Operation.t))
  (operation : Operation.t) : Res Operation.t :=
  if Operation.done operation then Ok operation
  else match polls with
       | Returns operation' :: polls' => poll_result polls' operation'
       | Throws e :: _ => Raise e
       | NeverSettles :: _ => Blocked
       | [] => Blocked
       end.


(** The message at position [n] of the current store. *)
Definition messageAt (n : nat) (w : World) : option Message.t :=
  nth_error (messages (app w)) n.

Definition is_call (ev : Event) : bool :=
  match ev with
  | CallSendChatMessage _ _ | CallGenerateVideo _ => true
  | _ => false
  end.

(** [userText] is the video command with this [remainder]: the token
    [/video ], in any letter case, followed by [remainder]. *)
Definition video_command (userText remainder : string) : Prop :=
  exists token, userText = token ++ remainder /\ toLowerCase token = "/video ".


(** A submission of this state gets an assistant Message: it is a video
    command, or the chat session exists. *)
Definition opens_exchange (a : AppState) : bool :=
  startsWith (toLowerCase (trim (input a))) "/video "
  || match chat a with Some _ => true | None => false end.

(** The reading of the clock that gives the user Message its id.  The
    updater that appends the Message runs at the first render after the
    submission; when there is an assistant Message, the clock has been
    read once for its id by then. *)
Definition userReading (w : World) : nat :=
  if opens_exchange (app w) then S (ndate w) else ndate w.

(** The user Message that an accepted submission appends. *)
Definition userMessage (env : Env) (w : World) : Message.t :=
  {| Message.id := toString (dateNow env (userReading w));
     Message.text := trim (input (app w));
     Message.sender := user;
     Message.imagePreview := imagePreview (app w);
     Message.videoUrl := None; Message.isLoading := None;
     Message.streamingText := None; Message.isError := None |}.

(** The updater that appends it. *)
Definition userUpdater (a : AppState) : Updater :=
  ReadsDateNow (fun now => append
    {| Message.id := toString now; Message.text := trim (input a);
       Message.sender := user;
       Message.imagePreview := imagePreview a;
       Message.videoUrl := None; Message.isLoading := None;
       Message.streamingText := None; Message.isError := None |}).

(** The world in which an accepted submission is dispatched: busy, the
    draft and the staged attachment cleared; the user Message is not in
    the store yet. *)
Definition dispatch_world (env : Env) (w : World) : World :=
  {| app :=
       {| messages := messages (app w);
          input := ""; imageFile := None; imagePreview := None;
          isLoading := true; chat := chat (app w); error := None;
          isRecording := isRecording (app w) |};
     history := history w;
     trace := trace w;
     ndate := ndate w |}.

(** The frame in which it is dispatched: the updater of the user Message
    waits. *)
Definition dispatch_frame (env : Env) (w : World) : Frame :=
  {| world := dispatch_world env w;
     queue := [userUpdater (app w)];
     accumulatedText := "" |}.

(** A frame in which nothing waits. *)
Definition idle (w : World) (accumulatedText : string) : Frame :=
  {| world := w; queue := []; accumulatedText := accumulatedText |}.

(** The updater of the streaming loop. *)
Definition streamingUpdater (id : string) : Updater :=
  ReadsAccumulatedText (fun accumulatedText =>
    updateById id (Message.with_streamingText (Some accumulatedText))).

(** The texts the streaming loop writes, one for each updater, while it
    receives [cs]: [acc] is the text accumulated so far and [waiting] the
    number of its updaters that have not run yet. *)
Fixpoint written (acc : string) (waiting : nat) (cs : list Chunk)
  : list string :=
  match cs with
  | [] => repeat acc waiting
  | c :: rest =>
      if same_task c then written (acc ++ chunk_text c) (S waiting) rest
      else (repeat acc waiting ++ written (acc ++ chunk_text c) 1 rest)%list
  end.

(** The stores in which the messages with id [id] of [s0] have these
    streaming texts. *)
Definition streamed (id : string) (s0 : list Message.t) (texts : list string)
  : list (list Message.t) :=
  map (fun t => updateById id (Message.with_streamingText (Some t)) s0) texts.

(** How the [for await] loop ends. *)
Definition stream_result (fin : StreamEnd) : Res unit :=
  match fin with
  | Exhausted => Ok tt
  | StreamThrows e => Raise e
  | StreamStalls => Blocked
  end.

(** The pending assistant Message that the Chat Protocol appends. *)
Definition assistantDraft (id : string) : Message.t :=
  {| Message.id := id; Message.text := ""; Message.sender := ai;
     Message.imagePreview := None; Message.videoUrl := None;
     Message.isLoading := Some true; Message.streamingText := Some "";
     Message.isError := None |}.

(** The id that a protocol started in [w] gives its assistant Message. *)
Definition assistantId (env : Env) (w : World) : string :=
  toString (dateNow env (ndate w) + 1).

(** The payload of the chat request. *)
Definition chat_parts (prompt : string) (file : option File) : list Part :=
  ((match file with
    | Some f => [fileToGenerativePart f]
    | None => []
    end) ++
   (if truthy prompt then [TextPart prompt] else []))%list.

(** The store of an accepted chat submission made in [w] once the request
    is sent: the user Message and the draft of the assistant Message. *)
Definition opened_store (env : Env) (w : World) : list Message.t :=
  append (assistantDraft (assistantId env w))
    (append (userMessage env w) (messages (app w))).

(** The world of an accepted chat submission made in [w], with a chat
    session, when its stream has delivered the chunks [cs]. *)
Definition streaming_world (env : Env) (w : World) (cs : list Chunk) : World :=
  fold_left write_store
    (streamed (assistantId env w) (opened_store env w) (written "" 0 cs))
    (write_store
       (write_store
          (tick (add_events
             (tick (add_events (dispatch_world env w)
                [CallSendChatMessage (trim (input (app w))) (imageFile (app w))]))
             [SendMessageStream
                (chat_parts (trim (input (app w))) (imageFile (app w)))]))
          (append (userMessage env w) (messages (app w))))
       (opened_store env w)).

(** The terminal rewrites of the assistant Message of the Chat Protocol. *)
Definition chat_completed (accumulatedText : string) (msg : Message.t) : Message.t :=
  Message.with_isLoading (Some false)
    (Message.with_streamingText None
      (Message.with_text accumulatedText msg)).

Definition chat_failed (e : Thrown) (msg : Message.t) : Message.t :=
  Message.with_isLoading (Some false)
    (Message.with_isError (Some true)
      (Message.with_text
         ("Sorry, I ran into an error: " ++ chatErrorMessage e) msg)).

(** *** The parts of [generateVideo] *)

(** The pending assistant Message that the Video Protocol appends. *)
Definition videoDraft (id prompt : string) : Message.t :=
  {| Message.id := id; Message.sender := ai;
     Message.text :=
       "🎬 Preparing to generate video for: " ++ dquote ++ prompt ++ dquote ++ "...";
     Message.imagePreview := None; Message.videoUrl := None;
     Message.isLoading := Some true; Message.streamingText := None;
     Message.isError := None |}.

(** The key-selection step. *)
Definition keySelection (env : Env) (aiMessageId : string) : M unit :=
  match aistudio env with
  | Some studio =>
      emit HasSelectedApiKey ;;
      selected <- await env (hasSelectedApiKey studio) ;;
      if negb selected then
        setMessages (Pure (updateById aiMessageId
          (Message.with_text "Please select an API key to generate videos."))) ;;
        emit OpenSelectKey ;;
        await env (openSelectKey studio)
      else ret tt
  | None => ret tt
  end.

(** The terminal rewrites of the assistant Message of the Video Protocol. *)
Definition video_succeeded (videoUrl : string) (m : Message.t) : Message.t :=
  Message.with_isLoading (Some false)
    (Message.with_videoUrl (Some videoUrl)
      (Message.with_text "✅ Your video is ready!" m)).

Definition video_failed (e : Thrown) (m : Message.t) : Message.t :=
  Message.with_isError (Some true)
    (Message.with_isLoading (Some false)
      (Message.with_text (userFriendlyError (videoErrorMessage e)) m)).

(** The notice shown while the job runs. *)
Definition generatingNotice : string :=
  "⏳ Generating your video... This can take a few minutes. Please be patient.".

(** What the code makes of the operation the polling loop ended with. *)
Definition settle (env : Env) (aiMessageId : string)
  (operation : Operation.t) : M unit :=
  match Operation.error operation with
  | Some err => throw (newError (message err))
  | None =>
      match downloadLink operation with
      | Some link =>
          if truthy link then
            setMessages (Pure (updateById aiMessageId
              (video_succeeded (link ++ "&key=" ++ API_KEY env))))
          else throw (ErrorObj "Video generation failed to return a valid URL.")
      | None => throw (ErrorObj "Video generation failed to return a valid URL.")
      end
  end.

(** The request, the polling loop and the settlement. *)
Definition videoJob (env : Env) (aiMessageId prompt : string) : M unit :=
  setMessages (Pure (updateById aiMessageId
    (Message.with_text generatingNotice))) ;;
  emit (GenerateVideos prompt) ;;
  operation <- await env (generateVideos env) ;;
  operation <- poll_loop env (getVideosOperation env) operation ;;
  settle env aiMessageId operation.

(** The [catch] block. *)
Definition videoFailure (aiMessageId : string) (e : Thrown) : M unit :=
  console_error e ;;
  setMessages (Pure (updateById aiMessageId (video_failed e))).

(** The frame of the Video Protocol, started in [f], once the updater of
    its assistant Message is queued. *)
Definition drafted_frame (env : Env) (f : Frame) (prompt : string) : Frame :=
  {| world := tick (add_events f [CallGenerateVideo prompt]);
     queue := (queue f ++
               [Pure (append (videoDraft (assistantId env f) prompt))])%list;
     accumulatedText := accumulatedText f |}.

(** The Chat Protocol once the updater of its assistant Message is
    queued: the request, the streaming loop and the final update. *)
Definition chatJob (env : Env) (aiMessageId prompt : string)
  (file : option File) : M unit :=
  emit (SendMessageStream (chat_parts prompt file)) ;;
  result <- await env (sendMessageStream env) ;;
  let_accumulatedText "" ;;
  for_await env aiMessageId (chunks result) (ending result) ;;
  setMessages (ReadsAccumulatedText (fun accumulatedText =>
    updateById aiMessageId (chat_completed accumulatedText))).

(** Its [catch] block. *)
Definition chatFailure (aiMessageId : string) (e : Thrown) : M unit :=
  console_error e ;;
  setMessages (Pure (updateById aiMessageId (chat_failed e))).

(** The frame of the Chat Protocol, started in [f], once the updater of
    its assistant Message is queued. *)
Definition chat_drafted_frame (env : Env) (f : Frame) (prompt : string)
  (file : option File) : Frame :=
  {| world := tick (add_events f [CallSendChatMessage prompt file]);
     queue := (queue f ++
               [Pure (append (assistantDraft (assistantId env f)))])%list;
     accumulatedText := accumulatedText f |}.

(** The Chat Protocol from the point where its first [await] resumes. *)
Definition chatResumed (env : Env) (aiMessageId : string) : M unit :=
  result <- reply (sendMessageStream env) ;;
  let_accumulatedText "" ;;
  for_await env aiMessageId (chunks result) (ending result) ;;
  setMessages (ReadsAccumulatedText (fun accumulatedText =>
    updateById aiMessageId (chat_completed accumulatedText))).

(** The Video Protocol from the point where its first [await] resumes:
    the query of the key selection if the capability is present, the
    generation request otherwise. *)
Definition videoResumed (env : Env) (aiMessageId prompt : string) : M unit :=
  match aistudio env with
  | Some studio =>
      (selected <- reply (hasSelectedApiKey studio) ;;
       if negb selected then
         setMessages (Pure (updateById aiMessageId
           (Message.with_text "Please select an API key to generate videos."))) ;;
         emit OpenSelectKey ;;
         await env (openSelectKey studio)
       else ret tt) ;;
      videoJob env aiMessageId prompt
  | None =>
      operation <- reply (generateVideos env) ;;
      operation <- poll_loop env (getVideosOperation env) operation ;;
      settle env aiMessageId operation
  end.

(** The store at that point, for an accepted submission made in [w]. *)
Definition video_opened_store (env : Env) (w : World) (prompt : string)
  : list Message.t :=
  let opened :=
    append (videoDraft (assistantId env w) prompt)
      (append (userMessage env w) (messages (app w))) in
  match aistudio env with
  | Some _ => opened
  | None =>
      updateById (assistantId env w) (Message.with_text generatingNotice) opened
  end.

Definition is_console_error (ev : Event) : bool :=
  match ev with ConsoleError _ => true | _ => false end.

(** *** Sample sessions *)

Definition sampleChat : Chat := {| chat_model := "gemini-2.5-flash" |}.

(** A world right after startup, with [draft] typed in the input. *)
Definition sampleWorld (busy : bool) (session : option Chat) (draft : string)
  : World :=
  {| app := {| messages := [greeting]; input := draft; imageFile := None;
               imagePreview := None; isLoading := busy; chat := session;
               error := None; isRecording := false |};
     history := []; trace := []; ndate := 0 |}.

Definition readyWorld : string -> World := sampleWorld false (Some sampleChat).
Definition busyWorld : string -> World := sampleWorld true (Some sampleChat).
Definition uninitialisedWorld : string -> World := sampleWorld false None.

Definition sampleEnv (studio : option Aistudio) (stream : Reply ChatStream)
  (submitted : Reply Operation.t) (polls : list (Reply Operation.t)) : Env :=
  {| dateNow := fun k => (1700000000000 + Z.of_nat k)%Z;
     API_KEY := "KEY";
     aistudio := studio;
     sendMessageStream := stream;
     generateVideos := submitted;
     getVideosOperation := polls |}.

(** A stream that delivers each chunk in a task of its own. *)
Definition streamOf (texts : list string) (fin : StreamEnd) : ChatStream :=
  {| chunks := map (fun t => {| chunk_text := t; same_task := false |}) texts;
     ending := fin |}.

(** A stream that delivers all its chunks in one task. *)
Definition burstOf (texts : list string) (fin : StreamEnd) : ChatStream :=
  {| chunks := map (fun t => {| chunk_text := t; same_task := true |}) texts;
     ending := fin |}.

Definition runningOperation : Operation.t :=
  Operation.mk false None None.

Definition finishedOperation (link : string) : Operation.t :=
  Operation.mk true None
    (Some {| generatedVideos :=
               Some [ {| video := Some {| uri := Some link |} |} ] |}).


(** A chat whose stream delivers [Hel] and [lo]. *)
Definition helloEnv : Env :=
  sampleEnv None (Returns (streamOf ["Hel"; "lo"] Exhausted))
    (Throws (OtherValue None)) [].

(** A chat whose stream delivers [Hel] and then throws. *)
Definition brokenStreamEnv : Env :=
  sampleEnv None (Returns (streamOf ["Hel"] (StreamThrows (ErrorObj "boom"))))
    (Throws (OtherValue None)) [].

(** A chat whose stream delivers [a], [b] and [c] in one task. *)
Definition burstEnv : Env :=
  sampleEnv None (Returns (burstOf ["a"; "b"; "c"] Exhausted))
    (Throws (OtherValue None)) [].

(** The chat of [helloEnv], with a clock that does not move during the
    submission. *)
Definition sameMillisecondEnv : Env :=
  {| dateNow := fun _ => 1700000000000%Z;
     API_KEY := "KEY";
     aistudio := None;
     sendMessageStream := Returns (streamOf ["Hel"; "lo"] Exhausted);
     generateVideos := Throws (OtherValue None);
     getVideosOperation := [] |}.

(** A video job that is done after two polls, behind a key selection. *)
Definition videoEnv : Env :=
  sampleEnv
    (Some {| hasSelectedApiKey := Returns false; openSelectKey := Returns tt |})
    NeverSettles
    (Returns runningOperation)
    [Returns runningOperation; Returns (finishedOperation "https://videos.example/v1?alt=media")].



(** ** Relations between the frame a handler starts in and the one it leaves *)

(** A handler keeps a relation [R] between the frame it starts in and the
    frame it leaves. *)
Definition preserves (R : Frame -> Frame -> Prop) {A} (c : M A) : Prop :=
  forall f, R f (snd (c f)).

(** A relation between rendered worlds, under a condition [G] on the
    updaters that wait: when those of the first frame meet [G], so do
    those of the second, and the worlds are related. *)
Definition guarded (G : Updater -> Prop) (S : World -> World -> Prop)
  (f f' : Frame) : Prop :=
  Forall G (queue f) -> Forall G (queue f') /\ S f f'.

(** No condition on the updaters. *)
Definition any_updater (u : Updater) : Prop := True.

(** The run only added events that satisfy [P]. *)
Definition emits (P : Event -> Prop) (w w' : World) : Prop :=
  exists evs, since_trace w w' evs /\ Forall P evs.

(** The run wrote the store only by [store_step]s, all of them recorded
    in the history, the last being the current store. *)
Definition writes (w w' : World) : Prop :=
  exists hs, since_history w w' hs /\
             chain (messages (app w)) hs /\
             messages (app w') = last hs (messages (app w)).

(** Whenever it runs, the updater makes one [store_step]. *)
Definition steps_store (u : Updater) : Prop :=
  forall now acc s, store_step s (updater_fn u now acc s).

(** Whenever it runs, the updater takes a store to one related by [T]. *)
Definition store_related (T : list Message.t -> list Message.t -> Prop)
  (u : Updater) : Prop :=
  forall now acc s, T s (updater_fn u now acc s).

(** A relation between stores, as a relation between worlds. *)
Definition on_stores (T : list Message.t -> list Message.t -> Prop)
  (w w' : World) : Prop :=
  T (messages (app w)) (messages (app w')).
(** * The rest of the component

    What [index.tsx] holds besides the two protocols: the markdown
    renderer, the transcoder, the view of a message and of the footer, and
    the vocabulary of the properties proved about them and about the
    handlers as a whole. *)

(** ** More JavaScript strings *)

(** The first [n] characters. *)
Fixpoint take (n : nat) (s : string) : string :=
  match n, s with
  | S k, String c s' => String c (take k s')
  | _, _ => EmptyString
  end.

(** [s.endsWith(p)] *)
Definition endsWith (s p : string) : bool :=
  (String.length p <=? String.length s)%nat &&
  String.eqb (substring (String.length s - String.length p) s) p.

(** [s.slice(start, -fromEnd)]: from index [start] to [fromEnd] characters
    before the end; empty when the two cross. *)
Definition slice (start fromEnd : nat) (s : string) : string :=
  take (String.length s - fromEnd - start) (substring start s).

(** [s.split(sep)] for a separator of one character. *)
Fixpoint splitOn (sep : ascii) (s : string) : list string :=
  match s with
  | EmptyString => [EmptyString]
  | String c s' =>
      if Ascii.eqb c sep then EmptyString :: splitOn sep s'
      else match splitOn sep s' with
           | h :: t => String c h :: t
           | [] => [String c EmptyString]
           end
  end.

(** [parts.join(sep)] *)
Fixpoint joinWith (sep : string) (parts : list string) : string :=
  match parts with
  | [] => EmptyString
  | [p] => p
  | p :: rest => p ++ sep ++ joinWith sep rest
  end.

Definition newline : ascii := ascii_of_nat 10.
Definition comma : ascii := ascii_of_nat 44.
Definition star : ascii := ascii_of_nat 42.
Definition backtick : ascii := ascii_of_nat 96.

(** ** [fileToGenerativePart]: the payload of a data URL *)

(** [(reader.result as string).split(',')[1]]; [None] is [undefined]. *)
Definition base64EncodedData (result : string) : option string :=
  nth_error (splitOn comma result) 1.

(** ** [SimpleMarkdownRenderer] *)

(** The pattern is
    [/(\*\*.*?\*\*|\*.*?\*|```[\s\S]*?```)/g]: three alternatives, tried in
    this order at a position, each an opening mark, a lazy run and a
    closing mark.  [.] matches any character but a line terminator (LF and
    CR in the ASCII range); [[\s\S]] matches any character. *)
Definition isLineTerminator (c : ascii) : bool :=
  let n := nat_of_ascii c in ((n =? 10) || (n =? 13))%nat.

(** The lazy run and the closing mark, matched at the start of [s]: the
    shortest run of characters accepted by [dot] that is followed by
    [close].  The result is the text matched and the text left. *)
Fixpoint lazy_until (dot : ascii -> bool) (close : string) (s : string)
  : option (string * string) :=
  if startsWith s close
  then Some (close, substring (String.length close) s)
  else match s with
       | EmptyString => None
       | String c s' =>
           if dot c then
             match lazy_until dot close s' with
             | Some (m, rest) => Some (String c m, rest)
             | None => None
             end
           else None
       end.

(** One alternative, matched at the start of [s]. *)
Definition delimited (open close : string) (dot : ascii -> bool) (s : string)
  : option (string * string) :=
  if startsWith s open then
    match lazy_until dot close (substring (String.length open) s) with
    | Some (m, rest) => Some (open ++ m, rest)
    | None => None
    end
  else None.

(** The whole pattern, matched at the start of [s]. *)
Definition match_here (s : string) : option (string * string) :=
  match delimited "**" "**" (fun c => negb (isLineTerminator c)) s with
  | Some r => Some r
  | None =>
      match delimited "*" "*" (fun c => negb (isLineTerminator c)) s with
      | Some r => Some r
      | None => delimited "```" "```" (fun _ => true) s
      end
  end.

(** [content.split(pattern)]: the text before each match, the match (the
    pattern is one capture group), and the text after the last match.
    [text] is the text since the last match, [s] the text still to scan;
    every step shortens [s], so [fuel] above its length is never used
    up. *)
Fixpoint split_loop (fuel : nat) (text s : string) : list string :=
  match fuel with
  | O => [text ++ s]
  | S fuel' =>
      match match_here s with
      | Some (m, rest) => text :: m :: split_loop fuel' EmptyString rest
      | None =>
          match s with
          | EmptyString => [text]
          | String c s' => split_loop fuel' (text ++ String c EmptyString) s'
          end
      end
  end.

Definition split_pattern (content : string) : list string :=
  split_loop (S (String.length content)) EmptyString content.

(** What the renderer returns. *)
Inductive MdNode : Type :=
| Strong (s : string)
| Em (s : string)
| CodeBlock (s : string)
| TextLine (s : string)
| Br.

(** [part.split('\n').map(...)]: each line, and a break after every line
    but the last. *)
Fixpoint lineNodes (ls : list string) : list MdNode :=
  match ls with
  | [] => []
  | [l] => [TextLine l]
  | l :: rest => TextLine l :: Br :: lineNodes rest
  end.

Definition renderPart (part : string) : list MdNode :=
  if startsWith part "**" && endsWith part "**" then
    [Strong (slice 2 2 part)]
  else if startsWith part "*" && endsWith part "*" then
    [Em (slice 1 1 part)]
  else if startsWith part "```" && endsWith part "```" then
    [CodeBlock (trim (slice 3 3 part))]
  else lineNodes (splitOn newline part).

Definition SimpleMarkdownRenderer (content : string) : list MdNode :=
  flat_map renderPart (split_pattern content).

(** A text without the two characters the pattern starts with. *)
Fixpoint no_markup (s : string) : bool :=
  match s with
  | EmptyString => true
  | String c s' =>
      negb (Ascii.eqb c star) && negb (Ascii.eqb c backtick) && no_markup s'
  end.

Fixpoint no_char (x : ascii) (s : string) : bool :=
  match s with
  | EmptyString => true
  | String c s' => negb (Ascii.eqb c x) && no_char x s'
  end.

(** Every character of [s] satisfies [p]. *)
Fixpoint all_chars (p : ascii -> bool) (s : string) : bool :=
  match s with
  | EmptyString => true
  | String c s' => p c && all_chars p s'
  end.

Fixpoint one_line (s : string) : bool :=
  match s with
  | EmptyString => true
  | String c s' => negb (isLineTerminator c) && one_line s'
  end.

(** ** The view *)

(** The children of one message bubble, in order. *)
Inductive Element : Type :=
| Img (src : string)
| Span (text : string)
| LoadingDots
| Markdown (nodes : list MdNode)
| VideoPlayer (src : string).

Definition truthy_flag (b : option bool) : bool :=
  match b with Some true => true | _ => false end.

Definition cursor : string := "▌".

(** The body of the [message-bubble] element. *)
Definition bubble (msg : Message.t) : list Element :=
  ((match Message.imagePreview msg with
    | Some src => if truthy src then [Img src] else []
    | None => []
    end) ++
   (if truthy_flag (Message.isLoading msg)
       && negb (truthy_opt (Message.streamingText msg))
       && negb (truthy_opt (Message.videoUrl msg))
    then [if truthy (Message.text msg) then Span (Message.text msg)
          else LoadingDots]
    else []) ++
   (if negb (truthy_flag (Message.isLoading msg))
       && negb (truthy_opt (Message.streamingText msg))
    then [Markdown (SimpleMarkdownRenderer (Message.text msg))]
    else []) ++
   (match Message.streamingText msg with
    | Some t =>
        if truthy t then [Markdown (SimpleMarkdownRenderer (t ++ cursor))]
        else []
    | None => []
    end) ++
   (match Message.videoUrl msg with
    | Some src => if truthy src then [VideoPlayer src] else []
    | None => []
    end))%list.

(** The bubble has the [error] class. *)
Definition bubbleIsError (msg : Message.t) : bool :=
  truthy_flag (Message.isError msg).

(** [disabled] of the send button. *)
Definition sendDisabled (a : AppState) : bool :=
  isLoading a
  || (negb (truthy (trim (input a)))
      && match imageFile a with Some _ => false | None => true end).

(** ** Vocabulary of the further properties *)

(** A handler never lets a thrown value out. *)
Definition never_raises {A} (c : M A) : Prop :=
  forall w e, fst (c w) <> Raise e.

(** No call of the handler waits for good. *)
Definition never_blocks {A} (c : M A) : Prop :=
  forall f, fst (c f) <> Blocked.

(** The busy flag is as it was. *)
Definition same_busy (w w' : World) : Prop :=
  isLoading (app w') = isLoading (app w).

(** Forgetting what a protocol may rewrite in a message: everything but
    its id, its sender and its image preview. *)
Definition erase_content (m : Message.t) : Message.t :=
  Message.mk (Message.id m) "" (Message.sender m) (Message.imagePreview m)
    None None None None.

(** The messages with another id than [id] are where and what they were. *)
Definition others_untouched (id : string) (w w' : World) : Prop :=
  forall i m,
    nth_error (messages (app w)) i = Some m -> Message.id m <> id ->
    nth_error (messages (app w')) i = Some m.

(** No message is loading but those with id [id]; no message is loading. *)
Definition loading_only (id : string) (w : World) : Prop :=
  Forall (fun m => Message.isLoading m = Some true -> Message.id m = id)
    (messages (app w)).

Definition none_loading (w : World) : Prop :=
  Forall (fun m => Message.isLoading m <> Some true) (messages (app w)).

(** [I] is kept, and [J] holds whenever the handler returns. *)
Definition okpost {A} (I J : Frame -> Prop) (c : M A) : Prop :=
  forall f, I f ->
    I (snd (c f)) /\ (forall a, fst (c f) = Ok a -> J (snd (c f))).

Definition keeps (I : Frame -> Prop) (f f' : Frame) : Prop := I f -> I f'.

(** Whenever it runs, the updater leaves no message loading but those
    with id [id], if there was none before. *)
Definition keeps_loading_only (id : string) (u : Updater) : Prop :=
  forall now acc s,
    Forall (fun m => Message.isLoading m = Some true -> Message.id m = id) s ->
    Forall (fun m => Message.isLoading m = Some true -> Message.id m = id)
      (updater_fn u now acc s).

(** No message is loading but those with id [id], in the store and after
    any of the updaters that wait. *)
Definition loading_invariant (id : string) (f : Frame) : Prop :=
  loading_only id f /\ Forall (keeps_loading_only id) (queue f).

(** No message is loading once React has rendered. *)
Definition settled (env : Env) (f : Frame) : Prop :=
  none_loading (rendered env f).

(** An updater that reads nothing but constants. *)
Definition is_pure (u : Updater) : Prop :=
  match u with Pure _ => True | _ => False end.

(** The store once React has run the updaters that wait, when none of
    them reads the clock or the variable. *)
Definition pending_store (f : Frame) : list Message.t :=
  fold_left (fun s u => updater_fn u 0%Z "" s) (queue f) (messages (app f)).

(** Once React has rendered, the message at position [n] is an assistant
    Message with id [id]. *)
Definition assistant_at (n : nat) (id : string) (f : Frame) : Prop :=
  Forall is_pure (queue f) /\
  exists m, nth_error (pending_store f) n = Some m /\
            Message.id m = id /\ Message.sender m = ai.

(** Every awaited call of the environment settles, and the polling loop,
    if it is entered, gets an answer to each poll until it ends. *)
Definition responsive (env : Env) : Prop :=
  match aistudio env with
  | Some studio =>
      hasSelectedApiKey studio <> NeverSettles /\
      openSelectKey studio <> NeverSettles
  | None => True
  end /\
  match sendMessageStream env with
  | Returns stream => ending stream <> StreamStalls
  | Throws _ => True
  | NeverSettles => False
  end /\
  match generateVideos env with
  | Returns operation =>
      poll_result (getVideosOperation env) operation <> Blocked
  | Throws _ => True
  | NeverSettles => False
  end.

(** A state variable, or anything read off the state, is as it was. *)
Definition same_on {T} (proj : AppState -> T) (w w' : World) : Prop :=
  proj (app w') = proj (app w).

(** The draft, the staged attachment and its preview. *)
Definition staged (a : AppState) : string * option File * option string :=
  (input a, imageFile a, imagePreview a).

Definition is_mount (a : Action) : bool :=
  match a with Mount _ => true | _ => false end.

(** A session continued from [w]. *)
Definition run_from (w : World) (actions : list Action) : World :=
  fold_left (fun w a => step a w) actions w.

Definition is_sendMessageStream (ev : Event) : bool :=
  match ev with SendMessageStream _ => true | _ => false end.

(** * Properties *)

(** ** Reasoning about handlers *)

(** A relation between the frame before and the frame after that holds
    across [ret], [throw] and [reply] and composes through [bind],
    [try_catch], [await] and [async] holds across any handler built from
    steps that have it. *)
Section Preservation.

Variable R : Frame -> Frame -> Prop.
Hypothesis R_refl : forall f, R f f.
Hypothesis R_trans : forall f1 f2 f3, R f1 f2 -> R f2 f3 -> R f1 f3.

Lemma preserves_ret {A} (a : A) : preserves R (ret a).
Proof. intro f; apply R_refl. Qed.

Lemma preserves_throw {A} (e : Thrown) : preserves R (@throw A e).
Proof. intro f; apply R_refl. Qed.

Lemma preserves_reply {A} (r : Reply A) : preserves R (reply r).
Proof. intro f; unfold reply; destruct r; apply R_refl. Qed.

Lemma preserves_bind {A B} (c : M A) (k : A -> M B) :
  preserves R c -> (forall a, preserves R (k a)) -> preserves R (bind c k).
Proof.
  intros Hc Hk f. unfold bind.
  specialize (Hc f). destruct (c f) as [[a | e | ] f1]; cbn in *; auto.
  eapply R_trans; [exact Hc | apply Hk].
Qed.

Lemma preserves_try_catch {A} (body : M A) (handler : Thrown -> M A) :
  preserves R body -> (forall e, preserves R (handler e)) ->
  preserves R (try_catch body handler).
Proof.
  intros Hb Hh f. unfold try_catch.
  specialize (Hb f). destruct (body f) as [[a | e | ] f1]; cbn in *; auto.
  eapply R_trans; [exact Hb | apply Hh].
Qed.

Lemma preserves_await env {A} (r : Reply A) :
  preserves R (render env) -> preserves R (await env r).
Proof.
  intro Hr. unfold await. apply preserves_bind; [exact Hr |].
  intros _. apply preserves_reply.
Qed.

Lemma preserves_async env {A} (body : M A) :
  preserves R body -> preserves R (render env) -> preserves R (async env body).
Proof.
  intros Hb Hr f. unfold async. specialize (Hb f).
  destruct (body f) as [r f1]. cbn in *.
  eapply R_trans; [exact Hb | apply (Hr f1)].
Qed.

End Preservation.

(** Taking a handler apart. *)
Ltac handler_steps refl trans :=
  repeat match goal with
    | |- preserves _ (bind _ _) => apply (preserves_bind _ trans); [| intro]
    | |- preserves _ (try_catch _ _) =>
        apply (preserves_try_catch _ trans); [| intro]
    | |- preserves _ (async _ _) => apply (preserves_async _ trans)
    | |- preserves _ (await _ _) => apply (preserves_await _ refl trans)
    | |- preserves _ (ret _) => apply (preserves_ret _ refl)
    | |- preserves _ (throw _) => apply (preserves_throw _ refl)
    | |- preserves _ (reply _) => apply (preserves_reply _ refl)
    | |- preserves _ (match ?x with _ => _ end) => destruct x
    | |- preserves _ (let _ := _ in _) => cbv zeta
    end.

Ltac unfold_setters :=
  unfold removeImage, setInput, setImageFile, setImagePreview, setIsLoading,
    setChat, setError, setIsRecording, console_error.

(** *** What a render leaves alone *)

Lemma run_updater_trace env acc w u : trace (run_updater env acc w u) = trace w.
Proof. destruct u; reflexivity. Qed.

Lemma run_updater_flags env acc w u :
  input (app (run_updater env acc w u)) = input (app w) /\
  imageFile (app (run_updater env acc w u)) = imageFile (app w) /\
  imagePreview (app (run_updater env acc w u)) = imagePreview (app w) /\
  isLoading (app (run_updater env acc w u)) = isLoading (app w) /\
  chat (app (run_updater env acc w u)) = chat (app w) /\
  error (app (run_updater env acc w u)) = error (app w) /\
  isRecording (app (run_updater env acc w u)) = isRecording (app w).
Proof. destruct u; repeat split. Qed.

Lemma rendered_idle env w acc : rendered env (idle w acc) = idle w acc.
Proof. reflexivity. Qed.

Lemma frame_eta (f : Frame) :
  f = {| world := world f; queue := queue f;
         accumulatedText := accumulatedText f |}.
Proof. now destruct f. Qed.

(** *** Relations between rendered worlds *)

Section Guarded.

Variable env : Env.
Variable G : Updater -> Prop.
Variable S : World -> World -> Prop.
Hypothesis S_refl : forall w, S w w.
Hypothesis S_trans : forall w1 w2 w3, S w1 w2 -> S w2 w3 -> S w1 w3.
Hypothesis S_run : forall acc w u, G u -> S w (run_updater env acc w u).

Lemma guarded_refl f : guarded G S f f.
Proof. intro H. split; [exact H | apply S_refl]. Qed.

Lemma guarded_trans f1 f2 f3 :
  guarded G S f1 f2 -> guarded G S f2 f3 -> guarded G S f1 f3.
Proof.
  intros H1 H2 Q. destruct (H1 Q) as [Q2 S12]. destruct (H2 Q2) as [Q3 S23].
  split; [exact Q3 | eapply S_trans; eassumption].
Qed.

Lemma guarded_on_world g :
  (forall w, S w (g w)) -> preserves (guarded G S) (on_world g).
Proof. intros Hg f Q. split; [exact Q | apply Hg]. Qed.

Lemma guarded_Date_now :
  (forall w, S w (tick w)) -> preserves (guarded G S) (Date_now env).
Proof. intros Hg f Q. split; [exact Q | apply Hg]. Qed.

Lemma guarded_setMessages u : G u -> preserves (guarded G S) (setMessages u).
Proof.
  intros Hu f Q. split; [| apply S_refl].
  cbn. apply Forall_app. split; [exact Q | now constructor].
Qed.

Lemma guarded_let_accumulatedText v :
  preserves (guarded G S) (let_accumulatedText v).
Proof. intros f Q. split; [exact Q | apply S_refl]. Qed.

Lemma guarded_add_accumulatedText s :
  preserves (guarded G S) (add_accumulatedText s).
Proof. intros f Q. split; [exact Q | apply S_refl]. Qed.

Lemma run_queue_related acc q : forall w,
  Forall G q -> S w (fold_left (run_updater env acc) q w).
Proof.
  induction q as [| u q IH]; intros w Q; [apply S_refl |].
  inversion Q as [| ? ? Hu Q']; subst. cbn [fold_left].
  eapply S_trans; [apply (S_run acc w u Hu) | apply IH; exact Q'].
Qed.

Lemma guarded_render : preserves (guarded G S) (render env).
Proof.
  intros f Q. split; [constructor |]. cbn. now apply run_queue_related.
Qed.

(** From a frame in which nothing waits, the worlds are related. *)
Lemma guarded_from_idle {A} (c : M A) (f : Frame) :
  preserves (guarded G S) c -> queue f = [] -> S f (snd (c f)).
Proof. intros H Q. apply H. rewrite Q. constructor. Qed.

End Guarded.

(** Taking a handler apart for a guarded relation: what is left are the
    steps that touch the world or the queue. *)
Ltac guarded_steps refl trans run :=
  unfold_setters;
  match goal with
  | |- preserves (guarded ?G ?S) _ =>
      handler_steps (guarded_refl G S refl) (guarded_trans G S trans);
      try match goal with
        | |- preserves _ (render ?env) =>
            apply (guarded_render env G S refl trans (run env))
        | |- preserves _ (let_accumulatedText _) =>
            apply (guarded_let_accumulatedText G S refl)
        | |- preserves _ (add_accumulatedText _) =>
            apply (guarded_add_accumulatedText G S refl)
        end
  end.

(** *** The trace only grows *)

Lemma emits_refl (P : Event -> Prop) w : emits P w w.
Proof. exists []. split; [unfold since_trace; now rewrite app_nil_r | constructor]. Qed.

Lemma emits_trans (P : Event -> Prop) w1 w2 w3 :
  emits P w1 w2 -> emits P w2 w3 -> emits P w1 w3.
Proof.
  intros (e1 & H1 & F1) (e2 & H2 & F2). exists (e1 ++ e2)%list. split.
  - unfold since_trace in *. rewrite H2, H1. now rewrite app_assoc.
  - apply Forall_app; auto.
Qed.

Lemma emits_same_trace (P : Event -> Prop) w w' :
  trace w' = trace w -> emits P w w'.
Proof.
  intro H. exists []. split; [| constructor].
  unfold since_trace. now rewrite app_nil_r.
Qed.

Lemma emits_run (P : Event -> Prop) env acc w u :
  any_updater u -> emits P w (run_updater env acc w u).
Proof. intros _. apply emits_same_trace, run_updater_trace. Qed.

Lemma emits_emit (P : Event -> Prop) ev :
  P ev -> preserves (guarded any_updater (emits P)) (emit ev).
Proof.
  intros HP. apply guarded_on_world. intro w.
  exists [ev]. split; [reflexivity | repeat constructor; auto].
Qed.

Lemma emits_modify_app (P : Event -> Prop) g :
  preserves (guarded any_updater (emits P)) (modify_app g).
Proof. apply guarded_on_world. intro w. now apply emits_same_trace. Qed.

Lemma emits_setMessages (P : Event -> Prop) u :
  preserves (guarded any_updater (emits P)) (setMessages u).
Proof. apply guarded_setMessages; [apply emits_refl | exact Logic.I]. Qed.

Lemma emits_Date_now (P : Event -> Prop) env :
  preserves (guarded any_updater (emits P)) (Date_now env).
Proof. apply guarded_Date_now. intro w. now apply emits_same_trace. Qed.

Ltac emits_steps :=
  match goal with
  | |- preserves (guarded _ (emits ?P)) _ =>
      guarded_steps (emits_refl P) (emits_trans P) (emits_run P)
  end;
  try match goal with
    | |- preserves _ (Date_now _) => apply emits_Date_now
    | |- preserves _ (setMessages _) => apply emits_setMessages
    | |- preserves _ (modify_app _) => apply emits_modify_app
    | |- preserves _ (emit _) => apply emits_emit; cbn; auto
    end.

(** From a frame in which nothing waits, a handler that emits only
    events with [P] has added only such events. *)
Lemma emits_from_idle (P : Event -> Prop) {A} (c : M A) (f : Frame) :
  preserves (guarded any_updater (emits P)) c -> emits P f (snd (c f)).
Proof. intro H. apply H. apply Forall_forall. intros u _. exact Logic.I. Qed.

(** *** The store is written by appends and updates in place *)

Lemma last_cons {A} (h : A) (l : list A) (d : A) :
  last (h :: l) d = last l h.
Proof.
  revert h d. induction l as [| y l IH]; intros h d; [reflexivity |].
  change (last (h :: y :: l) d) with (last (y :: l) d).
  now rewrite (IH y d), (IH y h).
Qed.

Lemma last_app_default {A} (l1 l2 : list A) (d : A) :
  last (l1 ++ l2) d = last l2 (last l1 d).
Proof.
  revert d. induction l1 as [| x l1 IH]; intro d; [reflexivity |].
  change ((x :: l1) ++ l2)%list with (x :: (l1 ++ l2))%list.
  now rewrite !last_cons, IH.
Qed.

Lemma chain_app s hs1 hs2 :
  chain s (hs1 ++ hs2) <-> chain s hs1 /\ chain (last hs1 s) hs2.
Proof.
  revert s. induction hs1 as [| h hs1 IH]; intro s.
  - cbn. tauto.
  - change ((h :: hs1) ++ hs2)%list with (h :: (hs1 ++ hs2))%list.
    cbn [chain]. rewrite IH, last_cons. tauto.
Qed.

Lemma writes_refl w : writes w w.
Proof.
  exists []. unfold since_history. rewrite app_nil_r. cbn. auto.
Qed.

Lemma writes_trans w1 w2 w3 : writes w1 w2 -> writes w2 w3 -> writes w1 w3.
Proof.
  intros (h1 & H1 & C1 & L1) (h2 & H2 & C2 & L2).
  exists (h1 ++ h2)%list. unfold since_history in *. repeat split.
  - rewrite H2, H1. now rewrite app_assoc.
  - apply chain_app. split; [assumption | now rewrite <- L1].
  - rewrite last_app_default, <- L1. exact L2.
Qed.

Lemma writes_same_store w w' :
  messages (app w') = messages (app w) -> history w' = history w ->
  writes w w'.
Proof.
  intros Hm Hh. exists []. unfold since_history.
  rewrite app_nil_r, Hm, Hh. cbn. auto.
Qed.

Lemma writes_run env acc w u :
  steps_store u -> writes w (run_updater env acc w u).
Proof.
  intro Hu.
  pose proof (Hu (dateNow env (ndate w)) acc (messages (app w))) as St.
  exists [updater_fn u (dateNow env (ndate w)) acc (messages (app w))].
  unfold since_history. destruct u; cbn in *; repeat split; exact St.
Qed.

Lemma writes_emit ev : preserves (guarded steps_store writes) (emit ev).
Proof. apply guarded_on_world. intro w. now apply writes_same_store. Qed.

Lemma writes_Date_now env :
  preserves (guarded steps_store writes) (Date_now env).
Proof. apply guarded_Date_now. intro w. now apply writes_same_store. Qed.

Lemma writes_modify_app g :
  (forall a, messages (g a) = messages a) ->
  preserves (guarded steps_store writes) (modify_app g).
Proof.
  intros Hg. apply guarded_on_world. intro w.
  apply writes_same_store; [apply Hg | reflexivity].
Qed.

Lemma writes_setMessages u :
  steps_store u -> preserves (guarded steps_store writes) (setMessages u).
Proof. intro Hu. apply guarded_setMessages; [apply writes_refl | exact Hu]. Qed.

(** The updaters of the handlers append a message or update by id. *)
Ltac updater_steps :=
  intros ? ? ?; cbn [updater_fn];
  first [apply store_append | apply store_update; intro; reflexivity].

Ltac writes_steps :=
  guarded_steps writes_refl writes_trans writes_run;
  try match goal with
    | |- preserves _ (emit _) => apply writes_emit
    | |- preserves _ (Date_now _) => apply writes_Date_now
    | |- preserves _ (setMessages _) => apply writes_setMessages; updater_steps
    | |- preserves _ (modify_app _) =>
        apply writes_modify_app; intro; reflexivity
    end.

(** *** Every handler writes the store by appends and updates in place *)

Lemma writes_for_await env id cs fin :
  preserves (guarded steps_store writes) (for_await env id cs fin).
Proof.
  induction cs as [| c cs IH]; cbn [for_await].
  - writes_steps.
  - writes_steps. all: apply IH.
Qed.

Lemma writes_poll_loop env polls op :
  preserves (guarded steps_store writes) (poll_loop env polls op).
Proof.
  revert op. induction polls as [| r polls IH]; intro op; cbn [poll_loop].
  - writes_steps.
  - writes_steps. apply IH.
Qed.

Lemma writes_sendChatMessage env props prompt file :
  preserves (guarded steps_store writes) (sendChatMessage env props prompt file).
Proof.
  unfold sendChatMessage. writes_steps. apply writes_for_await.
Qed.

Lemma writes_generateVideo env prompt :
  preserves (guarded steps_store writes) (generateVideo env prompt).
Proof.
  unfold generateVideo. writes_steps.
  all: try apply writes_poll_loop.
Qed.

Lemma writes_handleSendMessage env props :
  preserves (guarded steps_store writes) (handleSendMessage env props).
Proof.
  unfold handleSendMessage. writes_steps.
  - apply writes_generateVideo.
  - apply writes_sendChatMessage.
Qed.

Lemma writes_step a : forall w, writes w (step a w).
Proof.
  intro w. unfold step.
  destruct a;
    match goal with
    | |- writes _ (world (snd (?c (start w)))) =>
        apply (guarded_from_idle steps_store writes c (start w));
        [| reflexivity]
    end.
  - unfold useEffect_init. writes_steps.
  - writes_steps.
  - unfold handleImageChange. writes_steps.
  - writes_steps.
  - writes_steps.
  - writes_steps.
  - writes_steps.
  - unfold onresult. writes_steps.
  - apply writes_handleSendMessage.
Qed.

Lemma writes_fold actions : forall w,
  writes w (fold_left (fun w a => step a w) actions w).
Proof.
  induction actions as [| a actions IH]; intro w; cbn [fold_left].
  - apply writes_refl.
  - eapply writes_trans; [apply writes_step | apply IH].
Qed.

Lemma writes_run_session actions :
  chain (messages initialState) (history (run actions)) /\
  messages (app (run actions)) = last (history (run actions)) (messages initialState).
Proof.
  destruct (writes_fold actions initialWorld) as (hs & H & C & L).
  unfold since_history in H. cbn in H. fold (run actions) in *.
  rewrite H. auto.
Qed.

Lemma store_step_ids s s' :
  store_step s s' ->
  exists added, map Message.id s' = (map Message.id s ++ map Message.id added)%list
                /\ List.length s' = (List.length s + List.length added)%nat.
Proof.
  intros [m | id f Hf].
  - exists [m]. unfold append. now rewrite map_app, length_app.
  - exists []. unfold updateById. cbn. rewrite app_nil_r, length_map, Nat.add_0_r.
    split; [| reflexivity]. rewrite map_map. apply map_ext. intro m.
    destruct (String.eqb (Message.id m) id); auto.
Qed.

Lemma store_step_length s s' : store_step s s' -> List.length s <= List.length s'.
Proof. intro H. destruct (store_step_ids _ _ H) as (a & _ & L). lia. Qed.

Lemma chain_consecutive s hs :
  chain s hs ->
  forall i a b,
    nth_error (s :: hs) i = Some a -> nth_error (s :: hs) (S i) = Some b ->
    store_step a b.
Proof.
  revert s. induction hs as [| h hs IH]; intros s C i a b Ha Hb.
  - destruct i; cbn in Hb; [discriminate | destruct i; discriminate].
  - destruct C as [S1 C]. destruct i as [| i].
    + cbn in Ha, Hb. now inversion Ha; inversion Hb; subst.
    + apply (IH h C i); assumption.
Qed.

Lemma chain_nonempty s hs :
  s <> [] -> chain s hs -> Forall (fun h => h <> []) hs /\ last hs s <> [].
Proof.
  revert s. induction hs as [| h hs IH]; intros s Hs C.
  - split; [constructor | assumption].
  - destruct C as [S1 C].
    assert (Hh : h <> []).
    { apply store_step_length in S1. destruct s; [congruence |].
      destruct h; [cbn in S1; lia | discriminate]. }
    destruct (IH h Hh C) as [F L]. split; [constructor; auto |].
    now rewrite last_cons.
Qed.

(** C8: in every session, each write of the Conversation Store appends one
    Message at the end or rewrites Messages in place by id; no write
    removes a Message: the ids of a store are a prefix of the ids of the
    next one, so the length of the store never decreases.  Every write is
    in the history, whose last entry is the current store. *)
Theorem C8_store_only_appends_and_updates (actions : list Action) :
  let stores := messages initialState :: history (run actions) in
  messages (app (run actions)) = last stores [] /\
  forall i s s',
    nth_error stores i = Some s -> nth_error stores (S i) = Some s' ->
    store_step s s' /\
    (exists added,
       map Message.id s' = (map Message.id s ++ map Message.id added)%list) /\
    List.length s <= List.length s'.
Proof.
  cbv zeta. destruct (writes_run_session actions) as [C L]. split.
  - rewrite last_cons. exact L.
  - intros i s s' Hs Hs'.
    pose proof (chain_consecutive _ _ C i s s' Hs Hs') as St.
    split; [exact St |]. split.
    + destruct (store_step_ids _ _ St) as (added & E & _). now exists added.
    + now apply store_step_length.
Qed.

(** C9: at startup the Conversation Store holds exactly one Message, the
    assistant greeting, which is not loading; the store is non-empty in
    every state a session reaches, including every store written while a
    submission is in flight. *)
Theorem C9_store_starts_with_greeting_and_stays_nonempty :
  messages (app (run [])) = [greeting] /\
  Message.sender greeting = ai /\
  Message.isLoading greeting = Some false /\
  forall actions,
    messages (app (run actions)) <> [] /\
    Forall (fun s => s <> []) (history (run actions)).
Proof.
  assert (N : messages initialState <> []) by (cbn; discriminate).
  repeat split; try reflexivity.
  - destruct (writes_run_session actions) as [C L]. rewrite L.
    apply (chain_nonempty _ _ N C).
  - destruct (writes_run_session actions) as [C L].
    apply (chain_nonempty _ _ N C).
Qed.
(** ** Strings *)

Lemma startsWith_iff s p :
  startsWith s p = true <-> exists rest, s = p ++ rest.
Proof.
  revert s. induction p as [| c p IH]; intro s.
  - cbn. split; [intros _; now exists s | reflexivity].
  - destruct s as [| d s]; cbn.
    + split; [discriminate | intros (r & H); discriminate].
    + destruct (Ascii.eqb_spec d c) as [-> | N]; cbn.
      * rewrite IH. split; intros (r & H); exists r; [now rewrite H | now inversion H].
      * split; [discriminate | intros (r & H); inversion H; congruence].
Qed.

Lemma toLowerCase_append a b :
  toLowerCase (a ++ b) = toLowerCase a ++ toLowerCase b.
Proof. induction a as [| c a IH]; cbn; [reflexivity | now rewrite IH]. Qed.

Lemma toLowerCase_length s : String.length (toLowerCase s) = String.length s.
Proof. induction s as [| c s IH]; cbn; [reflexivity | now rewrite IH]. Qed.

Lemma substring_append token r :
  substring (String.length token) (token ++ r) = r.
Proof. induction token as [| c t IH]; cbn; [now destruct r | exact IH]. Qed.

Lemma lowered_prefix_split p : forall t,
  startsWith (toLowerCase t) p = true ->
  exists token r, t = token ++ r /\ toLowerCase token = p.
Proof.
  induction p as [| c p IH]; intros t H.
  - exists "", t. split; reflexivity.
  - destruct t as [| d t]; cbn in H; [discriminate |].
    apply andb_true_iff in H. destruct H as [E H].
    apply Ascii.eqb_eq in E.
    destruct (IH t H) as (token & r & -> & L).
    exists (String d token), r. cbn. now rewrite L, E.
Qed.

Lemma video_command_iff userText :
  startsWith (toLowerCase userText) "/video " = true <->
  exists remainder, video_command userText remainder.
Proof.
  split.
  - intro H. destruct (lowered_prefix_split _ _ H) as (token & r & E & L).
    exists r, token. auto.
  - intros (r & token & -> & L). rewrite toLowerCase_append, L.
    apply startsWith_iff. now exists (toLowerCase r).
Qed.

Lemma video_command_remainder userText remainder :
  video_command userText remainder -> substring 7 userText = remainder.
Proof.
  intros (token & -> & L).
  assert (E : String.length token = 7)
    by (rewrite <- toLowerCase_length, L; reflexivity).
  rewrite <- E. apply substring_append.
Qed.

Lemma string_length_append a b :
  String.length (a ++ b) = (String.length a + String.length b)%nat.
Proof. induction a as [| c a IH]; cbn; [reflexivity | now rewrite IH]. Qed.

Lemma append_assoc (a b c : string) : (a ++ b) ++ c = a ++ (b ++ c).
Proof. induction a as [| x a IH]; cbn; [reflexivity | now rewrite IH]. Qed.

Lemma append_empty_r (a : string) : a ++ "" = a.
Proof. induction a as [| x a IH]; cbn; [reflexivity | now rewrite IH]. Qed.

Example trim_sample : trim "  /Video   a cat  " = "/Video   a cat".
Proof. reflexivity. Qed.

Example trim_blank : trim (String (ascii_of_nat 9) "  ") = "".
Proof. reflexivity. Qed.

Example toLowerCase_sample : toLowerCase "/VIDEO A Cat" = "/video a cat".
Proof. reflexivity. Qed.

Example substring_sample : substring 7 "/video a cat" = "a cat".
Proof. reflexivity. Qed.

Example includes_sample :
  includes "404: Requested entity was not found." "Requested entity was not found"
  = true.
Proof. reflexivity. Qed.

Example toString_sample : toString 1700000000001 = "1700000000001".
Proof. reflexivity. Qed.

(** ** The guard of the submission handler *)

Lemma guard_rejected a :
  rejected a ->
  isLoading a
  || (negb (truthy (trim (input a)))
      && match imageFile a with Some _ => false | None => true end) = true.
Proof.
  intros [H | [H1 H2]]; rewrite ?H, ?H1, ?H2; [reflexivity |].
  cbn. apply orb_true_r.
Qed.

Lemma guard_accepted a :
  accepted a ->
  isLoading a
  || (negb (truthy (trim (input a)))
      && match imageFile a with Some _ => false | None => true end) = false.
Proof.
  intros [H [H1 | H1]]; rewrite H; cbn.
  - destruct (trim (input a)); [congruence | reflexivity].
  - destruct (imageFile a); [apply andb_false_r | congruence].
Qed.

(** C3: a call of the submission handler while a submission is pending,
    or with an empty trimmed text and no staged attachment, does nothing:
    the world it leaves is the world it found, so the store keeps its
    length and no event, remote or other, is added to the trace. *)
Theorem C3_rejected_submission_is_noop (env : Env) (w : World) :
  rejected (app w) ->
  handleSendMessage env (app w) w = (Ok tt, (w : Frame)) /\
  step (SendMessage env) w = w /\
  List.length (messages (app (step (SendMessage env) w)))
    = List.length (messages (app w)) /\
  since_trace w (step (SendMessage env) w) [].
Proof.
  intro H.
  assert (E : handleSendMessage env (app w) w = (Ok tt, (w : Frame))).
  { unfold handleSendMessage, async. now rewrite (guard_rejected _ H). }
  unfold step, since_trace. rewrite E. cbn [snd start world].
  rewrite app_nil_r. auto.
Qed.

(** ** The submission handler, once the guard is passed *)

(** The protocol an accepted submission of the state [a] runs. *)
Lemma handleSendMessage_accepted env w :
  accepted (app w) ->
  handleSendMessage env (app w) w =
  async env
    ((if startsWith (toLowerCase (trim (input (app w)))) "/video "
      then generateVideo env (trim (substring 7 (trim (input (app w)))))
      else sendChatMessage env (app w) (trim (input (app w))) (imageFile (app w))) ;;
     setIsLoading false) (dispatch_frame env w).
Proof.
  intro H. unfold handleSendMessage, async. rewrite (guard_accepted _ H).
  reflexivity.
Qed.

Lemma rendered_queue env (f : Frame) : queue (rendered env f) = [].
Proof. reflexivity. Qed.

Lemma async_queue env {A} (c : M A) (f : Frame) : queue (snd (async env c f)) = [].
Proof. unfold async. destruct (c f). reflexivity. Qed.

Lemma rendered_settled env (f : Frame) : queue f = [] -> rendered env f = f.
Proof. destruct f as [w q a]. cbn. intros ->. reflexivity. Qed.

Lemma then_setIsLoading_queue (c : M unit) v (f : Frame) :
  queue (snd ((c ;; setIsLoading v) f)) = queue (snd (c f)).
Proof. unfold bind. destruct (c f) as [[[] | e |] f1]; reflexivity. Qed.

(** The world an accepted submission leaves: the world its protocol
    leaves, with the busy flag cleared if the protocol returned. *)
Lemma step_accepted env w :
  accepted (app w) ->
  step (SendMessage env) w =
  world (snd
    (((if startsWith (toLowerCase (trim (input (app w)))) "/video "
       then generateVideo env (trim (substring 7 (trim (input (app w)))))
       else sendChatMessage env (app w) (trim (input (app w))) (imageFile (app w))) ;;
      setIsLoading false) (dispatch_frame env w))).
Proof.
  intro H. unfold step. rewrite (handleSendMessage_accepted _ _ H).
  unfold async at 1.
  match goal with
  | |- context [let (_, _) := ?c ?f in _] =>
      assert (Q : queue (snd (c f)) = []);
      [| destruct (c f) as [r f1]; cbn [snd] in *;
         now rewrite (rendered_settled env f1 Q)]
  end.
  rewrite then_setIsLoading_queue.
  destruct (startsWith (toLowerCase (trim (input (app w)))) "/video ").
  - unfold generateVideo. apply async_queue.
  - unfold sendChatMessage. apply async_queue.
Qed.

Lemma accepted_returns_or_waits env w r (f : Frame) :
  handleSendMessage env (app w) w = (r, f) -> world f = step (SendMessage env) w.
Proof. intro H. unfold step. now rewrite H. Qed.

(** ** The polling loop *)



Lemma bind_emit {A} ev (k : M A) w q acc :
  (emit ev ;; k) {| world := w; queue := q; accumulatedText := acc |} =
  k {| world := add_events w [ev]; queue := q; accumulatedText := acc |}.
Proof. reflexivity. Qed.




(** ** What each protocol puts on the trace *)

Lemma emits_poll_loop (P : Event -> Prop) env polls : forall operation,
  (forall ms, P (Sleep ms)) -> (forall o, P (GetVideosOperation o)) ->
  preserves (guarded any_updater (emits P)) (poll_loop env polls operation).
Proof.
  induction polls as [| r polls IH]; intros operation HS HG;
    cbn [poll_loop]; emits_steps. now apply IH.
Qed.

Lemma emits_for_await (P : Event -> Prop) env id cs fin :
  preserves (guarded any_updater (emits P)) (for_await env id cs fin).
Proof.
  induction cs as [| c cs IH]; cbn [for_await].
  - emits_steps.
  - emits_steps. all: apply IH.
Qed.

(** The first event of an [async] function that starts by emitting one. *)
Lemma emit_then {A} (P : Event -> Prop) env ev (k : M A) :
  preserves (guarded any_updater (emits P)) k ->
  forall f : Frame, exists rest,
    since_trace f (snd (async env (emit ev ;; k) f)) (ev :: rest) /\
    Forall P rest.
Proof.
  intros Hk f.
  assert (Ha : preserves (guarded any_updater (emits P)) (async env k)).
  { emits_steps. exact Hk. }
  destruct (emits_from_idle P (async env k)
              {| world := add_events f [ev]; queue := queue f;
                 accumulatedText := accumulatedText f |} Ha)
    as (rest & H & F).
  exists rest. split; [| exact F].
  unfold since_trace in *.
  change (async env (emit ev;; k) f)
    with (async env k {| world := add_events f [ev]; queue := queue f;
                         accumulatedText := accumulatedText f |}).
  rewrite H. cbn. now rewrite <- app_assoc.
Qed.

Lemma generateVideo_trace env prompt (f : Frame) :
  exists rest,
    since_trace f (snd (generateVideo env prompt f))
      (CallGenerateVideo prompt :: rest) /\
    Forall (fun ev => is_chat_event ev = false /\ is_call ev = false) rest.
Proof.
  unfold generateVideo. apply emit_then. emits_steps.
  all: apply emits_poll_loop; cbn; auto.
Qed.

Lemma sendChatMessage_trace env props prompt file (f : Frame) :
  exists rest,
    since_trace f (snd (sendChatMessage env props prompt file f))
      (CallSendChatMessage prompt file :: rest) /\
    Forall (fun ev => is_video_event ev = false /\ is_call ev = false) rest.
Proof.
  unfold sendChatMessage. apply emit_then. emits_steps.
  apply emits_for_await.
Qed.

Lemma then_setIsLoading_trace (c : M unit) v (f : Frame) :
  trace (snd ((c ;; setIsLoading v) f)) = trace (snd (c f)).
Proof. unfold bind. destruct (c f) as [[[] | e |] f1]; reflexivity. Qed.

(** C2: an accepted submission whose trimmed text is the token [/video ],
    in any letter case, followed by a remainder invokes the Video Protocol
    once, with the remainder trimmed, and never the Chat Protocol; any
    other accepted submission invokes the Chat Protocol once, with the
    trimmed text and the staged attachment, and never the Video
    Protocol. *)
Theorem C2_dispatch_by_video_prefix (env : Env) (w : World) :
  accepted (app w) ->
  let userText := trim (input (app w)) in
  (forall remainder, video_command userText remainder ->
     exists rest,
       since_trace w (step (SendMessage env) w)
         (CallGenerateVideo (trim remainder) :: rest) /\
       Forall (fun ev => is_chat_event ev = false /\ is_call ev = false) rest) /\
  ((forall remainder, ~ video_command userText remainder) ->
     exists rest,
       since_trace w (step (SendMessage env) w)
         (CallSendChatMessage userText (imageFile (app w)) :: rest) /\
       Forall (fun ev => is_video_event ev = false /\ is_call ev = false) rest).
Proof.
  intros H userText. unfold since_trace.
  rewrite (step_accepted _ _ H), then_setIsLoading_trace.
  fold userText. split.
  - intros remainder V.
    assert (S : startsWith (toLowerCase userText) "/video " = true)
      by (apply video_command_iff; now exists remainder).
    rewrite S, (video_command_remainder _ _ V).
    apply (generateVideo_trace env (trim remainder) (dispatch_frame env w)).
  - intro N.
    destruct (startsWith (toLowerCase userText) "/video ") eqn:S.
    + apply video_command_iff in S. destruct S as (r & V). now destruct (N r).
    + apply (sendChatMessage_trace env (app w) userText (imageFile (app w))
               (dispatch_frame env w)).
Qed.

(** ** The streaming loop *)

Lemma updateById_streaming_twice id v v' s :
  updateById id (Message.with_streamingText v)
    (updateById id (Message.with_streamingText v') s)
  = updateById id (Message.with_streamingText v) s.
Proof.
  unfold updateById. rewrite map_map. apply map_ext. intro m.
  destruct (String.eqb (Message.id m) id) eqn:E.
  - cbn [Message.with_streamingText Message.id]. rewrite E. reflexivity.
  - rewrite E. reflexivity.
Qed.

(** *** Worlds built by successive writes *)

Lemma fold_write_store_history hs : forall w,
  history (fold_left write_store hs w) = (history w ++ hs)%list.
Proof.
  induction hs as [| h hs IH]; intro w; cbn [fold_left].
  - now rewrite app_nil_r.
  - rewrite IH. cbn. now rewrite <- app_assoc.
Qed.

Lemma fold_write_store_messages hs : forall w,
  messages (app (fold_left write_store hs w)) = last hs (messages (app w)).
Proof.
  induction hs as [| h hs IH]; intro w; cbn [fold_left]; [reflexivity |].
  rewrite IH, last_cons. reflexivity.
Qed.

(** The streaming texts overwrite one another: the stores written after
    some of them are the stores written from the start. *)
Lemma streamed_over id s t texts :
  streamed id (updateById id (Message.with_streamingText (Some t)) s) texts
  = streamed id s texts.
Proof.
  unfold streamed. apply map_ext. intro t'. apply updateById_streaming_twice.
Qed.

Lemma streamed_rebase id s l texts :
  streamed id (last (streamed id s l) s) texts = streamed id s texts.
Proof.
  destruct l as [| t l] using rev_ind; [reflexivity |].
  unfold streamed at 2. rewrite map_app, last_app_default. cbn [map last].
  apply streamed_over.
Qed.

(** React runs the updaters of the loop that wait: each writes the text
    accumulated by then. *)
Lemma run_streaming env id acc p : forall w,
  fold_left (run_updater env acc) (repeat (streamingUpdater id) p) w =
  fold_left write_store (streamed id (messages (app w)) (repeat acc p)) w.
Proof.
  induction p as [| p IH]; intro w; [reflexivity |].
  cbn [repeat fold_left streamed map]. rewrite IH.
  cbn [run_updater streamingUpdater write_store app messages].
  fold (streamed id (updateById id (Message.with_streamingText (Some acc))
                       (messages (app w))) (repeat acc p)).
  rewrite streamed_over. reflexivity.
Qed.

Lemma for_await_spec env id cs : forall fin w p acc,
  for_await env id cs fin
    {| world := w; queue := repeat (streamingUpdater id) p;
       accumulatedText := acc |} =
  (stream_result fin,
   idle (fold_left write_store
           (streamed id (messages (app w)) (written acc p cs)) w)
        (acc ++ joined cs)).
Proof.
  induction cs as [| c cs IH]; intros fin w p acc; cbn [for_await written].
  - unfold await, bind, render, rendered. cbn [world queue accumulatedText].
    rewrite run_streaming. cbn [joined fold_right]. rewrite append_empty_r.
    destruct fin; reflexivity.
  - cbn [joined fold_right]. fold (joined cs). rewrite <- append_assoc.
    destruct (same_task c).
    + change ((ret tt;;
               add_accumulatedText (chunk_text c);;
               setMessages (ReadsAccumulatedText (fun accumulatedText =>
                 updateById id (Message.with_streamingText (Some accumulatedText))));;
               for_await env id cs fin)
                {| world := w; queue := repeat (streamingUpdater id) p;
                   accumulatedText := acc |})
        with (for_await env id cs fin
                {| world := w;
                   queue := (repeat (streamingUpdater id) p
                             ++ [streamingUpdater id])%list;
                   accumulatedText := acc ++ chunk_text c |}).
      rewrite <- repeat_cons.
      change (streamingUpdater id :: repeat (streamingUpdater id) p)
        with (repeat (streamingUpdater id) (S p)).
      apply IH.
    + change ((render env;;
               add_accumulatedText (chunk_text c);;
               setMessages (ReadsAccumulatedText (fun accumulatedText =>
                 updateById id (Message.with_streamingText (Some accumulatedText))));;
               for_await env id cs fin)
                {| world := w; queue := repeat (streamingUpdater id) p;
                   accumulatedText := acc |})
        with (for_await env id cs fin
                {| world := fold_left (run_updater env acc)
                              (repeat (streamingUpdater id) p) w;
                   queue := repeat (streamingUpdater id) 1;
                   accumulatedText := acc ++ chunk_text c |}).
      rewrite IH, run_streaming. f_equal. f_equal.
      rewrite fold_write_store_messages, streamed_rebase.
      unfold streamed at 3. rewrite map_app, fold_left_app. reflexivity.
Qed.

Lemma bind_for_await env id cs fin {B} (k : unit -> M B) w acc :
  (x <- for_await env id cs fin ;; k x)
    {| world := w; queue := []; accumulatedText := acc |} =
  let f' := idle (fold_left write_store
                    (streamed id (messages (app w)) (written acc 0 cs)) w)
                 (acc ++ joined cs) in
  match stream_result fin with
  | Ok a => k a f'
  | Raise e => (Raise e, f')
  | Blocked => (Blocked, f')
  end.
Proof.
  unfold bind.
  change {| world := w; queue := []; accumulatedText := acc |}
    with {| world := w; queue := repeat (streamingUpdater id) 0;
            accumulatedText := acc |}.
  rewrite for_await_spec. reflexivity.
Qed.

(** *** The texts written, by the number of chunks received *)

Lemma joined_cons c cs : joined (c :: cs) = chunk_text c ++ joined cs.
Proof. reflexivity. Qed.

Lemma seen_cons c cs k : seen (c :: cs) (S k) = S (seen cs k).
Proof. reflexivity. Qed.

Lemma written_seen cs : forall acc p,
  written acc p cs =
  (repeat (acc ++ joined (firstn (burst cs) cs))%string p ++
   map (fun k => (acc ++ joined (firstn (seen cs k) cs))%string)
       (seq 0 (List.length cs)))%list.
Proof.
  induction cs as [| c cs IH]; intros acc p; cbn [written burst].
  - cbn. now rewrite append_empty_r, app_nil_r.
  - cbn [List.length seq map]. rewrite <- seq_shift, map_map.
    assert (T : map (fun k => acc ++ joined (firstn (seen (c :: cs) (S k)) (c :: cs)))
                  (seq 0 (List.length cs))
                = map (fun k => (acc ++ chunk_text c) ++ joined (firstn (seen cs k) cs))
                    (seq 0 (List.length cs))).
    { apply map_ext. intro k. rewrite seen_cons. cbn [firstn].
      now rewrite joined_cons, append_assoc. }
    rewrite T. clear T.
    assert (H0 : acc ++ joined (firstn (seen (c :: cs) 0) (c :: cs))
                 = (acc ++ chunk_text c) ++ joined (firstn (burst cs) cs)).
    { unfold seen. cbn [skipn Nat.add firstn].
      now rewrite joined_cons, append_assoc. }
    rewrite H0. clear H0.
    destruct (same_task c).
    + rewrite IH. cbn [firstn]. rewrite joined_cons, <- append_assoc.
      cbn [repeat]. rewrite repeat_cons, <- app_assoc. reflexivity.
    + rewrite IH. cbn [firstn joined fold_right repeat Datatypes.app].
      now rewrite append_empty_r.
Qed.

Lemma written_from_start cs :
  written "" 0 cs =
  map (fun k => joined (firstn (seen cs k) cs)) (seq 0 (List.length cs)).
Proof. rewrite written_seen. reflexivity. Qed.

Lemma written_length cs : List.length (written "" 0 cs) = List.length cs.
Proof. now rewrite written_from_start, length_map, length_seq. Qed.

Lemma nth_error_seq_Some a n k j : nth_error (seq a n) k = Some j -> j = (a + k)%nat.
Proof.
  revert a k. induction n as [| n IH]; intros a k H.
  - destruct k; discriminate.
  - destruct k as [| k]; cbn in H.
    + inversion H. lia.
    + apply IH in H. lia.
Qed.

Lemma written_nth cs k t :
  nth_error (written "" 0 cs) k = Some t -> t = joined (firstn (seen cs k) cs).
Proof.
  rewrite written_from_start, nth_error_map.
  destruct (nth_error (seq 0 (List.length cs)) k) as [j |] eqn:E; [| discriminate].
  apply nth_error_seq_Some in E. subst j. cbn. now inversion 1.
Qed.

Lemma written_last cs :
  last (written "" 0 cs) "" = joined cs.
Proof.
  destruct cs as [| c cs] using rev_ind; [reflexivity |].
  rewrite written_from_start, length_app. cbn [List.length].
  rewrite Nat.add_1_r, seq_S, map_app, last_app_default. cbn [map last].
  unfold seen. rewrite firstn_all2; [reflexivity |].
  rewrite length_app. cbn. lia.
Qed.

(** What [seen] counts. *)
Lemma burst_le cs : burst cs <= List.length cs.
Proof.
  induction cs as [| c cs IH]; [cbn; lia |]. cbn.
  destruct (same_task c); lia.
Qed.

Lemma seen_bounds cs k :
  k < List.length cs -> k < seen cs k <= List.length cs.
Proof.
  intro H. unfold seen. pose proof (burst_le (skipn (S k) cs)) as B.
  rewrite length_skipn in B. lia.
Qed.

Lemma seen_monotone cs k : seen cs k <= seen cs (S k).
Proof.
  revert k. induction cs as [| c cs IH]; intro k.
  - unfold seen. cbn. lia.
  - destruct k as [| k].
    + unfold seen. cbn [skipn Nat.add].
      destruct cs as [| d cs]; [cbn; lia |]. cbn [burst skipn].
      destruct (same_task d); lia.
    + rewrite !seen_cons. specialize (IH k). lia.
Qed.

Lemma seen_alone cs k :
  match nth_error cs (S k) with
  | Some c => same_task c = false
  | None => True
  end -> seen cs k = S k.
Proof.
  revert k. induction cs as [| c cs IH]; intros k H.
  - unfold seen. cbn. lia.
  - destruct k as [| k].
    + unfold seen. cbn [skipn Nat.add]. cbn [nth_error] in H.
      destruct cs as [| d cs]; [reflexivity |]. cbn in *. now rewrite H.
    + rewrite seen_cons. f_equal. apply IH. exact H.
Qed.

Lemma joined_firstn_le cs a b :
  a <= b ->
  String.length (joined (firstn a cs)) <= String.length (joined (firstn b cs)).
Proof.
  revert a b. induction cs as [| c cs IH]; intros a b H.
  - rewrite !firstn_nil. lia.
  - destruct a as [| a]; [cbn; lia |].
    destruct b as [| b]; [lia |]. cbn [firstn].
    rewrite !joined_cons, !string_length_append.
    specialize (IH a b). lia.
Qed.

(** ** The Chat Protocol *)

Lemma userMessage_opened env w :
  opens_exchange (app w) = true ->
  userMessage env w =
  {| Message.id := toString (dateNow env (S (ndate w)));
     Message.text := trim (input (app w));
     Message.sender := user;
     Message.imagePreview := imagePreview (app w);
     Message.videoUrl := None; Message.isLoading := None;
     Message.streamingText := None; Message.isError := None |}.
Proof. intro H. unfold userMessage, userReading. now rewrite H. Qed.

Lemma userMessage_unopened env w :
  opens_exchange (app w) = false ->
  userMessage env w =
  {| Message.id := toString (dateNow env (ndate w));
     Message.text := trim (input (app w));
     Message.sender := user;
     Message.imagePreview := imagePreview (app w);
     Message.videoUrl := None; Message.isLoading := None;
     Message.streamingText := None; Message.isError := None |}.
Proof. intro H. unfold userMessage, userReading. now rewrite H. Qed.

Lemma opens_exchange_chat a c : chat a = Some c -> opens_exchange a = true.
Proof. intro H. unfold opens_exchange. rewrite H. apply orb_true_r. Qed.

Lemma opens_exchange_video a :
  startsWith (toLowerCase (trim (input a))) "/video " = true ->
  opens_exchange a = true.
Proof. intro H. unfold opens_exchange. now rewrite H. Qed.

(** The Chat Protocol of an accepted submission, with a chat session and
    a stream that is opened. *)
Lemma sendChatMessage_stream env w c stream :
  chat (app w) = Some c -> sendMessageStream env = Returns stream ->
  let w4 := streaming_world env w (chunks stream) in
  sendChatMessage env (app w) (trim (input (app w))) (imageFile (app w))
    (dispatch_frame env w) =
  match ending stream with
  | Exhausted =>
      (Ok tt,
       idle (write_store w4
               (updateById (assistantId env w)
                  (chat_completed (joined (chunks stream)))
                  (messages (app w4))))
            (joined (chunks stream)))
  | StreamThrows e =>
      (Ok tt,
       idle (write_store (add_events w4 [ConsoleError e])
               (updateById (assistantId env w) (chat_failed e)
                  (messages (app w4))))
            (joined (chunks stream)))
  | StreamStalls => (Blocked, idle w4 (joined (chunks stream)))
  end.
Proof.
  intros Hc Hs. cbv zeta. unfold streaming_world, opened_store.
  rewrite (userMessage_opened env w (opens_exchange_chat _ _ Hc)).
  unfold sendChatMessage, async. rewrite Hc.
  unfold dispatch_frame, try_catch, await. rewrite Hs.
  cbn [bind emit on_world Date_now setMessages render reply rendered
       let_accumulatedText world queue accumulatedText fst snd
       Datatypes.app fold_left run_updater userUpdater].
  rewrite bind_for_await.
  destruct (ending stream); reflexivity.
Qed.

(** *** Messages at a position *)

Lemma nth_error_updateById id f s p m :
  nth_error s p = Some m -> Message.id m = id ->
  nth_error (updateById id f s) p = Some (f m).
Proof.
  intros H E. unfold updateById. rewrite nth_error_map, H. cbn.
  now rewrite E, String.eqb_refl.
Qed.

Lemma nth_error_append_last m s :
  nth_error (append m s) (List.length s) = Some m.
Proof.
  unfold append. rewrite nth_error_app2 by lia. now rewrite Nat.sub_diag.
Qed.

Lemma nth_error_append_before m s i x :
  nth_error s i = Some x -> nth_error (append m s) i = Some x.
Proof.
  intro H. unfold append. rewrite nth_error_app1; [exact H |].
  apply nth_error_Some. congruence.
Qed.

Lemma length_append m s : List.length (append m s) = S (List.length s).
Proof. unfold append. rewrite length_app. cbn. lia. Qed.

(** *** The stores written while streaming *)

Lemma streamed_length id s0 texts :
  List.length (streamed id s0 texts) = List.length texts.
Proof. unfold streamed. now rewrite length_map. Qed.

Lemma streamed_nth id s0 texts k s :
  nth_error (streamed id s0 texts) k = Some s ->
  exists t, nth_error texts k = Some t /\
            s = updateById id (Message.with_streamingText (Some t)) s0.
Proof.
  unfold streamed. rewrite nth_error_map.
  destruct (nth_error texts k) as [t |]; [| discriminate].
  cbn. intro H. inversion H. now exists t.
Qed.

Lemma streamed_last id s0 texts :
  last (streamed id s0 texts) s0 =
  match texts with
  | [] => s0
  | _ => updateById id (Message.with_streamingText (Some (last texts ""))) s0
  end.
Proof.
  destruct texts as [| t texts] using rev_ind; [reflexivity |].
  unfold streamed. rewrite map_app, !last_app_default. cbn [map last].
  destruct (texts ++ [t])%list eqn:E; [| reflexivity].
  now destruct texts.
Qed.

Lemma opened_store_user env w :
  nth_error (opened_store env w) (List.length (messages (app w)))
  = Some (userMessage env w).
Proof.
  unfold opened_store. apply nth_error_append_before, nth_error_append_last.
Qed.

Lemma opened_store_assistant env w :
  nth_error (opened_store env w) (S (List.length (messages (app w))))
  = Some (assistantDraft (assistantId env w)).
Proof.
  unfold opened_store.
  rewrite <- (length_append (userMessage env w) (messages (app w))).
  apply nth_error_append_last.
Qed.

Lemma streaming_world_history env w cs :
  history (streaming_world env w cs) =
  (history w ++
     append (userMessage env w) (messages (app w)) ::
     opened_store env w ::
     streamed (assistantId env w) (opened_store env w) (written "" 0 cs))%list.
Proof.
  unfold streaming_world. rewrite fold_write_store_history. cbn.
  now rewrite <- !app_assoc.
Qed.

Lemma streaming_world_messages env w cs :
  messages (app (streaming_world env w cs)) =
  last (streamed (assistantId env w) (opened_store env w) (written "" 0 cs))
       (opened_store env w).
Proof.
  unfold streaming_world. now rewrite fold_write_store_messages.
Qed.

(** The assistant Message in the store of [streaming_world]: the draft,
    with the text accumulated so far as its [streamingText]. *)
Lemma streaming_world_assistant env w cs :
  nth_error (messages (app (streaming_world env w cs)))
    (S (List.length (messages (app w))))
  = Some (Message.with_streamingText (Some (joined cs))
            (assistantDraft (assistantId env w))).
Proof.
  rewrite streaming_world_messages, streamed_last.
  pose proof (written_last cs) as L.
  pose proof (written_length cs) as N.
  destruct (written "" 0 cs) as [| t texts].
  - destruct cs; [| discriminate]. apply opened_store_assistant.
  - rewrite L.
    apply nth_error_updateById; [apply opened_store_assistant | reflexivity].
Qed.

(** The world an accepted chat submission leaves, with a chat session
    and a stream that is opened. *)
Lemma chat_step env w c stream :
  accepted (app w) ->
  startsWith (toLowerCase (trim (input (app w)))) "/video " = false ->
  chat (app w) = Some c -> sendMessageStream env = Returns stream ->
  let w4 := streaming_world env w (chunks stream) in
  step (SendMessage env) w =
  match ending stream with
  | Exhausted =>
      world (snd (setIsLoading false
        (idle (write_store w4
                 (updateById (assistantId env w)
                    (chat_completed (joined (chunks stream)))
                    (messages (app w4))))
              (joined (chunks stream)))))
  | StreamThrows e =>
      world (snd (setIsLoading false
        (idle (write_store (add_events w4 [ConsoleError e])
                 (updateById (assistantId env w) (chat_failed e)
                    (messages (app w4))))
              (joined (chunks stream)))))
  | StreamStalls => w4
  end.
Proof.
  intros Ha Hv Hc Hs. cbv zeta.
  rewrite (step_accepted _ _ Ha), Hv. unfold bind.
  rewrite (sendChatMessage_stream env w c stream Hc Hs). cbv zeta.
  destruct (ending stream); reflexivity.
Qed.

(** C1: in an accepted chat submission whose stream is opened, every chunk
    that arrives makes one write of the store.  In the store written for
    chunk [k] the assistant Message's streamingText is the concatenation,
    in arrival order, of the chunks received by the time React computes
    that store: the chunks up to [k] and those delivered after it in the
    same task, which are the chunks up to [k] alone when the next chunk
    comes in a later task.  The length of streamingText never decreases
    from one write to the next.  When the stream is exhausted, one more
    write sets the Message's text to the whole concatenation, clears
    streamingText and clears isLoading. *)
Theorem C1_streaming_text_accumulates
  (env : Env) (w : World) (c : Chat) (stream : ChatStream) :
  accepted (app w) ->
  startsWith (toLowerCase (trim (input (app w)))) "/video " = false ->
  chat (app w) = Some c ->
  sendMessageStream env = Returns stream ->
  let n := List.length (messages (app w)) in
  let cs := chunks stream in
  let w' := step (SendMessage env) w in
  exists opening streaming closing,
    since_history w w' (opening ++ streaming ++ closing) /\
    List.length opening = 2 /\
    (exists m, nth_error (last opening []) (S n) = Some m /\
               Message.sender m = ai /\ Message.isLoading m = Some true /\
               Message.streamingText m = Some "") /\
    List.length streaming = List.length cs /\
    (forall k s, nth_error streaming k = Some s ->
       exists m, nth_error s (S n) = Some m /\ Message.sender m = ai /\
                 Message.streamingText m
                 = Some (joined (firstn (seen cs k) cs))) /\
    (forall k, k < List.length cs -> k < seen cs k <= List.length cs) /\
    (forall k, match nth_error cs (S k) with
               | Some next => same_task next = false
               | None => True
               end -> seen cs k = S k) /\
    (forall k, String.length (joined (firstn (seen cs k) cs))
               <= String.length (joined (firstn (seen cs (S k)) cs))) /\
    (ending stream = Exhausted ->
       closing = [messages (app w')] /\
       exists m, messageAt (S n) w' = Some m /\ Message.sender m = ai /\
                 Message.text m = joined cs /\
                 Message.streamingText m = None /\
                 Message.isLoading m = Some false).
Proof.
  intros Ha Hv Hc Hs n cs w'.
  set (aiId := assistantId env w).
  set (w4 := streaming_world env w cs).
  pose proof (chat_step env w c stream Ha Hv Hc Hs) as E.
  cbv zeta in E. fold cs w4 aiId w' in E.
  assert (Hclosing : exists closing,
    since_history w4 w' closing /\
    (ending stream = Exhausted ->
       closing = [messages (app w')] /\
       exists m, messageAt (S n) w' = Some m /\ Message.sender m = ai /\
                 Message.text m = joined cs /\
                 Message.streamingText m = None /\
                 Message.isLoading m = Some false)).
  { rewrite E. destruct (ending stream) as [| e |].
    - eexists. split; [reflexivity |]. intros _. split; [reflexivity |].
      unfold messageAt.
      cbn [snd setIsLoading modify_app on_world idle world app messages
           write_store].
      eexists. split.
      + apply nth_error_updateById;
          [apply streaming_world_assistant | reflexivity].
      + split; [| split; [| split]]; reflexivity.
    - eexists. split; [reflexivity | discriminate].
    - exists []. split; [unfold since_history; now rewrite app_nil_r
                        | discriminate]. }
  destruct Hclosing as (closing & Hh & Hfin).
  exists [append (userMessage env w) (messages (app w)); opened_store env w],
         (streamed aiId (opened_store env w) (written "" 0 cs)), closing.
  split; [| split; [reflexivity |
            split; [| split; [| split; [| split; [| split; [| split]]]]]]].
  - unfold since_history in *. rewrite Hh. unfold w4.
    rewrite streaming_world_history. fold aiId.
    now rewrite <- !app_assoc.
  - cbn [last]. exists (assistantDraft aiId).
    split; [apply opened_store_assistant |]. repeat split.
  - now rewrite streamed_length, written_length.
  - intros k s Hk. apply streamed_nth in Hk. destruct Hk as (t & Ht & ->).
    apply written_nth in Ht. subst t.
    eexists. split.
    + apply nth_error_updateById;
        [apply opened_store_assistant | reflexivity].
    + split; reflexivity.
  - intro k. apply seen_bounds.
  - intro k. apply seen_alone.
  - intro k. apply joined_firstn_le, seen_monotone.
  - exact Hfin.
Qed.

(** ** The failure paths of the Chat Protocol *)

(** The assistant Message an accepted chat submission leaves, with a chat
    session and a stream that is opened. *)
Lemma chat_final_message
  (env : Env) (w : World) (c : Chat) (stream : ChatStream) :
  accepted (app w) ->
  startsWith (toLowerCase (trim (input (app w)))) "/video " = false ->
  chat (app w) = Some c ->
  sendMessageStream env = Returns stream ->
  let draft :=
    Message.with_streamingText (Some (joined (chunks stream)))
      (assistantDraft (assistantId env (dispatch_world env w))) in
  messageAt (S (List.length (messages (app w)))) (step (SendMessage env) w) =
  Some match ending stream with
       | Exhausted => chat_completed (joined (chunks stream)) draft
       | StreamThrows e => chat_failed e draft
       | StreamStalls => draft
       end.
Proof.
  intros Ha Hv Hc Hs draft.
  rewrite (chat_step env w c stream Ha Hv Hc Hs). cbv zeta.
  unfold messageAt.
  destruct (ending stream);
    cbn [snd setIsLoading modify_app on_world idle world app messages
         write_store add_events].
  - apply nth_error_updateById;
      [apply streaming_world_assistant | reflexivity].
  - apply nth_error_updateById;
      [apply streaming_world_assistant | reflexivity].
  - apply streaming_world_assistant.
Qed.

(** What the catch block of the Chat Protocol leaves: the error text, the
    failed flag, no loading flag, and the streamingText as it was. *)
Lemma chat_failure_keeps_streamingText
  (env : Env) (w : World) (c : Chat) (stream : ChatStream) (e : Thrown) :
  accepted (app w) ->
  startsWith (toLowerCase (trim (input (app w)))) "/video " = false ->
  chat (app w) = Some c ->
  sendMessageStream env = Returns stream ->
  ending stream = StreamThrows e ->
  exists m,
    messageAt (S (List.length (messages (app w)))) (step (SendMessage env) w)
      = Some m /\
    Message.text m = "Sorry, I ran into an error: " ++ chatErrorMessage e /\
    Message.isError m = Some true /\
    Message.isLoading m = Some false /\
    Message.streamingText m = Some (joined (chunks stream)).
Proof.
  intros Ha Hv Hc Hs He.
  pose proof (chat_final_message env w c stream Ha Hv Hc Hs) as H.
  cbv zeta in H. rewrite He in H.
  eexists. split; [exact H |]. repeat split.
Qed.

(** C4: the chat stream delivers [Hel] and then throws an Error whose
    message is [boom].  The assistant Message ends with the error text,
    failed and not loading, and its streamingText is still [Hel]: the
    catch block does not clear it. *)
Theorem C4_failed_stream_keeps_partial_text :
  messageAt 2 (step (SendMessage brokenStreamEnv) (readyWorld "Hi")) =
  Some {| Message.id := "1700000000001";
          Message.text := "Sorry, I ran into an error: boom";
          Message.sender := ai;
          Message.imagePreview := None;
          Message.videoUrl := None;
          Message.isLoading := Some false;
          Message.streamingText := Some "Hel";
          Message.isError := Some true |}.
Proof. vm_compute. reflexivity. Qed.

(** C5 as stated fails: with no chat session, submitting
    [Hello] leaves a store that holds the greeting and the user Message
    only, and no failed assistant Message. *)
Lemma C5_counterexample :
  let w' := step (SendMessage helloEnv) (uninitialisedWorld "Hello") in
  chat (app (uninitialisedWorld "Hello")) = None /\
  List.length (messages (app w')) = 2 /\
  ~ exists m, In m (messages (app w')) /\
              Message.sender m = ai /\ Message.isError m = Some true.
Proof.
  vm_compute. split; [reflexivity |]. split; [reflexivity |].
  intros (m & [E | [E | []]] & _ & H); subst m; discriminate.
Qed.

Lemma opens_exchange_neither a :
  startsWith (toLowerCase (trim (input a))) "/video " = false ->
  chat a = None -> opens_exchange a = false.
Proof. intros H1 H2. unfold opens_exchange. now rewrite H1, H2. Qed.

(** C5, amended: when the chat session handle does not exist, an accepted
    chat submission ends at once, with no remote interaction; it appends
    the user Message and nothing else to the store, records the
    initialization error in the error state, and leaves the handler not
    busy. *)
Theorem C5_uninitialised_chat_sets_error_state (env : Env) (w : World) :
  accepted (app w) ->
  startsWith (toLowerCase (trim (input (app w)))) "/video " = false ->
  chat (app w) = None ->
  let w' := step (SendMessage env) w in
  handleSendMessage env (app w) w = (Ok tt, (w' : Frame)) /\
  messages (app w') = append (userMessage env w) (messages (app w)) /\
  since_history w w' [messages (app w')] /\
  error (app w') = Some "Chat session is not initialized." /\
  isLoading (app w') = false /\
  since_trace w w'
    [CallSendChatMessage (trim (input (app w))) (imageFile (app w))].
Proof.
  intros Ha Hv Hc w'. unfold w', step.
  rewrite (userMessage_unopened env w (opens_exchange_neither _ Hv Hc)).
  rewrite (handleSendMessage_accepted _ _ Ha), Hv.
  unfold sendChatMessage. rewrite Hc.
  cbn. repeat split.
Qed.

(** ** The Video Protocol *)

Lemma generateVideo_unfold env prompt (f : Frame) :
  generateVideo env prompt f =
  async env
    (try_catch
       (keySelection env (assistantId env f) ;;
        videoJob env (assistantId env f) prompt)
       (videoFailure (assistantId env f)))
    (drafted_frame env f prompt).
Proof. reflexivity. Qed.

Lemma rendered_trace env (f : Frame) : trace (rendered env f) = trace f.
Proof.
  destruct f as [w q acc]. cbn. revert w.
  induction q as [| u q IH]; intro w; [reflexivity |].
  cbn [fold_left]. now rewrite IH, run_updater_trace.
Qed.




Lemma filter_none {A} (f : A -> bool) l :
  Forall (fun x => f x = false) l -> filter f l = [].
Proof.
  induction 1 as [| x l Hx _ IH]; [reflexivity |]. cbn. now rewrite Hx.
Qed.


Lemma since_trace_trans w1 w2 w3 evs evs' :
  since_trace w1 w2 evs -> since_trace w2 w3 evs' ->
  since_trace w1 w3 (evs ++ evs').
Proof. unfold since_trace. intros -> ->. now rewrite app_assoc. Qed.








(** *** When the Video Protocol fails *)

Lemma keeps_refl (I : Frame -> Prop) f : keeps I f f.
Proof. intro H. exact H. Qed.

Lemma keeps_trans (I : Frame -> Prop) f1 f2 f3 :
  keeps I f1 f2 -> keeps I f2 f3 -> keeps I f1 f3.
Proof. unfold keeps. auto. Qed.



Lemma assistant_at_Date_now n id env :
  preserves (keeps (assistant_at n id)) (Date_now env).
Proof. intros f H. exact H. Qed.






Lemma keySelection_emits env id :
  preserves (guarded any_updater
               (emits (fun ev => is_poll ev = false /\ is_console_error ev = false)))
    (keySelection env id).
Proof. unfold keySelection. emits_steps. Qed.





(** *** The key selection *)






(** Without an answer to the generation request there is no poll at all. *)
Lemma no_poll_without_response env prompt (w : World) :
  (forall operation, generateVideos env <> Returns operation) ->
  exists evs,
    since_trace w (snd (generateVideo env prompt w)) evs /\
    Forall (fun ev => is_poll ev = false) evs.
Proof.
  intro Hno. rewrite generateVideo_unfold.
  set (id := assistantId env (start w)).
  set (f1 := drafted_frame env (start w) prompt).
  assert (T1 : trace f1 = (trace w ++ [CallGenerateVideo prompt])%list)
    by reflexivity.
  destruct (emits_from_idle _ _ f1 (keySelection_emits env id))
    as (evk & Tk & Fk).
  assert (Fk' : Forall (fun ev => is_poll ev = false) evk)
    by (eapply Forall_impl; [| exact Fk]; cbn; tauto).
  unfold since_trace in *. unfold async, try_catch. unfold bind at 1.
  destruct (keySelection env id f1) as [[[] | e |] fk]; cbn [snd] in *.
  - unfold videoJob. unfold bind at 1. cbn [setMessages]. unfold bind at 1.
    cbn [emit on_world]. unfold bind at 1, await at 1. unfold bind at 1.
    cbn [render].
    destruct (generateVideos env) as [operation | e |] eqn:E; cbn [reply].
    + destruct (Hno operation). reflexivity.
    + exists (CallGenerateVideo prompt
              :: evk ++ [GenerateVideos prompt; ConsoleError e])%list.
      split.
      * cbn [snd videoFailure bind console_error emit on_world setMessages
             world].
        rewrite rendered_trace. cbn [world trace add_events].
        rewrite rendered_trace. cbn [world trace add_events].
        rewrite Tk, T1. now rewrite <- !app_assoc.
      * constructor; [reflexivity |]. apply Forall_app.
        split; [exact Fk' | repeat constructor].
    + exists (CallGenerateVideo prompt :: evk ++ [GenerateVideos prompt])%list.
      split.
      * cbn [snd world]. rewrite rendered_trace. cbn [world].
        rewrite rendered_trace. cbn [world trace add_events].
        rewrite Tk, T1. now rewrite <- !app_assoc.
      * constructor; [reflexivity |]. apply Forall_app.
        split; [exact Fk' | repeat constructor].
  - exists (CallGenerateVideo prompt :: evk ++ [ConsoleError e])%list. split.
    + cbn [snd videoFailure bind console_error emit on_world setMessages
           world].
      rewrite rendered_trace. cbn [world trace add_events].
      rewrite Tk, T1. now rewrite <- !app_assoc.
    + constructor; [reflexivity |]. apply Forall_app.
      split; [exact Fk' | repeat constructor].
  - exists (CallGenerateVideo prompt :: evk)%list. split.
    + cbn [snd world]. rewrite rendered_trace, Tk, T1.
      now rewrite <- !app_assoc.
    + constructor; [reflexivity | exact Fk'].
Qed.

(** ** The hypotheses are met by sample sessions *)

Lemma C1_witness :
  let w := readyWorld "Hello" in
  let w' := step (SendMessage helloEnv) w in
  accepted (app w) /\
  startsWith (toLowerCase (trim (input (app w)))) "/video " = false /\
  chat (app w) = Some sampleChat /\
  sendMessageStream helloEnv = Returns (streamOf ["Hel"; "lo"] Exhausted) /\
  exists opening streaming closing,
    since_history w w' (opening ++ streaming ++ closing) /\
    List.length streaming = 2 /\
    closing = [messages (app w')].
Proof.
  cbv zeta.
  assert (H1 : accepted (app (readyWorld "Hello")))
    by (split; [reflexivity | left; vm_compute; discriminate]).
  assert (H2 : startsWith (toLowerCase (trim (input (app (readyWorld "Hello")))))
                 "/video " = false) by reflexivity.
  assert (H3 : chat (app (readyWorld "Hello")) = Some sampleChat) by reflexivity.
  assert (H4 : sendMessageStream helloEnv
               = Returns (streamOf ["Hel"; "lo"] Exhausted)) by reflexivity.
  split; [exact H1 |]. split; [exact H2 |]. split; [exact H3 |].
  split; [exact H4 |].
  destruct (C1_streaming_text_accumulates helloEnv (readyWorld "Hello")
              sampleChat (streamOf ["Hel"; "lo"] Exhausted) H1 H2 H3 H4)
    as (opening & streaming & closing & Hh & _ & _ & Hl & _ & _ & _ & _ & Hf).
  exists opening, streaming, closing.
  split; [exact Hh |]. split; [exact Hl |]. apply Hf. reflexivity.
Defined.

Lemma C2_witness :
  let w := readyWorld " /Video  a cat " in
  accepted (app w) /\
  video_command (trim (input (app w))) " a cat" /\
  exists rest,
    since_trace w (step (SendMessage videoEnv) w)
      (CallGenerateVideo "a cat" :: rest).
Proof.
  cbv zeta.
  assert (H : accepted (app (readyWorld " /Video  a cat ")))
    by (split; [reflexivity | left; vm_compute; discriminate]).
  assert (V : video_command
                (trim (input (app (readyWorld " /Video  a cat ")))) " a cat")
    by (exists "/Video "; split; reflexivity).
  split; [exact H |]. split; [exact V |].
  destruct (proj1 (C2_dispatch_by_video_prefix videoEnv
                     (readyWorld " /Video  a cat ") H) " a cat" V)
    as (rest & T & _).
  exists rest. exact T.
Defined.

Lemma C3_witness :
  rejected (app (busyWorld "Hello")) /\
  step (SendMessage helloEnv) (busyWorld "Hello") = busyWorld "Hello".
Proof.
  assert (H : rejected (app (busyWorld "Hello"))) by (left; reflexivity).
  split; [exact H |].
  exact (proj1 (proj2 (C3_rejected_submission_is_noop helloEnv
                         (busyWorld "Hello") H))).
Defined.

Lemma C5_witness :
  let w := uninitialisedWorld "Hello" in
  let w' := step (SendMessage helloEnv) w in
  accepted (app w) /\
  startsWith (toLowerCase (trim (input (app w)))) "/video " = false /\
  chat (app w) = None /\
  error (app w') = Some "Chat session is not initialized." /\
  since_trace w w' [CallSendChatMessage "Hello" None].
Proof.
  cbv zeta.
  assert (H1 : accepted (app (uninitialisedWorld "Hello")))
    by (split; [reflexivity | left; vm_compute; discriminate]).
  assert (H2 : startsWith
                 (toLowerCase (trim (input (app (uninitialisedWorld "Hello")))))
                 "/video " = false) by reflexivity.
  assert (H3 : chat (app (uninitialisedWorld "Hello")) = None) by reflexivity.
  split; [exact H1 |]. split; [exact H2 |]. split; [exact H3 |].
  destruct (C5_uninitialised_chat_sets_error_state helloEnv
              (uninitialisedWorld "Hello") H1 H2 H3)
    as (_ & _ & _ & He & _ & Ht).
  split; [exact He | exact Ht].
Defined.




Lemma C8_witness :
  let actions :=
    [Mount (Returns sampleChat); ChangeInput "Hello"; SendMessage helloEnv] in
  let stores := messages initialState :: history (run actions) in
  exists s s',
    nth_error stores 0 = Some s /\ nth_error stores 1 = Some s' /\
    store_step s s' /\ List.length s = 1 /\ List.length s' = 2.
Proof.
  cbv zeta. eexists. eexists.
  split; [vm_compute; reflexivity |]. split; [vm_compute; reflexivity |].
  split.
  - apply (proj2 (C8_store_only_appends_and_updates
                    [Mount (Returns sampleChat); ChangeInput "Hello";
                     SendMessage helloEnv]) 0); vm_compute; reflexivity.
  - split; reflexivity.
Defined.
(** * Further properties *)

(** ** The pattern of the markdown renderer *)

Lemma startsWith_split s p :
  startsWith s p = true -> s = p ++ substring (String.length p) s.
Proof.
  intro H. apply startsWith_iff in H. destruct H as (rest & ->).
  now rewrite substring_append.
Qed.

Lemma lazy_until_sound dot close s : forall m rest,
  lazy_until dot close s = Some (m, rest) ->
  s = m ++ rest /\ String.length close <= String.length m.
Proof.
  induction s as [| c s IH]; intros m rest; cbn [lazy_until].
  - destruct (startsWith "" close) eqn:E; [| discriminate].
    intro H. inversion H; subst. split; [now apply startsWith_split | lia].
  - destruct (startsWith (String c s) close) eqn:E.
    + intro H. inversion H; subst. split; [now apply startsWith_split | lia].
    + destruct (dot c); [| discriminate].
      destruct (lazy_until dot close s) as [[m' rest'] |]; [| discriminate].
      intro H. inversion H; subst.
      destruct (IH m' rest eq_refl) as [-> L]. split; [reflexivity | cbn; lia].
Qed.

Lemma delimited_sound open close dot s m rest :
  delimited open close dot s = Some (m, rest) ->
  s = m ++ rest /\ String.length open + String.length close <= String.length m.
Proof.
  unfold delimited. destruct (startsWith s open) eqn:E; [| discriminate].
  destruct (lazy_until dot close (substring (String.length open) s))
    as [[m' rest'] |] eqn:L; [| discriminate].
  intro H. inversion H; subst.
  destruct (lazy_until_sound _ _ _ _ _ L) as [E' Lm].
  split.
  - rewrite (startsWith_split _ _ E) at 1. rewrite E'. now rewrite append_assoc.
  - rewrite string_length_append. lia.
Qed.

Lemma match_here_sound s m rest :
  match_here s = Some (m, rest) ->
  s = m ++ rest /\ 2 <= String.length m.
Proof.
  unfold match_here.
  destruct (delimited "**" "**" _ s) as [[m1 r1] |] eqn:E1.
  - intro H. inversion H; subst.
    destruct (delimited_sound _ _ _ _ _ _ E1) as [-> L]. cbn in L. split; [reflexivity | lia].
  - destruct (delimited "*" "*" _ s) as [[m2 r2] |] eqn:E2.
    + intro H. inversion H; subst.
      destruct (delimited_sound _ _ _ _ _ _ E2) as [-> L]. cbn in L. split; [reflexivity | lia].
    + intro E3.
      destruct (delimited_sound _ _ _ _ _ _ E3) as [-> L]. cbn in L. split; [reflexivity | lia].
Qed.

Lemma match_here_shortens s m rest :
  match_here s = Some (m, rest) -> String.length rest < String.length s.
Proof.
  intro H. destruct (match_here_sound _ _ _ H) as [-> L].
  rewrite string_length_append. lia.
Qed.

(** The fuel of [split_pattern] is never used up: any fuel above the
    length of the text gives the same parts. *)
Lemma split_loop_enough f1 : forall f2 text s,
  String.length s < f1 -> String.length s < f2 ->
  split_loop f1 text s = split_loop f2 text s.
Proof.
  induction f1 as [| f1 IH]; intros f2 text s H1 H2; [lia |].
  destruct f2 as [| f2]; [lia |]. cbn [split_loop].
  destruct (match_here s) as [[m rest] |] eqn:E.
  - pose proof (match_here_shortens _ _ _ E) as L.
    f_equal. f_equal. apply IH; lia.
  - destruct s as [| c s]; [reflexivity |]. cbn in H1, H2. apply IH; lia.
Qed.

Lemma joinWith_empty_cons p rest :
  joinWith "" (p :: rest) = p ++ joinWith "" rest.
Proof. destruct rest; cbn; [now rewrite append_empty_r | reflexivity]. Qed.

Lemma split_loop_join fuel : forall text s,
  joinWith "" (split_loop fuel text s) = text ++ s.
Proof.
  induction fuel as [| fuel IH]; intros text s; cbn [split_loop];
    [reflexivity |].
  destruct (match_here s) as [[m rest] |] eqn:E.
  - rewrite !joinWith_empty_cons, IH.
    destruct (match_here_sound _ _ _ E) as [-> _]. reflexivity.
  - destruct s as [| c s]; [cbn; now rewrite append_empty_r |].
    rewrite IH, append_assoc. reflexivity.
Qed.

(** X1: splitting a text by the markdown pattern loses nothing: the
    parts, joined in order, are the text. *)
Theorem split_pattern_joins_back (content : string) :
  joinWith "" (split_pattern content) = content.
Proof. unfold split_pattern. apply split_loop_join. Qed.

Lemma match_here_plain c s :
  Ascii.eqb c star = false -> Ascii.eqb c backtick = false ->
  match_here (String c s) = None.
Proof.
  intros H1 H2. unfold match_here, delimited. cbn [startsWith].
  fold star backtick.
  assert (E1 : Ascii.eqb c "*"%char = false) by exact H1.
  assert (E2 : Ascii.eqb c "`"%char = false) by exact H2.
  rewrite E1, E2. reflexivity.
Qed.

Lemma match_here_empty : match_here "" = None.
Proof. reflexivity. Qed.

Lemma no_markup_head c s :
  no_markup (String c s) = true ->
  Ascii.eqb c star = false /\ Ascii.eqb c backtick = false /\ no_markup s = true.
Proof.
  cbn. intro H. apply andb_true_iff in H. destruct H as [H H3].
  apply andb_true_iff in H. destruct H as [H1 H2].
  apply negb_true_iff in H1, H2. auto.
Qed.

(** Scanning over a stretch without markup only moves it to the text
    since the last match. *)
Lemma split_loop_plain_prefix a : forall fuel text s,
  no_markup a = true ->
  split_loop (String.length a + fuel) text (a ++ s) = split_loop fuel (text ++ a) s.
Proof.
  induction a as [| c a IH]; intros fuel text s H.
  - cbn. now rewrite append_empty_r.
  - destruct (no_markup_head _ _ H) as (H1 & H2 & H3).
    cbn [String.length Nat.add String.append split_loop].
    rewrite (match_here_plain c (a ++ s) H1 H2), IH by exact H3.
    now rewrite append_assoc.
Qed.

Lemma split_loop_plain a fuel text :
  no_markup a = true -> String.length a < fuel ->
  split_loop fuel text a = [text ++ a].
Proof.
  intros H L.
  rewrite (split_loop_enough fuel (String.length a + 1) text a) by lia.
  rewrite <- (append_empty_r a) at 2.
  rewrite split_loop_plain_prefix by exact H. reflexivity.
Qed.

Lemma renderPart_plain a :
  no_markup a = true -> renderPart a = lineNodes (splitOn newline a).
Proof.
  intro H. unfold renderPart. destruct a as [| c a]; [reflexivity |].
  destruct (no_markup_head _ _ H) as (H1 & H2 & _).
  cbn [startsWith]. change (Ascii.eqb c "*") with (Ascii.eqb c star).
  change (Ascii.eqb c "`") with (Ascii.eqb c backtick).
  rewrite H1, H2. reflexivity.
Qed.

Lemma splitOn_nonempty sep s : splitOn sep s <> [].
Proof.
  destruct s as [| c s]; cbn; [discriminate |].
  destruct (Ascii.eqb c sep); [discriminate |].
  destruct (splitOn sep s); discriminate.
Qed.

Lemma joinWith_splitOn sep s :
  joinWith (String sep "") (splitOn sep s) = s.
Proof.
  induction s as [| c s IH]; [reflexivity |]. cbn [splitOn].
  destruct (Ascii.eqb_spec c sep) as [-> | N].
  - pose proof (splitOn_nonempty sep s) as NE.
    destruct (splitOn sep s) as [| h t]; [congruence |].
    change (joinWith (String sep "") ("" :: h :: t))
      with (String sep (joinWith (String sep "") (h :: t))).
    now rewrite IH.
  - pose proof (splitOn_nonempty sep s) as NE.
    destruct (splitOn sep s) as [| h t]; [congruence |].
    rewrite <- IH. destruct t; reflexivity.
Qed.

(** X2: a text with no asterisk and no backtick is one part for the
    renderer, which shows its lines in order with a break between two
    lines; the lines, joined by the newline character, are the text. *)
Theorem plain_text_renders_as_its_lines (content : string) :
  no_markup content = true ->
  split_pattern content = [content] /\
  SimpleMarkdownRenderer content = lineNodes (splitOn newline content) /\
  joinWith (String newline "") (splitOn newline content) = content.
Proof.
  intro H.
  assert (E : split_pattern content = [content])
    by (unfold split_pattern; now rewrite split_loop_plain by (auto; lia)).
  split; [exact E |]. split; [| apply joinWith_splitOn].
  unfold SimpleMarkdownRenderer. rewrite E. cbn [flat_map].
  rewrite app_nil_r. now apply renderPart_plain.
Qed.

Lemma plain_text_witness :
  no_markup "Hello there" = true /\
  SimpleMarkdownRenderer "Hello there" = [TextLine "Hello there"].
Proof.
  split; [reflexivity |].
  exact (proj1 (proj2 (plain_text_renders_as_its_lines "Hello there" eq_refl))).
Defined.

Lemma lazy_until_eq dot close s :
  lazy_until dot close s =
  if startsWith s close
  then Some (close, substring (String.length close) s)
  else match s with
       | EmptyString => None
       | String c s' =>
           if dot c then
             match lazy_until dot close s' with
             | Some (m, rest) => Some (String c m, rest)
             | None => None
             end
           else None
       end.
Proof. destruct s; reflexivity. Qed.

Lemma startsWith_append p rest : startsWith (p ++ rest) p = true.
Proof. apply startsWith_iff. now exists rest. Qed.

(** The lazy run stops at the first closing mark: a run of accepted
    characters that does not hold the first character of the mark is
    matched whole. *)
Lemma lazy_until_found dot k close' x rest :
  all_chars dot x = true -> no_char k x = true ->
  lazy_until dot (String k close') (x ++ String k close' ++ rest)
  = Some (x ++ String k close', rest).
Proof.
  induction x as [| c x IH]; intros Hd Hk; rewrite lazy_until_eq.
  - change ("" ++ String k close' ++ rest) with (String k close' ++ rest).
    now rewrite startsWith_append, substring_append.
  - cbn in Hd, Hk. apply andb_true_iff in Hd, Hk.
    destruct Hd as [Hc Hd], Hk as [Hn Hk]. apply negb_true_iff in Hn.
    change (String c x ++ String k close' ++ rest)
      with (String c (x ++ String k close' ++ rest)).
    cbn [startsWith]. rewrite Hn. cbn [andb]. rewrite Hc, (IH Hd Hk).
    reflexivity.
Qed.

Lemma delimited_found open dot k close' x rest :
  all_chars dot x = true -> no_char k x = true ->
  delimited open (String k close') dot (open ++ x ++ String k close' ++ rest)
  = Some (open ++ x ++ String k close', rest).
Proof.
  intros Hd Hk. unfold delimited.
  now rewrite startsWith_append, substring_append, lazy_until_found.
Qed.

Lemma one_line_all x :
  one_line x = all_chars (fun c => negb (isLineTerminator c)) x.
Proof. induction x as [| c x IH]; cbn; [reflexivity | now rewrite IH]. Qed.

Lemma all_chars_true x : all_chars (fun _ => true) x = true.
Proof. induction x as [| c x IH]; cbn; auto. Qed.

Lemma split_pattern_one_match a m b :
  no_markup a = true -> no_markup b = true ->
  match_here (m ++ b) = Some (m, b) ->
  split_pattern (a ++ m ++ b) = [a; m; b].
Proof.
  intros Ha Hb Hm. unfold split_pattern.
  rewrite string_length_append, plus_n_Sm.
  rewrite split_loop_plain_prefix by exact Ha.
  cbn [split_loop]. rewrite Hm. cbn [String.append].
  rewrite split_loop_plain; [reflexivity | exact Hb |].
  rewrite string_length_append.
  destruct (match_here_sound _ _ _ Hm) as [_ L]. lia.
Qed.

Lemma take_append x c : take (String.length x) (x ++ c) = x.
Proof.
  induction x as [| a x IH]; cbn; [now destruct c | now rewrite IH].
Qed.

Lemma slice_wrapped o x c :
  slice (String.length o) (String.length c) (o ++ x ++ c) = x.
Proof.
  unfold slice. rewrite substring_append, !string_length_append.
  replace (String.length o + (String.length x + String.length c)
           - String.length c - String.length o) with (String.length x) by lia.
  apply take_append.
Qed.

Lemma endsWith_append a p : endsWith (a ++ p) p = true.
Proof.
  unfold endsWith. rewrite string_length_append.
  replace (String.length a + String.length p - String.length p)
    with (String.length a) by lia.
  rewrite substring_append, String.eqb_refl.
  apply andb_true_iff. split; [apply Nat.leb_le; lia | reflexivity].
Qed.

Lemma endsWith_wrapped o x c : endsWith (o ++ x ++ c) c = true.
Proof. rewrite <- append_assoc. apply endsWith_append. Qed.

Lemma render_one_match a m b nodes :
  no_markup a = true -> no_markup b = true ->
  match_here (m ++ b) = Some (m, b) ->
  renderPart m = nodes ->
  SimpleMarkdownRenderer (a ++ m ++ b) =
  (lineNodes (splitOn newline a) ++ nodes ++ lineNodes (splitOn newline b))%list.
Proof.
  intros Ha Hb Hm Hr. unfold SimpleMarkdownRenderer.
  rewrite (split_pattern_one_match a m b Ha Hb Hm). cbn [flat_map].
  now rewrite app_nil_r, Hr, !renderPart_plain.
Qed.

(** X3: inside a text without markup, [**x**] is shown as the bold text
    [x] without the asterisks, for every [x] that stays on one line and
    holds no asterisk; the text before and after is shown as its lines. *)
Theorem bold_is_rendered_strong (a x b : string) :
  no_markup a = true -> no_markup b = true ->
  no_char star x = true -> one_line x = true ->
  SimpleMarkdownRenderer (a ++ "**" ++ x ++ "**" ++ b) =
  (lineNodes (splitOn newline a) ++ [Strong x]
   ++ lineNodes (splitOn newline b))%list.
Proof.
  intros Ha Hb Hs Hl. rewrite one_line_all in Hl.
  assert (Hm : match_here (("**" ++ x ++ "**") ++ b)
               = Some ("**" ++ x ++ "**", b)).
  { pose proof (delimited_found "**" _ star "*" x b Hl Hs) as D.
    change (String star "*") with "**" in D.
    unfold match_here. rewrite !append_assoc, D. reflexivity. }
  pose proof (render_one_match a ("**" ++ x ++ "**") b [Strong x] Ha Hb Hm) as R.
  rewrite !append_assoc in R. apply R.
  unfold renderPart. rewrite (startsWith_append "**" (x ++ "**")).
  rewrite (endsWith_wrapped "**" x "**"). cbn [andb].
  pose proof (slice_wrapped "**" x "**") as S. cbn [String.length] in S.
  now rewrite S.
Qed.

Lemma no_char_head k c x :
  no_char k (String c x) = true -> Ascii.eqb c k = false /\ no_char k x = true.
Proof.
  cbn. intro H. apply andb_true_iff in H. destruct H as [H1 H2].
  apply negb_true_iff in H1. auto.
Qed.

(** X4: inside a text without markup, [*x*] is shown as the emphasised
    text [x] without the asterisks, for every non-empty [x] that stays on
    one line and holds no asterisk. *)
Theorem italics_are_rendered_em (a x b : string) :
  no_markup a = true -> no_markup b = true ->
  x <> "" -> no_char star x = true -> one_line x = true ->
  SimpleMarkdownRenderer (a ++ "*" ++ x ++ "*" ++ b) =
  (lineNodes (splitOn newline a) ++ [Em x]
   ++ lineNodes (splitOn newline b))%list.
Proof.
  intros Ha Hb Hx Hs Hl. rewrite one_line_all in Hl.
  destruct x as [| c x]; [congruence |].
  destruct (no_char_head _ _ _ Hs) as [Hc _].
  assert (Hm : match_here (("*" ++ String c x ++ "*") ++ b)
               = Some ("*" ++ String c x ++ "*", b)).
  { pose proof (delimited_found "*" _ star "" (String c x) b Hl Hs) as D.
    change (String star "") with "*" in D.
    unfold match_here. rewrite !append_assoc, D.
    unfold delimited. cbn [startsWith String.append].
    change (Ascii.eqb c "*") with (Ascii.eqb c star). rewrite Hc. reflexivity. }
  pose proof (render_one_match a ("*" ++ String c x ++ "*") b [Em (String c x)]
                Ha Hb Hm) as R.
  rewrite !append_assoc in R. apply R.
  unfold renderPart.
  assert (E1 : startsWith ("*" ++ String c x ++ "*") "**" = false).
  { cbn [startsWith String.append].
    change (Ascii.eqb c "*") with (Ascii.eqb c star). now rewrite Hc. }
  rewrite E1. cbn [andb].
  rewrite (startsWith_append "*" (String c x ++ "*")).
  rewrite (endsWith_wrapped "*" (String c x) "*"). cbn [andb].
  pose proof (slice_wrapped "*" (String c x) "*") as S.
  cbn [String.length] in S. now rewrite S.
Qed.

(** X5: inside a text without markup, a fenced block is shown as a code
    block holding the text between the fences, trimmed, for every such
    text without a backtick; line breaks and asterisks inside it are
    kept as they are. *)
Theorem fenced_code_is_rendered_trimmed (a x b : string) :
  no_markup a = true -> no_markup b = true ->
  no_char backtick x = true ->
  SimpleMarkdownRenderer (a ++ "```" ++ x ++ "```" ++ b) =
  (lineNodes (splitOn newline a) ++ [CodeBlock (trim x)]
   ++ lineNodes (splitOn newline b))%list.
Proof.
  intros Ha Hb Hs.
  assert (Hm : match_here (("```" ++ x ++ "```") ++ b)
               = Some ("```" ++ x ++ "```", b)).
  { pose proof (delimited_found "```" _ backtick "``" x b
                  (all_chars_true x) Hs) as D.
    change (String backtick "``") with "```" in D.
    unfold match_here. rewrite !append_assoc, D. reflexivity. }
  pose proof (render_one_match a ("```" ++ x ++ "```") b [CodeBlock (trim x)]
                Ha Hb Hm) as R.
  rewrite !append_assoc in R. apply R.
  unfold renderPart.
  change (startsWith ("```" ++ x ++ "```") "**") with false.
  change (startsWith ("```" ++ x ++ "```") "*") with false.
  cbn [andb].
  rewrite (startsWith_append "```" (x ++ "```")).
  rewrite (endsWith_wrapped "```" x "```"). cbn [andb].
  pose proof (slice_wrapped "```" x "```") as S.
  cbn [String.length] in S. now rewrite S.
Qed.

Lemma lazy_until_never dot k close' x :
  no_char k x = true ->
  lazy_until dot (String k close') x = None.
Proof.
  induction x as [| c x IH]; intro H; [reflexivity |].
  destruct (no_char_head _ _ _ H) as [Hc Hx].
  cbn [lazy_until startsWith]. rewrite Hc. cbn [andb].
  rewrite (IH Hx). now destruct (dot c).
Qed.

Lemma no_markup_no_star x : no_markup x = true -> no_char star x = true.
Proof.
  induction x as [| c x IH]; [reflexivity |]. intro H.
  destruct (no_markup_head _ _ H) as (H1 & _ & H3). cbn [no_char].
  now rewrite H1, (IH H3).
Qed.

(** X6: an opening [**] that is never closed is swallowed: in front of a
    text without markup the two asterisks are taken as an empty pair and
    shown as an empty bold text, so they disappear from what is shown. *)
Theorem unclosed_bold_marker_disappears (b : string) :
  no_markup b = true ->
  split_pattern ("**" ++ b) = [""; "**"; b] /\
  SimpleMarkdownRenderer ("**" ++ b) =
  (TextLine "" :: Strong "" :: lineNodes (splitOn newline b)).
Proof.
  intro Hb. pose proof (no_markup_no_star _ Hb) as Hs.
  assert (Hm : match_here ("**" ++ b) = Some ("**", b)).
  { unfold match_here, delimited. cbn [startsWith String.append].
    cbn [Ascii.eqb Bool.eqb andb String.length substring].
    change "**" with (String star "*") at 1.
    rewrite (lazy_until_never _ star "*" b Hs).
    rewrite lazy_until_eq. cbn [startsWith Ascii.eqb Bool.eqb andb].
    cbn [String.length substring String.append]. reflexivity. }
  pose proof (split_pattern_one_match "" "**" b eq_refl Hb Hm) as E.
  cbn [String.append] in E.
  split; [exact E |].
  unfold SimpleMarkdownRenderer.
  change (String "*" (String "*" b)) with ("**" ++ b) in E. rewrite E.
  cbn [flat_map]. rewrite app_nil_r, (renderPart_plain b Hb). reflexivity.
Qed.

(** ** What the view shows of a chat exchange *)


(** ** What the bubbles show *)

(** X7: after a chat stream that ends normally, the bubble of the
    assistant Message shows the whole accumulated text through the
    markdown renderer and nothing else: no cursor, no loading dots, no
    error class. *)
Theorem finished_chat_bubble_shows_the_text
  (env : Env) (w : World) (c : Chat) (stream : ChatStream) :
  accepted (app w) ->
  startsWith (toLowerCase (trim (input (app w)))) "/video " = false ->
  chat (app w) = Some c ->
  sendMessageStream env = Returns stream ->
  ending stream = Exhausted ->
  exists m,
    messageAt (S (List.length (messages (app w)))) (step (SendMessage env) w)
      = Some m /\
    bubble m = [Markdown (SimpleMarkdownRenderer (joined (chunks stream)))] /\
    bubbleIsError m = false.
Proof.
  intros Ha Hv Hc Hs He.
  pose proof (chat_final_message env w c stream Ha Hv Hc Hs) as H.
  cbv zeta in H. rewrite He in H.
  eexists. split; [exact H |]. split; reflexivity.
Qed.

(** X8: after a chat stream that throws, the bubble of the assistant
    Message has the error class; it shows the error text only if no
    non-empty text had arrived, and otherwise shows the partial text
    followed by the cursor, the error text staying hidden. *)
Theorem failed_chat_bubble_hides_the_error_behind_partial_text
  (env : Env) (w : World) (c : Chat) (stream : ChatStream) (e : Thrown) :
  accepted (app w) ->
  startsWith (toLowerCase (trim (input (app w)))) "/video " = false ->
  chat (app w) = Some c ->
  sendMessageStream env = Returns stream ->
  ending stream = StreamThrows e ->
  exists m,
    messageAt (S (List.length (messages (app w)))) (step (SendMessage env) w)
      = Some m /\
    bubbleIsError m = true /\
    bubble m =
      if truthy (joined (chunks stream))
      then [Markdown (SimpleMarkdownRenderer (joined (chunks stream) ++ cursor))]
      else [Markdown (SimpleMarkdownRenderer
                        ("Sorry, I ran into an error: " ++ chatErrorMessage e))].
Proof.
  intros Ha Hv Hc Hs He.
  pose proof (chat_final_message env w c stream Ha Hv Hc Hs) as H.
  cbv zeta in H. rewrite He in H.
  eexists. split; [exact H |]. split; [reflexivity |].
  unfold bubble. cbn [chat_failed Message.with_isLoading Message.with_isError
    Message.with_text Message.with_streamingText assistantDraft
    Message.imagePreview Message.isLoading Message.streamingText
    Message.videoUrl Message.text truthy_flag truthy_opt negb andb].
  destruct (truthy (joined (chunks stream))); reflexivity.
Qed.

(** The stores an accepted chat submission writes, once its stream is
    opened: the user Message, the draft, one store for each chunk, and
    the stores of the ending. *)
Lemma chat_run_history
  (env : Env) (w : World) (c : Chat) (stream : ChatStream) :
  accepted (app w) ->
  startsWith (toLowerCase (trim (input (app w)))) "/video " = false ->
  chat (app w) = Some c ->
  sendMessageStream env = Returns stream ->
  exists closing,
    since_history w (step (SendMessage env) w)
      ([append (userMessage env w) (messages (app w)); opened_store env w]
       ++ streamed (assistantId env w) (opened_store env w)
            (written "" 0 (chunks stream))
       ++ closing).
Proof.
  intros Ha Hv Hc Hs.
  assert (E : exists closing,
    history (step (SendMessage env) w) =
    (history (streaming_world env w (chunks stream)) ++ closing)%list).
  { rewrite (chat_step env w c stream Ha Hv Hc Hs). cbv zeta.
    destruct (ending stream).
    - eexists. reflexivity.
    - eexists. reflexivity.
    - exists []. now rewrite app_nil_r. }
  destruct E as (closing & E). exists closing.
  unfold since_history. rewrite E, streaming_world_history.
  now rewrite <- !app_assoc.
Qed.

(** X9: while the chat stream delivers, in the store written for chunk
    [k] the bubble of the assistant Message shows the text accumulated
    when React computes that store, followed by the cursor, and the
    loading dots as long as that text is empty.  The text is the
    concatenation of the chunks [0] to [k] and of those delivered after
    chunk [k] in the same task; it is the concatenation of the chunks
    [0] to [k] when the next chunk comes in a later task. *)
Theorem streaming_bubble_shows_dots_then_text_with_cursor
  (env : Env) (w : World) (c : Chat) (stream : ChatStream) :
  accepted (app w) ->
  startsWith (toLowerCase (trim (input (app w)))) "/video " = false ->
  chat (app w) = Some c ->
  sendMessageStream env = Returns stream ->
  forall k, k < List.length (chunks stream) ->
  let received := firstn (seen (chunks stream) k) (chunks stream) in
  (exists s m,
    nth_error (history (step (SendMessage env) w))
      (List.length (history w) + 2 + k) = Some s /\
    nth_error s (S (List.length (messages (app w)))) = Some m /\
    bubble m =
      if truthy (joined received)
      then [Markdown (SimpleMarkdownRenderer (joined received ++ cursor))]
      else [LoadingDots]) /\
  k < seen (chunks stream) k <= List.length (chunks stream) /\
  (match nth_error (chunks stream) (S k) with
   | Some next => same_task next = false
   | None => True
   end -> received = firstn (S k) (chunks stream)).
Proof.
  intros Ha Hv Hc Hs k Hk received.
  split; [| split; [now apply seen_bounds |
                    intro H; unfold received; now rewrite seen_alone]].
  destruct (chat_run_history env w c stream Ha Hv Hc Hs) as (closing & H).
  unfold since_history in H.
  set (id := assistantId env w) in *.
  set (opened := opened_store env w) in *.
  destruct (nth_error (streamed id opened (written "" 0 (chunks stream))) k)
    as [s |] eqn:Es.
  2: { apply nth_error_None in Es.
       rewrite streamed_length, written_length in Es. lia. }
  exists s. destruct (streamed_nth _ _ _ _ _ Es) as (t & Ht & ->).
  apply written_nth in Ht. subst t.
  eexists. split; [| split].
  - rewrite H, nth_error_app2 by lia.
    replace (List.length (history w) + 2 + k - List.length (history w))
      with (2 + k) by lia.
    cbn [Datatypes.app Nat.add nth_error]. rewrite nth_error_app1; [exact Es |].
    rewrite streamed_length, written_length. exact Hk.
  - apply nth_error_updateById;
      [apply opened_store_assistant | reflexivity].
  - unfold bubble. cbn [Message.with_streamingText assistantDraft
      Message.imagePreview Message.isLoading Message.streamingText
      Message.videoUrl Message.text truthy_flag truthy_opt negb andb
      String.append].
    fold received.
    destruct (truthy (joined received)); reflexivity.
Qed.

(** ** No thrown value leaves the submission handler *)

Lemma never_raises_ret {A} (a : A) : never_raises (ret a).
Proof. intros f e. discriminate. Qed.

Lemma never_raises_on_world g : never_raises (on_world g).
Proof. intros f e. discriminate. Qed.

Lemma never_raises_setMessages u : never_raises (setMessages u).
Proof. intros f e. discriminate. Qed.

Lemma never_raises_Date_now env : never_raises (Date_now env).
Proof. intros f e. discriminate. Qed.

Lemma never_raises_bind {A B} (c : M A) (k : A -> M B) :
  never_raises c -> (forall a, never_raises (k a)) -> never_raises (bind c k).
Proof.
  intros Hc Hk f e. unfold bind. specialize (Hc f).
  destruct (c f) as [[a | e' |] f1]; cbn in *.
  - apply Hk.
  - now destruct (Hc e').
  - discriminate.
Qed.

Lemma never_raises_try_catch {A} (body : M A) (handler : Thrown -> M A) :
  (forall e, never_raises (handler e)) -> never_raises (try_catch body handler).
Proof.
  intros Hh f e. unfold try_catch.
  destruct (body f) as [[a | e' |] f1]; cbn; try discriminate. apply Hh.
Qed.

Lemma never_raises_async env {A} (body : M A) :
  never_raises body -> never_raises (async env body).
Proof.
  intros Hb f e. unfold async. specialize (Hb f e).
  destruct (body f) as [r f1]. exact Hb.
Qed.

Ltac raise_steps :=
  unfold_setters;
  repeat match goal with
    | |- never_raises (async _ _) => apply never_raises_async
    | |- never_raises (bind _ _) => apply never_raises_bind; [| intro]
    | |- never_raises (try_catch _ _) => apply never_raises_try_catch; intro
    | |- never_raises (ret _) => apply never_raises_ret
    | |- never_raises (emit _) => apply never_raises_on_world
    | |- never_raises (modify_app _) => apply never_raises_on_world
    | |- never_raises (setMessages _) => apply never_raises_setMessages
    | |- never_raises (Date_now _) => apply never_raises_Date_now
    | |- never_raises (match ?x with _ => _ end) => destruct x
    | |- never_raises (let _ := _ in _) => cbv zeta
    end.

Lemma never_raises_sendChatMessage env props prompt file :
  never_raises (sendChatMessage env props prompt file).
Proof. unfold sendChatMessage. raise_steps. Qed.

Lemma never_raises_generateVideo env prompt :
  never_raises (generateVideo env prompt).
Proof. unfold generateVideo. raise_steps. Qed.

Lemma never_raises_handleSendMessage env props :
  never_raises (handleSendMessage env props).
Proof.
  unfold handleSendMessage. raise_steps.
  - apply never_raises_generateVideo.
  - apply never_raises_sendChatMessage.
Qed.

(** X10: whatever the remote services and the browser throw, no thrown
    value leaves [handleSendMessage]: a call returns, or waits for good
    on a call that never settles. *)
Theorem handleSendMessage_never_throws
  (env : Env) (props : AppState) (w : World) :
  fst (handleSendMessage env props w) = Ok tt \/
  fst (handleSendMessage env props w) = Blocked.
Proof.
  pose proof (never_raises_handleSendMessage env props w) as H.
  destruct (fst (handleSendMessage env props w)) as [[] | e |]; auto.
  now destruct (H e).
Qed.

(** ** The busy flag *)

Lemma returns_clears_busy env w :
  accepted (app w) ->
  fst (handleSendMessage env (app w) w) = Ok tt ->
  isLoading (app (step (SendMessage env) w)) = false.
Proof.
  intros Ha. rewrite (step_accepted _ _ Ha).
  rewrite (handleSendMessage_accepted _ _ Ha).
  unfold async, bind.
  match goal with
  | |- context [?c (dispatch_frame env w)] =>
      destruct (c (dispatch_frame env w)) as [[[] | e |] f1]
  end; cbn; congruence.
Qed.

Lemma never_blocks_ret {A} (a : A) : never_blocks (ret a).
Proof. intros f. discriminate. Qed.

Lemma never_blocks_throw {A} e : never_blocks (@throw A e).
Proof. intros f. discriminate. Qed.

Lemma never_blocks_on_world g : never_blocks (on_world g).
Proof. intros f. discriminate. Qed.

Lemma never_blocks_setMessages u : never_blocks (setMessages u).
Proof. intros f. discriminate. Qed.

Lemma never_blocks_Date_now env : never_blocks (Date_now env).
Proof. intros f. discriminate. Qed.

Lemma never_blocks_render env : never_blocks (render env).
Proof. intros f. discriminate. Qed.

Lemma never_blocks_let_accumulatedText v : never_blocks (let_accumulatedText v).
Proof. intros f. discriminate. Qed.

Lemma never_blocks_add_accumulatedText s : never_blocks (add_accumulatedText s).
Proof. intros f. discriminate. Qed.

Lemma never_blocks_bind {A B} (c : M A) (k : A -> M B) :
  never_blocks c ->
  (forall a, (exists f, fst (c f) = Ok a) -> never_blocks (k a)) ->
  never_blocks (bind c k).
Proof.
  intros Hc Hk f. unfold bind. specialize (Hc f).
  destruct (c f) as [[a | e |] f1] eqn:E; cbn in *.
  - apply Hk. exists f. now rewrite E.
  - discriminate.
  - congruence.
Qed.

Lemma never_blocks_try_catch {A} (body : M A) (handler : Thrown -> M A) :
  never_blocks body -> (forall e, never_blocks (handler e)) ->
  never_blocks (try_catch body handler).
Proof.
  intros Hb Hh f. unfold try_catch. specialize (Hb f).
  destruct (body f) as [[a | e |] f1]; cbn in *;
    [discriminate | apply Hh | congruence].
Qed.

Lemma never_blocks_async env {A} (body : M A) :
  never_blocks body -> never_blocks (async env body).
Proof.
  intros Hb f. unfold async. specialize (Hb f).
  destruct (body f) as [r f1]. exact Hb.
Qed.

Lemma never_blocks_await env {A} (r : Reply A) :
  r <> NeverSettles -> never_blocks (await env r).
Proof. intros Hr f. destruct r; cbn; congruence. Qed.

Lemma await_returns env {A} (r : Reply A) a :
  (exists f, fst (await env r f) = Ok a) -> r = Returns a.
Proof. intros (f & H). destruct r; cbn in H; congruence. Qed.

Ltac block_steps :=
  unfold_setters;
  repeat match goal with
    | |- never_blocks (async _ _) => apply never_blocks_async
    | |- never_blocks (bind _ _) => apply never_blocks_bind; [| intros ? ?]
    | |- never_blocks (try_catch _ _) =>
        apply never_blocks_try_catch; [| intro]
    | |- never_blocks (ret _) => apply never_blocks_ret
    | |- never_blocks (throw _) => apply never_blocks_throw
    | |- never_blocks (emit _) => apply never_blocks_on_world
    | |- never_blocks (modify_app _) => apply never_blocks_on_world
    | |- never_blocks (setMessages _) => apply never_blocks_setMessages
    | |- never_blocks (Date_now _) => apply never_blocks_Date_now
    | |- never_blocks (render _) => apply never_blocks_render
    | |- never_blocks (let_accumulatedText _) =>
        apply never_blocks_let_accumulatedText
    | |- never_blocks (add_accumulatedText _) =>
        apply never_blocks_add_accumulatedText
    | |- never_blocks (if ?x then _ else _) => destruct x
    | |- never_blocks (let _ := _ in _) => cbv zeta
    end.

Ltac awaited :=
  repeat match goal with
    | Hr : ex _ |- _ => apply await_returns in Hr
    end.

Lemma never_blocks_for_await env id cs fin :
  fin <> StreamStalls -> never_blocks (for_await env id cs fin).
Proof.
  intro Hf. induction cs as [| c cs IH]; cbn [for_await].
  - apply never_blocks_await. destruct fin; congruence.
  - block_steps. exact IH.
Qed.

Lemma never_blocks_poll_loop env polls : forall operation,
  poll_result polls operation <> Blocked ->
  never_blocks (poll_loop env polls operation).
Proof.
  induction polls as [| r polls IH]; intros operation H;
    cbn [poll_loop poll_result] in *.
  - destruct (Operation.done operation); [apply never_blocks_ret | congruence].
  - destruct (Operation.done operation); [apply never_blocks_ret |].
    block_steps.
    + apply never_blocks_await. destruct r; congruence.
    + awaited. subst r. apply IH. exact H.
Qed.

Lemma never_blocks_sendChatMessage env props prompt file :
  responsive env -> never_blocks (sendChatMessage env props prompt file).
Proof.
  intros (_ & Hs & _). unfold sendChatMessage.
  block_steps. all: awaited.
  all: try (apply never_blocks_await; intro E; rewrite E in Hs; exact Hs).
  all: match goal with
       | Hr : sendMessageStream _ = Returns _ |- _ => rewrite Hr in Hs
       end; now apply never_blocks_for_await.
Qed.

Lemma never_blocks_generateVideo env prompt :
  responsive env -> never_blocks (generateVideo env prompt).
Proof.
  intros (Hk & _ & Hg). revert Hk. unfold generateVideo.
  destruct (aistudio env) as [studio |]; intro Hk; block_steps; awaited.
  all: try (apply never_blocks_await; tauto).
  all: try (apply never_blocks_await; intro E; rewrite E in Hg; exact Hg).
  all: try (match goal with
            | Hr : generateVideos _ = Returns _ |- _ => rewrite Hr in Hg
            end; now apply never_blocks_poll_loop).
  all: repeat match goal with
         | |- never_blocks (match ?x with _ => _ end) => destruct x
         end; block_steps.
Qed.

(** X11: when every awaited call settles (the stream ends, each poll is
    answered until the job is done or a poll throws), an accepted
    submission returns, and it leaves the busy flag cleared, whether the
    exchange succeeded or failed. *)
Theorem responsive_submission_returns_and_clears_busy
  (env : Env) (w : World) :
  accepted (app w) -> responsive env ->
  fst (handleSendMessage env (app w) w) = Ok tt /\
  isLoading (app (step (SendMessage env) w)) = false.
Proof.
  intros Ha Hr.
  assert (E : fst (handleSendMessage env (app w) w) = Ok tt).
  { assert (B : never_blocks (handleSendMessage env (app w))).
    { unfold handleSendMessage. block_steps.
      - now apply never_blocks_generateVideo.
      - now apply never_blocks_sendChatMessage. }
    pose proof (never_raises_handleSendMessage env (app w) w) as R.
    specialize (B w).
    destruct (fst (handleSendMessage env (app w) w)) as [[] | e |];
      [reflexivity | now destruct (R e) | now destruct B]. }
  split; [exact E | now apply returns_clears_busy].
Qed.

Lemma same_busy_refl w : same_busy w w.
Proof. reflexivity. Qed.

Lemma same_busy_trans w1 w2 w3 :
  same_busy w1 w2 -> same_busy w2 w3 -> same_busy w1 w3.
Proof. unfold same_busy. congruence. Qed.

Lemma same_busy_run env acc w u :
  any_updater u -> same_busy w (run_updater env acc w u).
Proof. intros _. apply (run_updater_flags env acc w u). Qed.

Ltac busy_steps :=
  guarded_steps same_busy_refl same_busy_trans same_busy_run;
  try match goal with
    | |- preserves _ (emit _) => apply guarded_on_world; intro; reflexivity
    | |- preserves _ (modify_app _) => apply guarded_on_world; intro; reflexivity
    | |- preserves _ (Date_now _) => apply guarded_Date_now; intro; reflexivity
    | |- preserves _ (setMessages _) =>
        apply guarded_setMessages; [apply same_busy_refl | exact Logic.I]
    end.

Lemma same_busy_for_await env id cs fin :
  preserves (guarded any_updater same_busy) (for_await env id cs fin).
Proof.
  induction cs as [| c cs IH]; cbn [for_await].
  - busy_steps.
  - busy_steps. all: apply IH.
Qed.

Lemma same_busy_poll_loop env polls : forall operation,
  preserves (guarded any_updater same_busy) (poll_loop env polls operation).
Proof.
  induction polls as [| r polls IH]; intro operation; cbn [poll_loop];
    busy_steps. apply IH.
Qed.

Lemma same_busy_sendChatMessage env props prompt file :
  preserves (guarded any_updater same_busy)
    (sendChatMessage env props prompt file).
Proof. unfold sendChatMessage. busy_steps. apply same_busy_for_await. Qed.

Lemma same_busy_generateVideo env prompt :
  preserves (guarded any_updater same_busy) (generateVideo env prompt).
Proof. unfold generateVideo. busy_steps. all: apply same_busy_poll_loop. Qed.

Lemma rejected_step env w :
  isLoading (app w) = true -> step (SendMessage env) w = w.
Proof.
  intro H. unfold step, handleSendMessage, async.
  rewrite (guard_rejected (app w)) by (left; exact H). reflexivity.
Qed.

Lemma busy_step a w :
  isLoading (app w) = true ->
  isLoading (app (step a w)) = true /\
  messages (app (step a w)) = messages (app w) /\
  history (step a w) = history w.
Proof.
  intro H. destruct a as [created | v | file | | | | e | t | env].
  - destruct created; cbn; auto.
  - cbn; auto.
  - destruct file as [[f url] |]; cbn; auto.
  - cbn; auto.
  - cbn; auto.
  - cbn; auto.
  - cbn; auto.
  - cbn; auto.
  - rewrite (rejected_step env w H). auto.
Qed.

Lemma busy_forever actions : forall w,
  isLoading (app w) = true ->
  isLoading (app (run_from w actions)) = true /\
  messages (app (run_from w actions)) = messages (app w) /\
  history (run_from w actions) = history w.
Proof.
  induction actions as [| a actions IH]; intros w H; [cbn; auto |].
  destruct (busy_step a w H) as (B & Ms & Hs).
  destruct (IH (step a w) B) as (B' & Ms' & Hs').
  cbn [run_from fold_left]. fold (run_from (step a w) actions).
  rewrite Ms', Hs', Ms, Hs. auto.
Qed.

(** X12: when an accepted submission never returns (its stream stalls, a
    call never settles, or the job is never reported done), the busy flag
    stays set, and from then on no action of the session, of any kind,
    clears it or writes the store: every later submission is refused. *)
Theorem blocked_submission_leaves_app_busy_for_good
  (env : Env) (w : World) (actions : list Action) :
  accepted (app w) ->
  fst (handleSendMessage env (app w) w) = Blocked ->
  let w' := step (SendMessage env) w in
  isLoading (app w') = true /\
  isLoading (app (run_from w' actions)) = true /\
  messages (app (run_from w' actions)) = messages (app w') /\
  history (run_from w' actions) = history w'.
Proof.
  intros Ha Hb w'.
  assert (B : isLoading (app w') = true).
  { unfold w'. rewrite (step_accepted _ _ Ha).
    rewrite (handleSendMessage_accepted _ _ Ha) in Hb.
    unfold async, bind in *.
    assert (Q : Forall any_updater (queue (dispatch_frame env w)))
      by (repeat constructor).
    destruct (startsWith (toLowerCase (trim (input (app w)))) "/video ").
    - pose proof (same_busy_generateVideo env
                    (trim (substring 7 (trim (input (app w)))))
                    (dispatch_frame env w) Q) as [_ S].
      destruct (generateVideo env _ (dispatch_frame env w)) as [[[] | e |] f1];
        cbn in *; try discriminate. exact S.
    - pose proof (same_busy_sendChatMessage env (app w) (trim (input (app w)))
                    (imageFile (app w)) (dispatch_frame env w) Q) as [_ S].
      destruct (sendChatMessage env _ _ _ (dispatch_frame env w))
        as [[[] | e |] f1]; cbn in *; try discriminate. exact S. }
  split; [exact B | apply busy_forever; exact B].
Qed.

(** ** What a submission adds to the store *)

(** Relations between stores that every updater of a handler respects. *)
Section OnStores.

Variable T : list Message.t -> list Message.t -> Prop.
Hypothesis T_refl : forall s, T s s.
Hypothesis T_trans : forall s1 s2 s3, T s1 s2 -> T s2 s3 -> T s1 s3.

Lemma on_stores_refl w : on_stores T w w.
Proof. apply T_refl. Qed.

Lemma on_stores_trans w1 w2 w3 :
  on_stores T w1 w2 -> on_stores T w2 w3 -> on_stores T w1 w3.
Proof. apply T_trans. Qed.

Lemma on_stores_run env acc w u :
  store_related T u -> on_stores T w (run_updater env acc w u).
Proof.
  intro Hu. unfold on_stores.
  pose proof (Hu (dateNow env (ndate w)) acc (messages (app w))) as St.
  destruct u; exact St.
Qed.

Lemma on_stores_same (g : World -> World) :
  (forall w, messages (app (g w)) = messages (app w)) ->
  preserves (guarded (store_related T) (on_stores T)) (on_world g).
Proof.
  intro Hg. apply guarded_on_world. intro w. unfold on_stores.
  rewrite Hg. apply T_refl.
Qed.

Lemma on_stores_Date_now env :
  preserves (guarded (store_related T) (on_stores T)) (Date_now env).
Proof. apply guarded_Date_now. intro w. apply T_refl. Qed.

Lemma on_stores_setMessages u :
  store_related T u ->
  preserves (guarded (store_related T) (on_stores T)) (setMessages u).
Proof. intro Hu. apply guarded_setMessages; [apply on_stores_refl | exact Hu]. Qed.

End OnStores.

(** Taking a handler apart for a relation between stores: what is left
    are the updaters and the loops. *)
Ltac stores_steps refl trans :=
  unfold_setters;
  match goal with
  | |- preserves (guarded (store_related ?T) _) _ =>
      guarded_steps (on_stores_refl T refl) (on_stores_trans T trans)
                    (on_stores_run T);
      try match goal with
        | |- preserves _ (emit _) =>
            apply (on_stores_same T refl); intro; reflexivity
        | |- preserves _ (modify_app _) =>
            apply (on_stores_same T refl); intro; reflexivity
        | |- preserves _ (Date_now _) => apply (on_stores_Date_now T refl)
        | |- preserves _ (setMessages _) =>
            apply (on_stores_setMessages T refl)
        end
  end.

(** *** The protocols up to their first render *)

Lemma sendChatMessage_unfold env props prompt file (f : Frame) c :
  chat props = Some c ->
  sendChatMessage env props prompt file f =
  async env
    (try_catch (chatJob env (assistantId env f) prompt file)
       (chatFailure (assistantId env f)))
    (chat_drafted_frame env f prompt file).
Proof. intro Hc. unfold sendChatMessage. rewrite Hc. reflexivity. Qed.

Lemma sendChatMessage_resumes env w c :
  chat (app w) = Some c ->
  sendChatMessage env (app w) (trim (input (app w))) (imageFile (app w))
    (dispatch_frame env w) =
  async env
    (try_catch (chatResumed env (assistantId env w))
       (chatFailure (assistantId env w)))
    (idle (streaming_world env w []) "").
Proof.
  intro Hc. unfold sendChatMessage. rewrite Hc.
  unfold streaming_world, opened_store.
  rewrite (userMessage_opened env w (opens_exchange_chat _ _ Hc)).
  reflexivity.
Qed.

Lemma generateVideo_resumes env w prompt :
  opens_exchange (app w) = true ->
  exists W : World,
    messages (app W) = video_opened_store env w prompt /\
    generateVideo env prompt (dispatch_frame env w) =
    async env
      (try_catch (videoResumed env (assistantId env w) prompt)
         (videoFailure (assistantId env w)))
      (idle W "").
Proof.
  intro Ho. unfold video_opened_store, generateVideo, videoResumed.
  rewrite (userMessage_opened env w Ho).
  destruct (aistudio env) as [studio |].
  - eexists. split; [| reflexivity]. reflexivity.
  - eexists. split; [| reflexivity]. reflexivity.
Qed.

Lemma then_setIsLoading_messages (c : M unit) v (f : Frame) :
  messages (app (snd ((c ;; setIsLoading v) f))) = messages (app (snd (c f))).
Proof. unfold bind. destruct (c f) as [[[] | e |] f1]; reflexivity. Qed.

(** *** The shape of the store *)

Lemma same_shape_refl (s : list Message.t) :
  map erase_content s = map erase_content s.
Proof. reflexivity. Qed.

Lemma same_shape_trans (s1 s2 s3 : list Message.t) :
  map erase_content s2 = map erase_content s1 ->
  map erase_content s3 = map erase_content s2 ->
  map erase_content s3 = map erase_content s1.
Proof. congruence. Qed.

Lemma same_shape_update id g s :
  (forall m, erase_content (g m) = erase_content m) ->
  map erase_content (updateById id g s) = map erase_content s.
Proof.
  intro Hg. unfold updateById. rewrite map_map. apply map_ext. intro m.
  destruct (String.eqb (Message.id m) id); [apply Hg | reflexivity].
Qed.

Ltac shape_steps :=
  stores_steps same_shape_refl same_shape_trans;
  try (intros ? ? ?; cbn [updater_fn]; apply same_shape_update;
       intro; reflexivity).

Lemma same_shape_for_await env id cs fin :
  preserves (guarded
               (store_related (fun s s' => map erase_content s'
                                           = map erase_content s))
               (on_stores (fun s s' => map erase_content s'
                                       = map erase_content s)))
    (for_await env id cs fin).
Proof.
  induction cs as [| c cs IH]; cbn [for_await].
  - shape_steps.
  - shape_steps. all: apply IH.
Qed.

Lemma same_shape_poll_loop env polls : forall operation,
  preserves (guarded
               (store_related (fun s s' => map erase_content s'
                                           = map erase_content s))
               (on_stores (fun s s' => map erase_content s'
                                       = map erase_content s)))
    (poll_loop env polls operation).
Proof.
  induction polls as [| r polls IH]; intro operation; cbn [poll_loop];
    shape_steps. apply IH.
Qed.

Lemma chat_shape env w c :
  chat (app w) = Some c ->
  map erase_content
    (messages (app (snd (sendChatMessage env (app w) (trim (input (app w)))
                           (imageFile (app w)) (dispatch_frame env w)))))
  = map erase_content (opened_store env w).
Proof.
  intro Hc. rewrite (sendChatMessage_resumes env w c Hc).
  match goal with
  | |- context [snd (?k (idle ?W ?acc))] =>
      apply (guarded_from_idle
               (store_related (fun s s' => map erase_content s'
                                           = map erase_content s))
               (on_stores (fun s s' => map erase_content s'
                                       = map erase_content s))
               k (idle W acc)); [| reflexivity]
  end.
  unfold chatResumed, chatFailure. shape_steps.
  apply same_shape_for_await.
Qed.

Lemma video_shape env w prompt :
  opens_exchange (app w) = true ->
  map erase_content
    (messages (app (snd (generateVideo env prompt (dispatch_frame env w)))))
  = map erase_content
      (append (videoDraft (assistantId env w) prompt)
         (append (userMessage env w) (messages (app w)))).
Proof.
  intro Ho. destruct (generateVideo_resumes env w prompt Ho) as (W & HW & ->).
  assert (E : map erase_content (messages (app W)) =
              map erase_content
                (append (videoDraft (assistantId env w) prompt)
                   (append (userMessage env w) (messages (app w))))).
  { rewrite HW. unfold video_opened_store.
    destruct (aistudio env); [reflexivity |].
    apply same_shape_update. intro; reflexivity. }
  rewrite <- E.
  match goal with
  | |- context [snd (?k (idle ?W ?acc))] =>
      apply (guarded_from_idle
               (store_related (fun s s' => map erase_content s'
                                           = map erase_content s))
               (on_stores (fun s s' => map erase_content s'
                                       = map erase_content s))
               k (idle W acc)); [| reflexivity]
  end.
  unfold videoResumed, videoJob, settle, videoFailure. shape_steps.
  all: apply same_shape_poll_loop.
Qed.

Lemma submission_shape env w :
  accepted (app w) ->
  map erase_content (messages (app (step (SendMessage env) w))) =
    (map erase_content (messages (app w)) ++
     erase_content (userMessage env w) ::
     (if opens_exchange (app w)
      then [erase_content
              (assistantDraft (assistantId env (dispatch_world env w)))]
      else []))%list.
Proof.
  intro Ha. unfold opens_exchange. rewrite (step_accepted _ _ Ha).
  rewrite then_setIsLoading_messages.
  destruct (startsWith (toLowerCase (trim (input (app w)))) "/video ")
    eqn:Hv.
  - rewrite (video_shape env w _ (opens_exchange_video _ Hv)).
    cbn [orb]. unfold append. now rewrite !map_app, <- app_assoc.
  - destruct (chat (app w)) as [c |] eqn:Hc.
    + rewrite (chat_shape env w c Hc). cbn [orb].
      unfold opened_store, append. now rewrite !map_app, <- app_assoc.
    + rewrite (userMessage_unopened env w (opens_exchange_neither _ Hv Hc)).
      unfold sendChatMessage. rewrite Hc. cbn.
      unfold append. now rewrite map_app.
Qed.

(** X13: an accepted submission, however it ends, adds to the store the
    user Message and, unless the chat session is missing, one assistant
    Message, and nothing else; it changes neither the id, the sender nor
    the image preview of any message, old or new. *)
Theorem submission_adds_user_and_one_assistant_message
  (env : Env) (w : World) :
  accepted (app w) ->
  let w' := step (SendMessage env) w in
  let answered :=
    startsWith (toLowerCase (trim (input (app w)))) "/video "
    || match chat (app w) with Some _ => true | None => false end in
  map erase_content (messages (app w')) =
    (map erase_content (messages (app w)) ++
     erase_content (userMessage env w) ::
     (if answered
      then [erase_content
              (assistantDraft (assistantId env (dispatch_world env w)))]
      else []))%list /\
  List.length (messages (app w')) =
    List.length (messages (app w)) + (if answered then 2 else 1).
Proof.
  intros Ha w' answered.
  pose proof (submission_shape env w Ha) as E.
  fold w' in E. change (opens_exchange (app w)) with answered in E.
  split; [exact E |].
  apply (f_equal (@List.length _)) in E.
  rewrite length_map, length_app, length_map in E. rewrite E.
  destruct answered; cbn; lia.
Qed.

(** ** What a submission leaves alone *)

(** The messages with another id than [id] are where and what they were. *)
Lemma untouched_refl id (s : list Message.t) :
  forall i m, nth_error s i = Some m -> Message.id m <> id ->
              nth_error s i = Some m.
Proof. intros i m H _. exact H. Qed.

Lemma untouched_trans id (s1 s2 s3 : list Message.t) :
  (forall i m, nth_error s1 i = Some m -> Message.id m <> id ->
               nth_error s2 i = Some m) ->
  (forall i m, nth_error s2 i = Some m -> Message.id m <> id ->
               nth_error s3 i = Some m) ->
  forall i m, nth_error s1 i = Some m -> Message.id m <> id ->
              nth_error s3 i = Some m.
Proof. intros H1 H2 i m H N. apply H2; [apply H1 |]; assumption. Qed.

Lemma untouched_update id g s i m :
  nth_error s i = Some m -> Message.id m <> id ->
  nth_error (updateById id g s) i = Some m.
Proof.
  intros H N. unfold updateById. rewrite nth_error_map, H. cbn.
  destruct (String.eqb_spec (Message.id m) id); [contradiction | reflexivity].
Qed.

Lemma untouched_append (m0 : Message.t) s i m :
  nth_error s i = Some m -> nth_error (append m0 s) i = Some m.
Proof.
  intro H. unfold append. rewrite nth_error_app1; [exact H |].
  apply nth_error_Some. congruence.
Qed.

Ltac untouched_steps id :=
  stores_steps (untouched_refl id) (untouched_trans id);
  try (intros ? ? ? ? ? ? ?; cbn [updater_fn];
       first [now apply untouched_update | now apply untouched_append]).

Lemma untouched_for_await env id cs fin :
  preserves (guarded
               (store_related (fun s s' => forall i m,
                  nth_error s i = Some m -> Message.id m <> id ->
                  nth_error s' i = Some m))
               (on_stores (fun s s' => forall i m,
                  nth_error s i = Some m -> Message.id m <> id ->
                  nth_error s' i = Some m)))
    (for_await env id cs fin).
Proof.
  induction cs as [| c cs IH]; cbn [for_await].
  - untouched_steps id.
  - untouched_steps id. all: apply IH.
Qed.

Lemma untouched_poll_loop env id polls : forall operation,
  preserves (guarded
               (store_related (fun s s' => forall i m,
                  nth_error s i = Some m -> Message.id m <> id ->
                  nth_error s' i = Some m))
               (on_stores (fun s s' => forall i m,
                  nth_error s i = Some m -> Message.id m <> id ->
                  nth_error s' i = Some m)))
    (poll_loop env polls operation).
Proof.
  induction polls as [| r polls IH]; intro operation; cbn [poll_loop];
    untouched_steps id. apply IH.
Qed.

(** The Chat Protocol, from its first render on. *)
Lemma untouched_chatResumed env id :
  preserves (guarded
               (store_related (fun s s' => forall i m,
                  nth_error s i = Some m -> Message.id m <> id ->
                  nth_error s' i = Some m))
               (on_stores (fun s s' => forall i m,
                  nth_error s i = Some m -> Message.id m <> id ->
                  nth_error s' i = Some m)))
    (async env (try_catch (chatResumed env id) (chatFailure id))).
Proof.
  unfold chatResumed, chatFailure. untouched_steps id.
  apply untouched_for_await.
Qed.

Lemma untouched_chatJob env id prompt file :
  preserves (guarded
               (store_related (fun s s' => forall i m,
                  nth_error s i = Some m -> Message.id m <> id ->
                  nth_error s' i = Some m))
               (on_stores (fun s s' => forall i m,
                  nth_error s i = Some m -> Message.id m <> id ->
                  nth_error s' i = Some m)))
    (async env (try_catch (chatJob env id prompt file) (chatFailure id))).
Proof.
  unfold chatJob, chatFailure. untouched_steps id.
  apply untouched_for_await.
Qed.

Lemma untouched_videoResumed env id prompt :
  preserves (guarded
               (store_related (fun s s' => forall i m,
                  nth_error s i = Some m -> Message.id m <> id ->
                  nth_error s' i = Some m))
               (on_stores (fun s s' => forall i m,
                  nth_error s i = Some m -> Message.id m <> id ->
                  nth_error s' i = Some m)))
    (async env (try_catch (videoResumed env id prompt) (videoFailure id))).
Proof.
  unfold videoResumed, videoJob, settle, videoFailure. untouched_steps id.
  all: apply untouched_poll_loop.
Qed.

Lemma untouched_videoJob env id prompt :
  preserves (guarded
               (store_related (fun s s' => forall i m,
                  nth_error s i = Some m -> Message.id m <> id ->
                  nth_error s' i = Some m))
               (on_stores (fun s s' => forall i m,
                  nth_error s i = Some m -> Message.id m <> id ->
                  nth_error s' i = Some m)))
    (async env (try_catch (keySelection env id ;; videoJob env id prompt)
                  (videoFailure id))).
Proof.
  unfold keySelection, videoJob, settle, videoFailure. untouched_steps id.
  all: apply untouched_poll_loop.
Qed.

(** The updaters that wait when a protocol has queued its draft append
    messages. *)
Lemma untouched_drafts id (a : AppState) (draft : Message.t) :
  Forall (store_related (fun s s' => forall i m,
            nth_error s i = Some m -> Message.id m <> id ->
            nth_error s' i = Some m))
    [userUpdater a; Pure (append draft)].
Proof.
  repeat constructor; intros now acc s i m H _; cbn [updater_fn userUpdater];
    now apply untouched_append.
Qed.

Lemma untouched_dispatch env w :
  accepted (app w) ->
  others_untouched (assistantId env (dispatch_world env w))
    w (step (SendMessage env) w).
Proof.
  intro Ha. rewrite (step_accepted _ _ Ha).
  intros i m H N. rewrite then_setIsLoading_messages.
  destruct (startsWith (toLowerCase (trim (input (app w)))) "/video ").
  - rewrite generateVideo_unfold.
    destruct (untouched_videoJob env
                (assistantId env (dispatch_world env w))
                (trim (substring 7 (trim (input (app w)))))
                (drafted_frame env (dispatch_frame env w)
                   (trim (substring 7 (trim (input (app w))))))
                (untouched_drafts _ _ _)) as [_ S].
    exact (S i m H N).
  - destruct (chat (app w)) as [c |] eqn:Hc.
    + rewrite (sendChatMessage_unfold env _ _ _ _ c Hc).
      destruct (untouched_chatJob env
                  (assistantId env (dispatch_world env w))
                  (trim (input (app w))) (imageFile (app w))
                  (chat_drafted_frame env (dispatch_frame env w)
                     (trim (input (app w))) (imageFile (app w)))
                  (untouched_drafts _ _ _)) as [_ S].
      exact (S i m H N).
    + unfold sendChatMessage. rewrite Hc. cbn.
      now apply untouched_append.
Qed.

(** X14: an accepted submission rewrites only messages that carry the id
    of its assistant Message: every earlier message with another id is,
    after the submission and however it ends, where it was and what it
    was. *)
Theorem submission_leaves_other_messages_alone
  (env : Env) (w : World) (i : nat) (m : Message.t) :
  accepted (app w) ->
  nth_error (messages (app w)) i = Some m ->
  Message.id m <> assistantId env (dispatch_world env w) ->
  nth_error (messages (app (step (SendMessage env) w))) i = Some m.
Proof.
  intros Ha H N. exact (untouched_dispatch env w Ha i m H N).
Qed.

(** ** Ids *)

Lemma to_int_not_nil n :
  Z.to_int n <> Decimal.Pos Decimal.Nil /\ Z.to_int n <> Decimal.Neg Decimal.Nil.
Proof.
  destruct n as [| p | p]; cbn; split; try discriminate;
    intro H; inversion H as [E];
    exact (DecimalPos.Unsigned.to_uint_nonnil p E).
Qed.

Lemma toString_inj a b : toString a = toString b -> a = b.
Proof.
  unfold toString. intro H.
  apply (f_equal NilZero.int_of_string) in H.
  destruct (to_int_not_nil a) as [A1 A2], (to_int_not_nil b) as [B1 B2].
  rewrite !NilZero.isi in H by assumption.
  inversion H as [E]. now apply DecimalZ.to_int_inj.
Qed.

(** The user Message is in the store when the first [await] of the
    protocol resumes, and from then on only messages with the id of the
    assistant Message are rewritten. *)
Lemma user_message_stays env w :
  accepted (app w) ->
  Message.id (userMessage env w) <> assistantId env w ->
  nth_error (messages (app (step (SendMessage env) w)))
    (List.length (messages (app w))) = Some (userMessage env w).
Proof.
  intros Ha N. rewrite (step_accepted _ _ Ha), then_setIsLoading_messages.
  destruct (startsWith (toLowerCase (trim (input (app w)))) "/video ") eqn:Hv.
  - destruct (generateVideo_resumes env w
                (trim (substring 7 (trim (input (app w)))))
                (opens_exchange_video _ Hv)) as (W & HW & ->).
    destruct (untouched_videoResumed env (assistantId env w)
                (trim (substring 7 (trim (input (app w)))))
                (idle W "") (Forall_nil _)) as [_ S].
    apply S; [| exact N]. cbn [idle world]. rewrite HW.
    unfold video_opened_store.
    assert (U : nth_error
                  (append (videoDraft (assistantId env w)
                             (trim (substring 7 (trim (input (app w))))))
                     (append (userMessage env w) (messages (app w))))
                  (List.length (messages (app w)))
                = Some (userMessage env w))
      by apply untouched_append, nth_error_append_last.
    destruct (aistudio env); [exact U |].
    now apply untouched_update.
  - destruct (chat (app w)) as [c |] eqn:Hc.
    + rewrite (sendChatMessage_resumes env w c Hc).
      destruct (untouched_chatResumed env (assistantId env w)
                  (idle (streaming_world env w []) "") (Forall_nil _))
        as [_ S].
      apply S; [| exact N]. apply opened_store_user.
    + rewrite (userMessage_unopened env w (opens_exchange_neither _ Hv Hc)).
      unfold sendChatMessage. rewrite Hc. cbn.
      apply nth_error_append_last.
Qed.

(** X15: the id of a message tells the clock reading it was made from:
    two readings give the same id only if they are equal.  The user
    Message gets its id when React runs its updater, which is after the
    protocol has read the clock for the id of the assistant Message, that
    reading plus one.  Hence, unless the clock has advanced by exactly one
    between the two readings, the two Messages have different ids, and
    the user Message stays in the store exactly as it was appended,
    however the submission ends. *)
Theorem user_message_is_never_rewritten (env : Env) (w : World) :
  accepted (app w) ->
  (dateNow env (userReading w) <> dateNow env (ndate w) + 1)%Z ->
  Message.id (userMessage env w) <> assistantId env (dispatch_world env w) /\
  nth_error (messages (app (step (SendMessage env) w)))
    (List.length (messages (app w))) = Some (userMessage env w).
Proof.
  intros Ha Hclock.
  assert (N : Message.id (userMessage env w) <> assistantId env w).
  { unfold userMessage, assistantId. cbn [Message.id].
    intro E. apply toString_inj in E. contradiction. }
  split; [exact N | now apply user_message_stays].
Qed.

(** The message at the user Message's position while the stream delivers,
    when the two ids are equal: it is still the user's, with that id. *)
Lemma streaming_world_user env w cs :
  Message.id (userMessage env w) = assistantId env w ->
  exists m,
    nth_error (messages (app (streaming_world env w cs)))
      (List.length (messages (app w))) = Some m /\
    Message.id m = assistantId env w /\ Message.sender m = user /\
    Message.imagePreview m = imagePreview (app w).
Proof.
  intro E. rewrite streaming_world_messages, streamed_last.
  destruct (written "" 0 cs) as [| t texts].
  - exists (userMessage env w). split; [apply opened_store_user |].
    split; [exact E | split; reflexivity].
  - eexists. split.
    + apply nth_error_updateById; [apply opened_store_user | exact E].
    + split; [exact E | split; reflexivity].
Qed.

(** X28: when the clock has advanced by exactly one between the reading
    that gives the assistant Message its id and the later reading, in the
    updater React runs, that gives the user Message its id, the two
    Messages have the same id, and the updates by id of the Chat Protocol
    rewrite the user Message too: after a stream that ends normally the
    user Message is still the user's, with its image preview, but its
    text is the reply, the whole accumulated text. *)
Theorem user_message_is_rewritten_when_ids_collide
  (env : Env) (w : World) (c : Chat) (stream : ChatStream) :
  accepted (app w) ->
  startsWith (toLowerCase (trim (input (app w)))) "/video " = false ->
  chat (app w) = Some c ->
  sendMessageStream env = Returns stream ->
  ending stream = Exhausted ->
  (dateNow env (S (ndate w)) = dateNow env (ndate w) + 1)%Z ->
  Message.id (userMessage env w) = assistantId env (dispatch_world env w) /\
  exists m,
    nth_error (messages (app (step (SendMessage env) w)))
      (List.length (messages (app w))) = Some m /\
    Message.sender m = user /\
    Message.imagePreview m = imagePreview (app w) /\
    Message.text m = joined (chunks stream) /\
    Message.isLoading m = Some false.
Proof.
  intros Ha Hv Hc Hs He Hclock.
  assert (E : Message.id (userMessage env w) = assistantId env w).
  { rewrite (userMessage_opened env w (opens_exchange_chat _ _ Hc)).
    unfold assistantId. cbn [Message.id]. now rewrite Hclock. }
  split; [exact E |].
  destruct (streaming_world_user env w (chunks stream) E)
    as (m & Hm & Ei & Eu & Ep).
  rewrite (chat_step env w c stream Ha Hv Hc Hs), He. cbv zeta.
  cbn [snd setIsLoading modify_app on_world idle world app messages
       write_store add_events].
  exists (chat_completed (joined (chunks stream)) m). split.
  - apply nth_error_updateById; [exact Hm | exact Ei].
  - repeat split; assumption.
Qed.

(** ** The send button and the guard *)

Lemma sendDisabled_rejected a : sendDisabled a = true <-> rejected a.
Proof.
  unfold sendDisabled, rejected. split.
  - intro H. apply orb_true_iff in H. destruct H as [H | H]; [now left |].
    apply andb_true_iff in H. destruct H as [H1 H2]. right. split.
    + apply negb_true_iff in H1. now destruct (trim (input a)).
    + now destruct (imageFile a).
  - apply guard_rejected.
Qed.

Lemma sendDisabled_accepted a : sendDisabled a = false <-> accepted a.
Proof.
  split; [| apply guard_accepted].
  unfold sendDisabled, accepted. intro H.
  apply orb_false_iff in H. destruct H as [H1 H2]. split; [exact H1 |].
  apply andb_false_iff in H2. destruct H2 as [H2 | H2].
  - left. apply negb_false_iff in H2. intro E. rewrite E in H2. discriminate.
  - right. destruct (imageFile a); [discriminate | discriminate].
Qed.

(** ** No message is left loading *)

Lemma loading_only_update id id' g s :
  (forall m, Message.id (g m) = Message.id m) ->
  (forall m, Message.isLoading (g m) = Some true ->
             Message.isLoading m = Some true) ->
  Forall (fun m => Message.isLoading m = Some true -> Message.id m = id) s ->
  Forall (fun m => Message.isLoading m = Some true -> Message.id m = id)
    (updateById id' g s).
Proof.
  intros Hid Hl H. unfold updateById.
  apply Forall_map. eapply Forall_impl; [| exact H]. intros m Hm.
  destruct (String.eqb (Message.id m) id'); [| exact Hm].
  intro L. rewrite Hid. apply Hm. now apply Hl.
Qed.

Lemma loading_only_append id m s :
  (Message.isLoading m = Some true -> Message.id m = id) ->
  Forall (fun m => Message.isLoading m = Some true -> Message.id m = id) s ->
  Forall (fun m => Message.isLoading m = Some true -> Message.id m = id)
    (append m s).
Proof.
  intros Hm H. unfold append. apply Forall_app. split; [exact H |].
  now constructor.
Qed.

Lemma none_loading_update id g s :
  (forall m, Message.isLoading (g m) <> Some true) ->
  Forall (fun m => Message.isLoading m = Some true -> Message.id m = id) s ->
  Forall (fun m => Message.isLoading m <> Some true) (updateById id g s).
Proof.
  intros Hg H. unfold updateById.
  apply Forall_map. eapply Forall_impl; [| exact H]. intros m Hm.
  destruct (String.eqb_spec (Message.id m) id) as [E | N]; [apply Hg |].
  intro L. apply N. now apply Hm.
Qed.

Lemma none_loading_only id s :
  Forall (fun m => Message.isLoading m <> Some true) s ->
  Forall (fun m : Message.t => Message.isLoading m = Some true
                               -> Message.id m = id) s.
Proof.
  intro H. eapply Forall_impl; [| exact H]. intros m N L. contradiction.
Qed.

(** Rendering a frame that has the invariant leaves no message loading
    but those with id [id]. *)
Lemma loading_invariant_rendered env id (f : Frame) :
  loading_invariant id f -> loading_only id (rendered env f).
Proof.
  destruct f as [w q acc]. unfold loading_invariant, loading_only.
  cbn [world queue rendered accumulatedText]. revert w.
  induction q as [| u q IH]; intros w [Hs Hq]; [exact Hs |].
  inversion Hq as [| ? ? Hu Hq']; subst. cbn [fold_left]. apply IH.
  split; [| exact Hq'].
  pose proof (Hu (dateNow env (ndate w)) acc (messages (app w)) Hs) as St.
  destruct u; exact St.
Qed.

Lemma loading_on_world id g :
  (forall w, messages (app (g w)) = messages (app w)) ->
  preserves (keeps (loading_invariant id)) (on_world g).
Proof.
  intros Hg f [Hs Hq]. split; [| exact Hq].
  unfold loading_only in *. cbn. now rewrite Hg.
Qed.

Lemma loading_Date_now id env :
  preserves (keeps (loading_invariant id)) (Date_now env).
Proof. intros f H. exact H. Qed.

Lemma loading_setMessages id u :
  keeps_loading_only id u ->
  preserves (keeps (loading_invariant id)) (setMessages u).
Proof.
  intros Hu f [Hs Hq]. split; [exact Hs |].
  cbn. apply Forall_app. split; [exact Hq | now constructor].
Qed.

Lemma loading_render id env :
  preserves (keeps (loading_invariant id)) (render env).
Proof.
  intros f H. split; [| constructor].
  apply (loading_invariant_rendered env id f H).
Qed.

Lemma loading_accumulatedText id (c : M unit) :
  (forall f, world (snd (c f)) = world f /\ queue (snd (c f)) = queue f) ->
  preserves (keeps (loading_invariant id)) c.
Proof.
  intros Hc f [Hs Hq]. destruct (Hc f) as [E1 E2].
  unfold loading_invariant, loading_only. now rewrite E1, E2.
Qed.

Lemma keeps_loading_update id id' g :
  (forall m, Message.id (g m) = Message.id m) ->
  (forall m, Message.isLoading (g m) = Some true ->
             Message.isLoading m = Some true) ->
  keeps_loading_only id (Pure (updateById id' g)).
Proof. intros Hid Hl now acc s. now apply loading_only_update. Qed.

Ltac loading_steps :=
  unfold_setters;
  match goal with
  | |- preserves (keeps ?I) _ => handler_steps (keeps_refl I) (keeps_trans I)
  end;
  try match goal with
    | |- preserves _ (render _) => apply loading_render
    | |- preserves _ (Date_now _) => apply loading_Date_now
    | |- preserves _ (emit _) => apply loading_on_world; intro; reflexivity
    | |- preserves _ (let_accumulatedText _) =>
        apply loading_accumulatedText; intro; split; reflexivity
    | |- preserves _ (add_accumulatedText _) =>
        apply loading_accumulatedText; intro; split; reflexivity
    | |- preserves _ (setMessages _) =>
        apply loading_setMessages; intros ? ? ?; cbn [updater_fn];
        apply loading_only_update;
        [intro; reflexivity | intro; exact (fun H => H)]
    end.

Lemma loading_for_await env id id' cs fin :
  preserves (keeps (loading_invariant id)) (for_await env id' cs fin).
Proof.
  induction cs as [| c cs IH]; cbn [for_await].
  - loading_steps.
  - loading_steps. all: apply IH.
Qed.

Lemma loading_poll_loop env id polls : forall operation,
  preserves (keeps (loading_invariant id)) (poll_loop env polls operation).
Proof.
  induction polls as [| r polls IH]; intro operation; cbn [poll_loop];
    loading_steps. apply IH.
Qed.

Lemma loading_keySelection id env :
  preserves (keeps (loading_invariant id)) (keySelection env id).
Proof. unfold keySelection. loading_steps. Qed.

Section OkPost.

Variables I J : Frame -> Prop.

Lemma okpost_bind {A B} (c : M A) (k : A -> M B) :
  preserves (keeps I) c -> (forall a, okpost I J (k a)) ->
  okpost I J (bind c k).
Proof.
  intros Hc Hk f Hf. unfold bind. specialize (Hc f Hf).
  destruct (c f) as [[a | e |] f1]; cbn in *.
  - apply Hk. exact Hc.
  - split; [exact Hc | discriminate].
  - split; [exact Hc | discriminate].
Qed.

Lemma okpost_try_catch {A} (body : M A) (handler : Thrown -> M A) :
  okpost I J body -> (forall e, okpost I J (handler e)) ->
  okpost I J (try_catch body handler).
Proof.
  intros Hb Hh f Hf. unfold try_catch. specialize (Hb f Hf).
  destruct (body f) as [[a | e |] f1]; cbn in *.
  - exact Hb.
  - apply Hh. apply Hb.
  - exact Hb.
Qed.

Lemma okpost_throw {A} e : okpost I J (@throw A e).
Proof. intros f Hf. split; [exact Hf | discriminate]. Qed.

Lemma okpost_leaf (c : M unit) :
  (forall f, I f -> I (snd (c f)) /\ J (snd (c f))) -> okpost I J c.
Proof. intros H f Hf. destruct (H f Hf). split; auto. Qed.

End OkPost.

(** An update that clears the loading flag of the messages with id [id]
    settles the store. *)
Lemma settles_update env id u :
  (forall now acc s,
     Forall (fun m => Message.isLoading m = Some true -> Message.id m = id) s ->
     Forall (fun m => Message.isLoading m <> Some true) (updater_fn u now acc s)) ->
  okpost (loading_invariant id) (settled env) (setMessages u).
Proof.
  intro Hu. apply okpost_leaf. intros f Hf. split.
  - apply loading_setMessages; [| exact Hf].
    intros now acc s Hs. apply none_loading_only. now apply Hu.
  - pose proof (loading_invariant_rendered env id f Hf) as R.
    unfold settled, none_loading, loading_only in *.
    cbn [setMessages snd rendered world queue accumulatedText].
    rewrite fold_left_app. cbn [fold_left].
    change (fold_left (run_updater env (accumulatedText f)) (queue f) f)
      with (world (rendered env f)).
    set (w1 := world (rendered env f)) in *.
    pose proof (Hu (dateNow env (ndate w1)) (accumulatedText f)
                  (messages (app w1)) R) as St.
    destruct u; exact St.
Qed.

Ltac settling :=
  apply settles_update; intros ? ? ? ?; cbn [updater_fn];
  apply none_loading_update; [intro; discriminate | assumption].

Lemma okpost_settle env id operation :
  okpost (loading_invariant id) (settled env) (settle env id operation).
Proof.
  unfold settle.
  destruct (Operation.error operation); [apply okpost_throw |].
  destruct (downloadLink operation) as [link |]; [| apply okpost_throw].
  destruct (truthy link); [| apply okpost_throw].
  settling.
Qed.

Lemma okpost_video env prompt id :
  okpost (loading_invariant id) (settled env)
    (try_catch (keySelection env id;; videoJob env id prompt) (videoFailure id)).
Proof.
  apply okpost_try_catch.
  - apply okpost_bind; [apply loading_keySelection | intros _].
    unfold videoJob.
    apply okpost_bind; [loading_steps | intros _].
    apply okpost_bind; [loading_steps | intros _].
    apply okpost_bind; [loading_steps | intro op0].
    apply okpost_bind; [apply loading_poll_loop | intro op].
    apply okpost_settle.
  - intro e. unfold videoFailure.
    apply okpost_bind; [loading_steps | intros _].
    settling.
Qed.

Lemma okpost_chat env prompt file id :
  okpost (loading_invariant id) (settled env)
    (try_catch (chatJob env id prompt file) (chatFailure id)).
Proof.
  apply okpost_try_catch.
  - unfold chatJob.
    apply okpost_bind; [loading_steps | intros _].
    apply okpost_bind; [loading_steps | intro stream].
    apply okpost_bind; [loading_steps | intros _].
    apply okpost_bind; [apply loading_for_await | intros _].
    settling.
  - intro e. unfold chatFailure.
    apply okpost_bind; [loading_steps | intros _].
    settling.
Qed.

(** The frame in which a protocol has queued its draft has the
    invariant. *)
Lemma drafted_loading_invariant id (w W : World) a (draft : Message.t) acc :
  none_loading w -> messages (app W) = messages (app w) ->
  Message.id draft = id ->
  loading_invariant id
    {| world := W; queue := [userUpdater a; Pure (append draft)];
       accumulatedText := acc |}.
Proof.
  intros H E Hd. split.
  - unfold loading_only. cbn. rewrite E. now apply none_loading_only.
  - repeat constructor; intros now acc' s Hs; cbn [updater_fn userUpdater];
      apply loading_only_append; auto. discriminate.
Qed.

Lemma quiet_step a w :
  match a with
  | SendMessage _ => True
  | _ => isLoading (app (step a w)) = isLoading (app w) /\
         messages (app (step a w)) = messages (app w)
  end.
Proof.
  destruct a as [created | v | file | | | | e | t | env]; cbn; auto.
  - destruct created; cbn; auto.
  - destruct file as [[f url] |]; cbn; auto.
Qed.

Lemma blocked_stays_busy env w :
  accepted (app w) ->
  fst (handleSendMessage env (app w) w) = Blocked ->
  isLoading (app (step (SendMessage env) w)) = true.
Proof.
  intros Ha Hb. rewrite (step_accepted _ _ Ha).
  rewrite (handleSendMessage_accepted _ _ Ha) in Hb.
  unfold async, bind in *.
  assert (Q : Forall any_updater (queue (dispatch_frame env w)))
    by (repeat constructor).
  destruct (startsWith (toLowerCase (trim (input (app w)))) "/video ").
  - pose proof (same_busy_generateVideo env
                  (trim (substring 7 (trim (input (app w)))))
                  (dispatch_frame env w) Q) as [_ S].
    destruct (generateVideo env _ (dispatch_frame env w)) as [[[] | e |] f1];
      cbn in *; try discriminate. exact S.
  - pose proof (same_busy_sendChatMessage env (app w) (trim (input (app w)))
                  (imageFile (app w)) (dispatch_frame env w) Q) as [_ S].
    destruct (sendChatMessage env _ _ _ (dispatch_frame env w))
      as [[[] | e |] f1]; cbn in *; try discriminate. exact S.
Qed.

Lemma then_setIsLoading_returns (c : M unit) v (f : Frame) :
  fst ((c ;; setIsLoading v) f) = Ok tt -> fst (c f) = Ok tt.
Proof. unfold bind. destruct (c f) as [[[] | e |] f1]; cbn; congruence. Qed.

Lemma async_returns env {A} (c : M A) (f : Frame) :
  fst (async env c f) = fst (c f).
Proof. unfold async. now destruct (c f). Qed.

Lemma async_world env {A} (c : M A) (f : Frame) :
  snd (async env c f) = rendered env (snd (c f)).
Proof. unfold async. now destruct (c f). Qed.

Lemma submission_settles env w :
  accepted (app w) -> none_loading w ->
  fst (handleSendMessage env (app w) w) = Ok tt ->
  none_loading (step (SendMessage env) w).
Proof.
  intros Ha H Hr. rewrite (step_accepted _ _ Ha).
  rewrite (handleSendMessage_accepted _ _ Ha), async_returns in Hr.
  apply then_setIsLoading_returns in Hr.
  unfold none_loading. rewrite then_setIsLoading_messages.
  destruct (startsWith (toLowerCase (trim (input (app w)))) "/video ").
  - rewrite generateVideo_unfold, async_returns in Hr.
    rewrite generateVideo_unfold, async_world.
    refine (proj2 (okpost_video env _ _ _ _) tt Hr).
    apply (drafted_loading_invariant _ w); [exact H | reflexivity..].
  - destruct (chat (app w)) as [c |] eqn:Hc.
    + rewrite (sendChatMessage_unfold env _ _ _ _ c Hc), async_returns in Hr.
      rewrite (sendChatMessage_unfold env _ _ _ _ c Hc), async_world.
      refine (proj2 (okpost_chat env _ _ _ _ _) tt Hr).
      apply (drafted_loading_invariant _ w); [exact H | reflexivity..].
    + unfold sendChatMessage. rewrite Hc. cbn.
      unfold append. apply Forall_app. split; [exact H |].
      repeat constructor. discriminate.
Qed.

Lemma handleSendMessage_never_raises_or env w :
  fst (handleSendMessage env (app w) w) = Ok tt \/
  fst (handleSendMessage env (app w) w) = Blocked.
Proof.
  pose proof (never_raises_handleSendMessage env (app w) w) as H.
  destruct (fst (handleSendMessage env (app w) w)) as [[] | e |]; auto.
  now destruct (H e).
Qed.

Lemma idle_invariant_step a w :
  (isLoading (app w) = false -> none_loading w) ->
  isLoading (app (step a w)) = false -> none_loading (step a w).
Proof.
  intros Inv. pose proof (quiet_step a w) as Q.
  destruct a as [created | v | file | | | | e | t | env];
    try (unfold none_loading in *;
         rewrite (proj1 Q), (proj2 Q); exact Inv).
  clear Q. destruct (sendDisabled (app w)) eqn:G.
  - apply sendDisabled_rejected in G.
    assert (E : step (SendMessage env) w = w).
    { unfold step, handleSendMessage, async.
      now rewrite (guard_rejected _ G). }
    rewrite E. exact Inv.
  - apply sendDisabled_accepted in G. intro Hidle.
    destruct (handleSendMessage_never_raises_or env w) as [Hr | Hb].
    + apply (submission_settles env w G); [| exact Hr].
      apply Inv. apply G.
    + rewrite (blocked_stays_busy env w G Hb) in Hidle. discriminate.
Qed.

Lemma idle_invariant actions : forall w,
  (isLoading (app w) = false -> none_loading w) ->
  isLoading (app (run_from w actions)) = false ->
  none_loading (run_from w actions).
Proof.
  induction actions as [| a actions IH]; intros w Inv; [exact Inv |].
  cbn [run_from fold_left]. fold (run_from (step a w) actions).
  apply IH. now apply idle_invariant_step.
Qed.

(** X16: in every session, whenever the app is not busy no message of the
    store is marked loading: a submission that returns has cleared the
    loading flag of every message it had set it on, on success and on
    failure alike. *)
Theorem idle_app_has_no_loading_message (actions : list Action) :
  isLoading (app (run actions)) = false ->
  Forall (fun m => Message.isLoading m <> Some true)
    (messages (app (run actions))).
Proof.
  apply (idle_invariant actions initialWorld).
  intros _. unfold none_loading. cbn. repeat constructor. discriminate.
Qed.

(** ** State variables the protocols do not write *)

Section SameOn.

Context {T : Type} (proj : AppState -> T).

Lemma same_on_refl w : same_on proj w w.
Proof. reflexivity. Qed.

Lemma same_on_trans w1 w2 w3 :
  same_on proj w1 w2 -> same_on proj w2 w3 -> same_on proj w1 w3.
Proof. unfold same_on. congruence. Qed.

End SameOn.

Lemma chat_run env acc w u :
  any_updater u -> same_on chat w (run_updater env acc w u).
Proof. intros _. destruct u; reflexivity. Qed.

Lemma staged_run env acc w u :
  any_updater u -> same_on staged w (run_updater env acc w u).
Proof. intros _. destruct u; reflexivity. Qed.

Ltac same_on_steps run :=
  match goal with
  | |- preserves (guarded _ (same_on ?p)) _ =>
      guarded_steps (same_on_refl p) (same_on_trans p) run;
      try match goal with
        | |- preserves _ (emit _) =>
            apply guarded_on_world; intro; reflexivity
        | |- preserves _ (modify_app _) =>
            apply guarded_on_world; intro; reflexivity
        | |- preserves _ (Date_now _) =>
            apply guarded_Date_now; intro; reflexivity
        | |- preserves _ (setMessages _) =>
            apply guarded_setMessages; [apply same_on_refl | exact Logic.I]
        end
  end.

Lemma chat_kept_for_await env id cs fin :
  preserves (guarded any_updater (same_on chat)) (for_await env id cs fin).
Proof.
  induction cs as [| c cs IH]; cbn [for_await].
  - same_on_steps chat_run.
  - same_on_steps chat_run. all: apply IH.
Qed.

Lemma chat_kept_poll_loop env polls : forall operation,
  preserves (guarded any_updater (same_on chat))
    (poll_loop env polls operation).
Proof.
  induction polls as [| r polls IH]; intro operation; cbn [poll_loop];
    same_on_steps chat_run. apply IH.
Qed.

Lemma chat_kept_handleSendMessage env props :
  preserves (guarded any_updater (same_on chat)) (handleSendMessage env props).
Proof.
  unfold handleSendMessage, generateVideo, sendChatMessage.
  same_on_steps chat_run.
  all: first [apply chat_kept_poll_loop | apply chat_kept_for_await].
Qed.

Lemma staged_kept_for_await env id cs fin :
  preserves (guarded any_updater (same_on staged)) (for_await env id cs fin).
Proof.
  induction cs as [| c cs IH]; cbn [for_await].
  - same_on_steps staged_run.
  - same_on_steps staged_run. all: apply IH.
Qed.

Lemma staged_kept_poll_loop env polls : forall operation,
  preserves (guarded any_updater (same_on staged))
    (poll_loop env polls operation).
Proof.
  induction polls as [| r polls IH]; intro operation; cbn [poll_loop];
    same_on_steps staged_run. apply IH.
Qed.

Lemma staged_kept_sendChatMessage env props prompt file :
  preserves (guarded any_updater (same_on staged))
    (sendChatMessage env props prompt file).
Proof.
  unfold sendChatMessage. same_on_steps staged_run.
  apply staged_kept_for_await.
Qed.

Lemma staged_kept_generateVideo env prompt :
  preserves (guarded any_updater (same_on staged)) (generateVideo env prompt).
Proof.
  unfold generateVideo. same_on_steps staged_run.
  all: apply staged_kept_poll_loop.
Qed.

Lemma then_setIsLoading_staged (c : M unit) v (f : Frame) :
  staged (app (snd ((c ;; setIsLoading v) f))) = staged (app (snd (c f))).
Proof. unfold bind. destruct (c f) as [[[] | e |] f1]; reflexivity. Qed.

Lemma submission_grows env w :
  accepted (app w) ->
  List.length (messages (app w))
  < List.length (messages (app (step (SendMessage env) w))).
Proof.
  intro Ha. pose proof (submission_shape env w Ha) as E.
  apply (f_equal (@List.length _)) in E.
  rewrite length_app, !length_map in E. rewrite E. cbn [List.length]. lia.
Qed.

(** X17: the send button is disabled exactly in the states in which the
    submission handler does nothing.  When it is enabled, a submission
    clears the draft, the staged attachment and its preview, and they stay
    cleared to the end of the submission, while the store gets longer. *)
Theorem send_button_tells_what_submit_does (env : Env) (w : World) :
  let w' := step (SendMessage env) w in
  (sendDisabled (app w) = true -> w' = w) /\
  (sendDisabled (app w) = false ->
     input (app w') = "" /\ imageFile (app w') = None /\
     imagePreview (app w') = None /\
     List.length (messages (app w)) < List.length (messages (app w'))).
Proof.
  cbv zeta. split.
  - intro G. apply sendDisabled_rejected in G.
    unfold step, handleSendMessage, async.
    now rewrite (guard_rejected _ G).
  - intro G. apply sendDisabled_accepted in G.
    assert (S : staged (app (step (SendMessage env) w)) = ("", None, None)).
    { rewrite (step_accepted _ _ G), then_setIsLoading_staged.
      assert (Q : Forall any_updater (queue (dispatch_frame env w)))
        by (repeat constructor).
      destruct (startsWith (toLowerCase (trim (input (app w)))) "/video ").
      - apply (staged_kept_generateVideo env _ (dispatch_frame env w) Q).
      - apply (staged_kept_sendChatMessage env _ _ _ (dispatch_frame env w) Q). }
    unfold staged in S. inversion S as [[S1 S2 S3]].
    rewrite S1, S2, S3. repeat split. now apply submission_grows.
Qed.

Lemma chat_kept_step a w :
  is_mount a = false -> chat (app (step a w)) = chat (app w).
Proof.
  destruct a as [created | v | file | | | | e | t | env]; intro H;
    try discriminate; try reflexivity.
  - destruct file as [[f url] |]; reflexivity.
  - apply (chat_kept_handleSendMessage env (app w) (start w)).
    constructor.
Qed.

(** X18: nothing but the mount effect writes the chat session: over any
    actions that do not include a mount, the session handle is what it
    was; a session left without a handle by a failed start-up stays
    without one. *)
Theorem only_mount_sets_the_chat_session (w : World) (actions : list Action) :
  forallb (fun a => negb (is_mount a)) actions = true ->
  chat (app (run_from w actions)) = chat (app w).
Proof.
  revert w. induction actions as [| a actions IH]; intros w H; [reflexivity |].
  cbn in H. apply andb_true_iff in H. destruct H as [Ha H].
  apply negb_true_iff in Ha.
  cbn [run_from fold_left]. fold (run_from (step a w) actions).
  rewrite (IH _ H). now apply chat_kept_step.
Qed.

(** ** The chat request *)

Lemma chat_parts_nonempty prompt file :
  prompt <> "" \/ file <> None -> chat_parts prompt file <> [].
Proof.
  unfold chat_parts. intros [H | H].
  - destruct prompt; [congruence |]. destruct file; discriminate.
  - destruct file; [discriminate | congruence].
Qed.

Lemma sendChatMessage_request env props prompt file (f : Frame) c :
  chat props = Some c ->
  exists rest,
    since_trace f (snd (sendChatMessage env props prompt file f))
      (CallSendChatMessage prompt file ::
       SendMessageStream (chat_parts prompt file) :: rest) /\
    Forall (fun ev => is_console_error ev = true) rest.
Proof.
  intro Hc. rewrite (sendChatMessage_unfold env props prompt file f c Hc).
  set (id := assistantId env f).
  set (k := result <- await env (sendMessageStream env) ;;
            let_accumulatedText "" ;;
            for_await env id (chunks result) (ending result) ;;
            setMessages (ReadsAccumulatedText (fun accumulatedText =>
              updateById id (chat_completed accumulatedText)))).
  set (f1 := {| world := add_events (chat_drafted_frame env f prompt file)
                           [SendMessageStream (chat_parts prompt file)];
                queue := queue (chat_drafted_frame env f prompt file);
                accumulatedText := accumulatedText f |}).
  assert (P : preserves (guarded any_updater
                           (emits (fun ev => is_console_error ev = true)))
                (async env (try_catch k (chatFailure id)))).
  { unfold k, chatFailure. emits_steps. apply emits_for_await. }
  destruct (emits_from_idle _ _ f1 P) as (rest & T & F).
  exists rest. split; [| exact F].
  change (async env (try_catch (chatJob env id prompt file) (chatFailure id))
            (chat_drafted_frame env f prompt file))
    with (async env (try_catch k (chatFailure id)) f1).
  unfold since_trace in *. rewrite T. cbn. now rewrite <- !app_assoc.
Qed.

(** X19: an accepted chat submission with a chat session sends exactly one
    stream request, and never retries.  Its payload is the image part of
    the file that was staged when the submission was made, if any,
    followed by the text part of the trimmed text, if not empty; it is
    never empty. *)
Theorem chat_request_is_sent_once_with_image_then_text
  (env : Env) (w : World) (c : Chat) :
  accepted (app w) ->
  startsWith (toLowerCase (trim (input (app w)))) "/video " = false ->
  chat (app w) = Some c ->
  let userText := trim (input (app w)) in
  let parts :=
    ((match imageFile (app w) with
      | Some f => [InlineData (file_data f) (file_type f)]
      | None => []
      end) ++
     (if truthy userText then [TextPart userText] else []))%list in
  parts <> [] /\
  exists evs,
    since_trace w (step (SendMessage env) w) evs /\
    filter is_sendMessageStream evs = [SendMessageStream parts].
Proof.
  intros Ha Hv Hc userText parts.
  split; [apply (chat_parts_nonempty userText (imageFile (app w))); apply Ha |].
  unfold since_trace.
  rewrite (step_accepted _ _ Ha), Hv, then_setIsLoading_trace.
  destruct (sendChatMessage_request env (app w) userText (imageFile (app w))
              (dispatch_frame env w) c Hc) as (rest & T & F).
  eexists. split; [exact T |].
  cbn [filter is_sendMessageStream].
  rewrite filter_none; [reflexivity |].
  eapply Forall_impl; [| exact F]. intros ev H. now destruct ev.
Qed.

(** ** Trimming *)

Lemma trimEnd_blank r : all_chars isWhiteSpace r = true -> trimEnd r = "".
Proof.
  induction r as [| c r IH]; [reflexivity |]. cbn [all_chars trimEnd].
  intro H. apply andb_true_iff in H. destruct H as [Hc Hr].
  now rewrite (IH Hr), Hc.
Qed.

Lemma trimEnd_blank_suffix p r :
  all_chars isWhiteSpace r = true -> trimEnd (p ++ r) = trimEnd p.
Proof.
  intro H. induction p as [| c p IH]; [now apply trimEnd_blank |].
  cbn [String.append trimEnd]. now rewrite IH.
Qed.

Lemma trimEnd_empty s : trimEnd s = "" -> all_chars isWhiteSpace s = true.
Proof.
  induction s as [| c s IH]; [reflexivity |]. cbn [trimEnd all_chars].
  destruct (trimEnd s) as [| d t]; [| discriminate].
  destruct (isWhiteSpace c); [intros _; now rewrite IH | discriminate].
Qed.

Lemma trimStart_blank s :
  all_chars isWhiteSpace (trimStart s) = true ->
  all_chars isWhiteSpace s = true.
Proof.
  induction s as [| c s IH]; [reflexivity |]. cbn [trimStart].
  destruct (isWhiteSpace c) eqn:E; [| auto].
  intro H. cbn [all_chars]. now rewrite E, IH.
Qed.

Lemma trim_empty s : trim s = "" -> all_chars isWhiteSpace s = true.
Proof. intro H. apply trimStart_blank. now apply trimEnd_empty. Qed.

Lemma trimEnd_cons c s :
  trimEnd (String c s) =
  match trimEnd s with
  | EmptyString => if isWhiteSpace c then EmptyString else String c EmptyString
  | t => String c t
  end.
Proof. reflexivity. Qed.

Lemma trimEnd_idem s : trimEnd (trimEnd s) = trimEnd s.
Proof.
  induction s as [| c s IH]; [reflexivity |]. rewrite trimEnd_cons.
  destruct (trimEnd s) as [| d t] eqn:E.
  - destruct (isWhiteSpace c) eqn:W; [reflexivity |].
    rewrite trimEnd_cons. cbn [trimEnd]. now rewrite W.
  - rewrite trimEnd_cons, IH. reflexivity.
Qed.

Lemma trimEnd_length s : String.length (trimEnd s) <= String.length s.
Proof.
  induction s as [| c s IH]; [cbn; lia |]. cbn [trimEnd].
  destruct (trimEnd s) as [| d t].
  - destruct (isWhiteSpace c); cbn; lia.
  - cbn in *. lia.
Qed.

Lemma trimEnd_head s :
  match trimEnd s, s with
  | String d _, String c _ => d = c
  | String _ _, EmptyString => False
  | EmptyString, _ => True
  end.
Proof.
  destruct s as [| c s]; [exact Logic.I |]. cbn [trimEnd].
  destruct (trimEnd s); [destruct (isWhiteSpace c) |]; reflexivity || exact Logic.I.
Qed.

Lemma trimStart_head s :
  match trimStart s with
  | String c _ => isWhiteSpace c = false
  | EmptyString => True
  end.
Proof.
  induction s as [| c s IH]; [exact Logic.I |]. cbn [trimStart].
  destruct (isWhiteSpace c) eqn:E; [exact IH | exact E].
Qed.

(** Trimming a trimmed text changes nothing. *)
Lemma trim_idem s : trim (trim s) = trim s.
Proof.
  unfold trim at 1.
  assert (E : trimStart (trim s) = trim s).
  { unfold trim. pose proof (trimEnd_head (trimStart s)) as H.
    pose proof (trimStart_head s) as H0.
    destruct (trimEnd (trimStart s)) as [| d t]; [reflexivity |].
    destruct (trimStart s) as [| c u]; [contradiction |]. subst d.
    cbn [trimStart]. now rewrite H0. }
  rewrite E. unfold trim. apply trimEnd_idem.
Qed.

Lemma lowerChar_space c : lowerChar c = " "%char -> c = " "%char.
Proof.
  destruct c as [[] [] [] [] [] [] [] []]; vm_compute; intro H;
    first [reflexivity | discriminate].
Qed.

Lemma video_token_ends_blank token :
  toLowerCase token = "/video " ->
  exists t6, token = t6 ++ " " /\ String.length t6 = 6.
Proof.
  destruct token as [| c1 [| c2 [| c3 [| c4 [| c5 [| c6 [| c7 [| c8 t]]]]]]]];
    cbn [toLowerCase]; intro H; try discriminate.
  inversion H as [[H1 H2 H3 H4 H5 H6 H7]].
  apply lowerChar_space in H7. subst c7.
  exists (String c1 (String c2 (String c3 (String c4 (String c5 (String c6 "")))))).
  split; reflexivity.
Qed.

Lemma video_prompt_not_blank inputText remainder :
  video_command (trim inputText) remainder -> trim remainder <> "".
Proof.
  intros (token & E & L) B.
  apply trim_empty in B.
  destruct (video_token_ends_blank token L) as (t6 & -> & L6).
  assert (I : trimEnd (trim inputText) = trim inputText)
    by (unfold trim; apply trimEnd_idem).
  rewrite E in I. rewrite trimEnd_blank_suffix in I by exact B.
  rewrite (trimEnd_blank_suffix t6 " " eq_refl) in I.
  pose proof (trimEnd_length t6) as L1.
  apply (f_equal String.length) in I.
  rewrite !string_length_append in I. cbn in I. lia.
Qed.


(** X20: the prompt of a video command is never blank: when the trimmed
    text of an accepted submission starts with [/video ], the Video
    Protocol is invoked with a prompt that is not empty and has no white
    space at either end. *)
Theorem video_prompt_is_never_blank (env : Env) (w : World) :
  accepted (app w) ->
  startsWith (toLowerCase (trim (input (app w)))) "/video " = true ->
  exists prompt rest,
    since_trace w (step (SendMessage env) w)
      (CallGenerateVideo prompt :: rest) /\
    prompt <> "" /\ trim prompt = prompt.
Proof.
  intros Ha Hv.
  destruct (proj1 (video_command_iff _) Hv) as (remainder & V).
  unfold since_trace.
  rewrite (step_accepted _ _ Ha), Hv, then_setIsLoading_trace.
  rewrite (video_command_remainder _ _ V).
  destruct (generateVideo_trace env (trim remainder) (dispatch_frame env w))
    as (rest & T & _).
  exists (trim remainder), rest. split; [exact T |].
  split; [now apply (video_prompt_not_blank (input (app w))) | apply trim_idem].
Qed.

(** X21: the bare command, [/video] in any letter case with nothing but
    white space around it, is not a video command: an accepted submission
    of it is sent to the Chat Protocol as ordinary text. *)
Theorem bare_video_command_is_a_chat_message (env : Env) (w : World) :
  accepted (app w) ->
  toLowerCase (trim (input (app w))) = "/video" ->
  exists rest,
    since_trace w (step (SendMessage env) w)
      (CallSendChatMessage (trim (input (app w))) (imageFile (app w)) :: rest) /\
    Forall (fun ev => is_video_event ev = false) rest.
Proof.
  intros Ha Hb. unfold since_trace.
  rewrite (step_accepted _ _ Ha), Hb, then_setIsLoading_trace.
  cbn [startsWith Ascii.eqb Bool.eqb andb].
  destruct (sendChatMessage_trace env (app w) (trim (input (app w)))
              (imageFile (app w)) (dispatch_frame env w)) as (rest & T & F).
  exists rest. split; [exact T |].
  eapply Forall_impl; [| exact F]. cbn. tauto.
Qed.

(** ** The end of a video job, as shown *)



(** ** Dictation *)

Lemma all_chars_append p a b :
  all_chars p (a ++ b) = all_chars p a && all_chars p b.
Proof.
  induction a as [| c a IH]; [reflexivity |]. cbn. now rewrite IH, andb_assoc.
Qed.

Lemma trimStart_all_blank s :
  all_chars isWhiteSpace s = true -> trimStart s = "".
Proof.
  induction s as [| c s IH]; [reflexivity |]. cbn. intro H.
  apply andb_true_iff in H. destruct H as [Hc Hs]. now rewrite Hc, IH.
Qed.

Lemma trim_of_blank s : all_chars isWhiteSpace s = true -> trim s = "".
Proof. intro H. unfold trim. now rewrite trimStart_all_blank. Qed.

Lemma dictated_input t w :
  input (app (step (RecognitionResult t) w)) =
  if truthy (input (app w)) then input (app w) ++ " " ++ t else t.
Proof. reflexivity. Qed.

(** X24: a result of the speech recognition changes only the draft,
    whatever the transcript is: the draft becomes the transcript, put
    after the old draft and a space if the old draft is not empty, and
    the store, the staged attachment and its preview, the busy flag, the
    chat session, the error state, the recording flag, the history, the
    trace and the clock are what they were.  When the transcript is not
    blank the draft it leaves is not blank either: unless the app is
    busy, the submission it allows is accepted. *)
Theorem dictation_makes_the_draft_submittable (t : string) (w : World) :
  let w' := step (RecognitionResult t) w in
  input (app w') =
    (if truthy (input (app w)) then input (app w) ++ " " ++ t else t) /\
  messages (app w') = messages (app w) /\
  imageFile (app w') = imageFile (app w) /\
  imagePreview (app w') = imagePreview (app w) /\
  isLoading (app w') = isLoading (app w) /\
  chat (app w') = chat (app w) /\
  error (app w') = error (app w) /\
  isRecording (app w') = isRecording (app w) /\
  history w' = history w /\ trace w' = trace w /\ ndate w' = ndate w /\
  (trim t <> "" ->
   trim (input (app w')) <> "" /\
   (isLoading (app w) = false -> accepted (app w'))).
Proof.
  intros w'. repeat (split; [reflexivity |]). intro Ht.
  assert (N : trim (input (app w')) <> "").
  { unfold w'. rewrite dictated_input.
    destruct (truthy (input (app w))); [| exact Ht].
    intro B. apply trim_empty in B.
    rewrite !all_chars_append in B.
    apply andb_true_iff in B. destruct B as [_ B].
    apply andb_true_iff in B. destruct B as [_ B].
    apply Ht. now apply trim_of_blank. }
  split; [exact N |].
  intro L. split; [exact L | left; exact N].
Qed.

(** X25: dictating several transcripts, none of them empty, into an empty
    draft leaves them in order, separated by single spaces. *)
Theorem dictations_are_joined_by_spaces (ts : list string) (w : World) :
  input (app w) = "" ->
  Forall (fun t => t <> "") ts ->
  input (app (run_from w (map RecognitionResult ts))) = joinWith " " ts.
Proof.
  intros H0 F.
  assert (G : forall ts w0,
    Forall (fun t => t <> "") ts -> input (app w0) <> "" ->
    input (app (run_from w0 (map RecognitionResult ts)))
    = input (app w0) ++ match ts with [] => "" | _ => " " ++ joinWith " " ts end).
  { clear. induction ts as [| t ts IH]; intros w0 F N.
    - cbn. now rewrite append_empty_r.
    - inversion F as [| ? ? Ht F']; subst.
      cbn [map run_from fold_left].
      fold (run_from (step (RecognitionResult t) w0) (map RecognitionResult ts)).
      assert (E : input (app (step (RecognitionResult t) w0))
                  = input (app w0) ++ " " ++ t).
      { rewrite dictated_input. destruct (input (app w0)); [congruence | reflexivity]. }
      rewrite IH; [| exact F' |].
      + rewrite E. destruct ts as [| t' ts].
        * now rewrite !append_empty_r.
        * cbn [joinWith]. now rewrite !append_assoc.
      + rewrite E. destruct (input (app w0)); [congruence | discriminate]. }
  destruct ts as [| t ts]; [cbn; exact H0 |].
  inversion F as [| ? ? Ht F']; subst.
  cbn [map run_from fold_left].
  fold (run_from (step (RecognitionResult t) w) (map RecognitionResult ts)).
  assert (E : input (app (step (RecognitionResult t) w)) = t)
    by (rewrite dictated_input, H0; reflexivity).
  rewrite G; [| exact F' | now rewrite E].
  rewrite E. destruct ts; [now rewrite append_empty_r | reflexivity].
Qed.

(** ** The transcoder *)

Lemma splitOn_no_sep sep s : no_char sep s = true -> splitOn sep s = [s].
Proof.
  induction s as [| c s IH]; [reflexivity |]. intro H.
  destruct (no_char_head _ _ _ H) as [Hc Hs]. cbn [splitOn].
  now rewrite Hc, (IH Hs).
Qed.

Lemma splitOn_first sep h rest :
  no_char sep h = true ->
  splitOn sep (h ++ String sep rest) = h :: splitOn sep rest.
Proof.
  induction h as [| c h IH]; intro H.
  - cbn [String.append splitOn]. now rewrite Ascii.eqb_refl.
  - destruct (no_char_head _ _ _ H) as [Hc Hs].
    cbn [String.append splitOn]. now rewrite Hc, (IH Hs).
Qed.

(** X26: from a data URL the transcoder takes the text between the first
    and the second comma: for a header without a comma it is the payload
    up to the payload's first comma, hence the whole base64 payload; a
    result without any comma gives no data at all. *)
Theorem base64_payload_of_a_data_url (header payload : string) :
  no_char comma header = true ->
  (no_char comma payload = true ->
   base64EncodedData (header ++ "," ++ payload) = Some payload) /\
  base64EncodedData header = None.
Proof.
  intro Hh. unfold base64EncodedData. split.
  - intro Hp. change ("," ++ payload) with (String comma payload).
    now rewrite (splitOn_first comma header payload Hh), (splitOn_no_sep _ _ Hp).
  - now rewrite (splitOn_no_sep _ _ Hh).
Qed.


(** ** Sending an image without text *)

Lemma submission_content env w :
  accepted (app w) ->
  exists added,
    map erase_content (messages (app (step (SendMessage env) w))) =
    (map erase_content (messages (app w)) ++
     erase_content (userMessage env w) :: added)%list.
Proof.
  intro Ha. rewrite (submission_shape env w Ha). eexists. reflexivity.
Qed.

(** X27: an image can be sent without any text.  With a blank draft, once
    a file is attached a submission is accepted; its user Message carries
    the preview of the file, the stream request holds the image part
    alone, and the staged attachment and its preview are cleared. *)
Theorem image_alone_can_be_sent
  (env : Env) (w : World) (c : Chat) (f : File) (url : string) :
  isLoading (app w) = false ->
  trim (input (app w)) = "" ->
  chat (app w) = Some c ->
  let w1 := step (ImageChange (Some (f, url))) w in
  let w2 := step (SendMessage env) w1 in
  sendDisabled (app w1) = false /\
  (exists m,
     nth_error (messages (app w2)) (List.length (messages (app w))) = Some m /\
     Message.sender m = user /\ Message.imagePreview m = Some url) /\
  (exists evs,
     since_trace w1 w2 evs /\
     filter is_sendMessageStream evs =
       [SendMessageStream [InlineData (file_data f) (file_type f)]]) /\
  imageFile (app w2) = None /\ imagePreview (app w2) = None.
Proof.
  intros Hl Ht Hc w1 w2.
  assert (Ha : accepted (app w1)).
  { split; [exact Hl | right; discriminate]. }
  assert (Hv : startsWith (toLowerCase (trim (input (app w1)))) "/video "
               = false).
  { change (input (app w1)) with (input (app w)). now rewrite Ht. }
  split; [now apply sendDisabled_accepted |]. split; [| split].
  - destruct (submission_content env w1 Ha) as (added & E).
    apply (f_equal (fun l => nth_error l (List.length (messages (app w))))) in E.
    rewrite nth_error_map in E.
    rewrite nth_error_app2 in E by (rewrite length_map; unfold w1; cbn; lia).
    rewrite length_map in E.
    replace (List.length (messages (app w)) - List.length (messages (app w1)))
      with 0 in E by (unfold w1; cbn; lia).
    cbn [nth_error] in E. fold w2 in E.
    destruct (nth_error (messages (app w2)) (List.length (messages (app w))))
      as [m |]; [| discriminate].
    exists m. split; [reflexivity |].
    unfold erase_content, userMessage in E. cbn in E.
    inversion E as [[E1 E2 E3]]. split; reflexivity.
  - unfold w2, since_trace.
    rewrite (step_accepted _ _ Ha), Hv, then_setIsLoading_trace.
    destruct (sendChatMessage_request env (app w1) (trim (input (app w1)))
                (imageFile (app w1)) (dispatch_frame env w1) c Hc)
      as (rest & T & F).
    eexists. split; [exact T |].
    cbn [filter is_sendMessageStream].
    rewrite filter_none.
    + change (input (app w1)) with (input (app w)). rewrite Ht.
      reflexivity.
    + eapply Forall_impl; [| exact F]. intros ev H. now destruct ev.
  - assert (S : staged (app w2) = ("", None, None)).
    { unfold w2.
      rewrite (step_accepted _ _ Ha), Hv, then_setIsLoading_staged.
      apply (staged_kept_sendChatMessage env _ _ _ (dispatch_frame env w1)).
      repeat constructor. }
    unfold staged in S. inversion S as [[S1 S2 S3]]. now rewrite S2, S3.
Qed.

(** ** The hypotheses of the further properties are met *)

Lemma bold_witness :
  no_markup "Say " = true /\ no_markup "!" = true /\
  no_char star "hi" = true /\ one_line "hi" = true /\
  SimpleMarkdownRenderer "Say **hi**!"
  = [TextLine "Say "; Strong "hi"; TextLine "!"].
Proof.
  repeat (split; [reflexivity |]).
  exact (bold_is_rendered_strong "Say " "hi" "!" eq_refl eq_refl eq_refl eq_refl).
Defined.

Lemma italics_witness :
  no_markup "Say " = true /\ no_markup "!" = true /\ "hi" <> "" /\
  no_char star "hi" = true /\ one_line "hi" = true /\
  SimpleMarkdownRenderer "Say *hi*!"
  = [TextLine "Say "; Em "hi"; TextLine "!"].
Proof.
  split; [reflexivity |]. split; [reflexivity |].
  split; [discriminate |]. split; [reflexivity |]. split; [reflexivity |].
  exact (italics_are_rendered_em "Say " "hi" "!" eq_refl eq_refl
           ltac:(discriminate) eq_refl eq_refl).
Defined.

Lemma fenced_code_witness :
  no_markup "Run: " = true /\ no_markup "" = true /\
  no_char backtick " ls *.v " = true /\
  SimpleMarkdownRenderer "Run: ``` ls *.v ```"
  = [TextLine "Run: "; CodeBlock "ls *.v"; TextLine ""].
Proof.
  repeat (split; [reflexivity |]).
  exact (fenced_code_is_rendered_trimmed "Run: " " ls *.v " ""
           eq_refl eq_refl eq_refl).
Defined.

Lemma unclosed_bold_witness :
  no_markup "bold" = true /\
  SimpleMarkdownRenderer "**bold" = [TextLine ""; Strong ""; TextLine "bold"].
Proof.
  split; [reflexivity |].
  exact (proj2 (unclosed_bold_marker_disappears "bold" eq_refl)).
Defined.

Lemma finished_chat_bubble_witness :
  let w := readyWorld "Hello" in
  accepted (app w) /\
  startsWith (toLowerCase (trim (input (app w)))) "/video " = false /\
  chat (app w) = Some sampleChat /\
  sendMessageStream helloEnv = Returns (streamOf ["Hel"; "lo"] Exhausted) /\
  ending (streamOf ["Hel"; "lo"] Exhausted) = Exhausted /\
  exists m,
    messageAt 2 (step (SendMessage helloEnv) w) = Some m /\
    bubble m = [Markdown [TextLine "Hello"]].
Proof.
  cbv zeta.
  assert (H1 : accepted (app (readyWorld "Hello")))
    by (split; [reflexivity | left; vm_compute; discriminate]).
  split; [exact H1 |]. repeat (split; [reflexivity |]).
  destruct (finished_chat_bubble_shows_the_text helloEnv (readyWorld "Hello")
              sampleChat (streamOf ["Hel"; "lo"] Exhausted)
              H1 eq_refl eq_refl eq_refl eq_refl) as (m & Hm & Hb & _).
  exists m. split; [exact Hm | exact Hb].
Defined.

Lemma failed_chat_bubble_witness :
  let w := readyWorld "Hi" in
  let stream := streamOf ["Hel"] (StreamThrows (ErrorObj "boom")) in
  accepted (app w) /\
  startsWith (toLowerCase (trim (input (app w)))) "/video " = false /\
  chat (app w) = Some sampleChat /\
  sendMessageStream brokenStreamEnv = Returns stream /\
  ending stream = StreamThrows (ErrorObj "boom") /\
  exists m,
    messageAt 2 (step (SendMessage brokenStreamEnv) w) = Some m /\
    bubbleIsError m = true /\
    bubble m = [Markdown [TextLine ("Hel" ++ cursor)]].
Proof.
  cbv zeta.
  assert (H1 : accepted (app (readyWorld "Hi")))
    by (split; [reflexivity | left; vm_compute; discriminate]).
  split; [exact H1 |]. repeat (split; [reflexivity |]).
  destruct (failed_chat_bubble_hides_the_error_behind_partial_text
              brokenStreamEnv (readyWorld "Hi") sampleChat
              (streamOf ["Hel"] (StreamThrows (ErrorObj "boom")))
              (ErrorObj "boom") H1 eq_refl eq_refl eq_refl eq_refl)
    as (m & Hm & He & Hb).
  exists m. split; [exact Hm |]. split; [exact He | exact Hb].
Defined.

Lemma streaming_bubble_witness :
  let w := readyWorld "Hello" in
  accepted (app w) /\
  startsWith (toLowerCase (trim (input (app w)))) "/video " = false /\
  chat (app w) = Some sampleChat /\
  sendMessageStream burstEnv = Returns (burstOf ["a"; "b"; "c"] Exhausted) /\
  0 < List.length (chunks (burstOf ["a"; "b"; "c"] Exhausted)) /\
  exists s m,
    nth_error (history (step (SendMessage burstEnv) w)) 2 = Some s /\
    nth_error s 2 = Some m /\
    bubble m = [Markdown [TextLine ("abc" ++ cursor)]].
Proof.
  cbv zeta.
  assert (H1 : accepted (app (readyWorld "Hello")))
    by (split; [reflexivity | left; vm_compute; discriminate]).
  assert (H5 : 0 < List.length (chunks (burstOf ["a"; "b"; "c"] Exhausted)))
    by (vm_compute; lia).
  split; [exact H1 |]. repeat (split; [reflexivity |]). split; [exact H5 |].
  destruct (streaming_bubble_shows_dots_then_text_with_cursor burstEnv
              (readyWorld "Hello") sampleChat
              (burstOf ["a"; "b"; "c"] Exhausted)
              H1 eq_refl eq_refl eq_refl 0 H5)
    as ((s & m & Hs & Hm & Hb) & _).
  exists s, m. split; [exact Hs |]. split; [exact Hm | exact Hb].
Defined.

Lemma responsive_witness :
  accepted (app (readyWorld "Hi")) /\ responsive brokenStreamEnv /\
  isLoading (app (step (SendMessage brokenStreamEnv) (readyWorld "Hi"))) = false.
Proof.
  assert (H1 : accepted (app (readyWorld "Hi")))
    by (split; [reflexivity | left; vm_compute; discriminate]).
  assert (H2 : responsive brokenStreamEnv).
  { split; [exact Logic.I |]. split; [discriminate | exact Logic.I]. }
  split; [exact H1 |]. split; [exact H2 |].
  exact (proj2 (responsive_submission_returns_and_clears_busy
                  brokenStreamEnv (readyWorld "Hi") H1 H2)).
Defined.

Lemma blocked_witness :
  let env := sampleEnv None (Returns (streamOf ["Hel"] StreamStalls))
               NeverSettles [] in
  let w' := step (SendMessage env) (readyWorld "Hi") in
  accepted (app (readyWorld "Hi")) /\
  fst (handleSendMessage env (app (readyWorld "Hi")) (readyWorld "Hi"))
    = Blocked /\
  isLoading (app (run_from w' [ChangeInput "again"; SendMessage helloEnv]))
    = true.
Proof.
  cbv zeta.
  assert (H1 : accepted (app (readyWorld "Hi")))
    by (split; [reflexivity | left; vm_compute; discriminate]).
  split; [exact H1 |]. split; [vm_compute; reflexivity |].
  exact (proj1 (proj2 (blocked_submission_leaves_app_busy_for_good
           (sampleEnv None (Returns (streamOf ["Hel"] StreamStalls))
              NeverSettles [])
           (readyWorld "Hi") [ChangeInput "again"; SendMessage helloEnv]
           H1 ltac:(vm_compute; reflexivity)))).
Defined.

Lemma submission_adds_witness :
  accepted (app (readyWorld "Hello")) /\
  List.length (messages (app (step (SendMessage helloEnv) (readyWorld "Hello"))))
  = 3.
Proof.
  assert (H1 : accepted (app (readyWorld "Hello")))
    by (split; [reflexivity | left; vm_compute; discriminate]).
  split; [exact H1 |].
  exact (proj2 (submission_adds_user_and_one_assistant_message helloEnv
                  (readyWorld "Hello") H1)).
Defined.

Lemma leaves_alone_witness :
  accepted (app (readyWorld "Hello")) /\
  nth_error (messages (app (readyWorld "Hello"))) 0 = Some greeting /\
  Message.id greeting
    <> assistantId helloEnv (dispatch_world helloEnv (readyWorld "Hello")) /\
  nth_error (messages (app (step (SendMessage helloEnv) (readyWorld "Hello")))) 0
  = Some greeting.
Proof.
  assert (H1 : accepted (app (readyWorld "Hello")))
    by (split; [reflexivity | left; vm_compute; discriminate]).
  assert (H3 : Message.id greeting
               <> assistantId helloEnv
                    (dispatch_world helloEnv (readyWorld "Hello")))
    by (vm_compute; discriminate).
  split; [exact H1 |]. split; [reflexivity |]. split; [exact H3 |].
  exact (submission_leaves_other_messages_alone helloEnv (readyWorld "Hello")
           0 greeting H1 eq_refl H3).
Defined.

Lemma user_message_witness :
  let w := readyWorld "Hello" in
  accepted (app w) /\
  (dateNow sameMillisecondEnv (userReading w)
   <> dateNow sameMillisecondEnv (ndate w) + 1)%Z /\
  nth_error (messages (app (step (SendMessage sameMillisecondEnv) w))) 1
  = Some (userMessage sameMillisecondEnv w).
Proof.
  cbv zeta.
  assert (H1 : accepted (app (readyWorld "Hello")))
    by (split; [reflexivity | left; vm_compute; discriminate]).
  assert (H2 : (dateNow sameMillisecondEnv (userReading (readyWorld "Hello"))
                <> dateNow sameMillisecondEnv (ndate (readyWorld "Hello")) + 1)%Z)
    by (vm_compute; discriminate).
  split; [exact H1 |]. split; [exact H2 |].
  exact (proj2 (user_message_is_never_rewritten sameMillisecondEnv
                  (readyWorld "Hello") H1 H2)).
Defined.

Lemma ids_collide_witness :
  let w := readyWorld "Hi" in
  accepted (app w) /\
  startsWith (toLowerCase (trim (input (app w)))) "/video " = false /\
  chat (app w) = Some sampleChat /\
  sendMessageStream helloEnv = Returns (streamOf ["Hel"; "lo"] Exhausted) /\
  ending (streamOf ["Hel"; "lo"] Exhausted) = Exhausted /\
  (dateNow helloEnv (S (ndate w)) = dateNow helloEnv (ndate w) + 1)%Z /\
  exists m,
    nth_error (messages (app (step (SendMessage helloEnv) w))) 1 = Some m /\
    Message.sender m = user /\ Message.text m = "Hello".
Proof.
  cbv zeta.
  assert (H1 : accepted (app (readyWorld "Hi")))
    by (split; [reflexivity | left; vm_compute; discriminate]).
  split; [exact H1 |]. repeat (split; [reflexivity |]).
  destruct (user_message_is_rewritten_when_ids_collide helloEnv
              (readyWorld "Hi") sampleChat (streamOf ["Hel"; "lo"] Exhausted)
              H1 eq_refl eq_refl eq_refl eq_refl eq_refl)
    as (_ & m & Hm & Hu & _ & Ht & _).
  exists m. split; [exact Hm |]. split; [exact Hu | exact Ht].
Defined.

Lemma idle_witness :
  let actions :=
    [Mount (Returns sampleChat); ChangeInput "Hello"; SendMessage helloEnv] in
  isLoading (app (run actions)) = false /\
  Forall (fun m => Message.isLoading m <> Some true)
    (messages (app (run actions))).
Proof.
  cbv zeta. split; [vm_compute; reflexivity |].
  apply (idle_app_has_no_loading_message
           [Mount (Returns sampleChat); ChangeInput "Hello";
            SendMessage helloEnv]).
  vm_compute. reflexivity.
Defined.

Lemma send_button_witness :
  sendDisabled (app (busyWorld "Hello")) = true /\
  step (SendMessage helloEnv) (busyWorld "Hello") = busyWorld "Hello" /\
  sendDisabled (app (readyWorld "Hello")) = false /\
  input (app (step (SendMessage helloEnv) (readyWorld "Hello"))) = "".
Proof.
  split; [reflexivity |].
  split; [exact (proj1 (send_button_tells_what_submit_does helloEnv
                          (busyWorld "Hello")) eq_refl) |].
  split; [reflexivity |].
  exact (proj1 (proj2 (send_button_tells_what_submit_does helloEnv
                         (readyWorld "Hello")) eq_refl)).
Defined.

Lemma only_mount_witness :
  forallb (fun a => negb (is_mount a))
    [ChangeInput "Hello"; SendMessage helloEnv] = true /\
  chat (app (run_from (uninitialisedWorld "")
               [ChangeInput "Hello"; SendMessage helloEnv])) = None.
Proof.
  split; [reflexivity |].
  exact (only_mount_sets_the_chat_session (uninitialisedWorld "")
           [ChangeInput "Hello"; SendMessage helloEnv] eq_refl).
Defined.

Lemma chat_request_witness :
  let w := readyWorld "Hello" in
  accepted (app w) /\
  startsWith (toLowerCase (trim (input (app w)))) "/video " = false /\
  chat (app w) = Some sampleChat /\
  exists evs,
    since_trace w (step (SendMessage helloEnv) w) evs /\
    filter is_sendMessageStream evs = [SendMessageStream [TextPart "Hello"]].
Proof.
  cbv zeta.
  assert (H1 : accepted (app (readyWorld "Hello")))
    by (split; [reflexivity | left; vm_compute; discriminate]).
  split; [exact H1 |]. repeat (split; [reflexivity |]).
  exact (proj2 (chat_request_is_sent_once_with_image_then_text helloEnv
                  (readyWorld "Hello") sampleChat H1 eq_refl eq_refl)).
Defined.

Lemma video_prompt_witness :
  let w := readyWorld " /Video  a cat " in
  accepted (app w) /\
  startsWith (toLowerCase (trim (input (app w)))) "/video " = true /\
  exists prompt rest,
    since_trace w (step (SendMessage videoEnv) w)
      (CallGenerateVideo prompt :: rest) /\
    prompt <> "".
Proof.
  cbv zeta.
  assert (H1 : accepted (app (readyWorld " /Video  a cat ")))
    by (split; [reflexivity | left; vm_compute; discriminate]).
  split; [exact H1 |]. split; [reflexivity |].
  destruct (video_prompt_is_never_blank videoEnv
              (readyWorld " /Video  a cat ") H1 eq_refl)
    as (prompt & rest & T & N & _).
  exists prompt, rest. split; [exact T | exact N].
Defined.

Lemma bare_video_witness :
  let w := readyWorld " /VIDEO  " in
  accepted (app w) /\
  toLowerCase (trim (input (app w))) = "/video" /\
  exists rest,
    since_trace w (step (SendMessage helloEnv) w)
      (CallSendChatMessage "/VIDEO" None :: rest).
Proof.
  cbv zeta.
  assert (H1 : accepted (app (readyWorld " /VIDEO  ")))
    by (split; [reflexivity | left; vm_compute; discriminate]).
  split; [exact H1 |]. split; [reflexivity |].
  destruct (bare_video_command_is_a_chat_message helloEnv
              (readyWorld " /VIDEO  ") H1 eq_refl) as (rest & T & _).
  exists rest. exact T.
Defined.



Lemma dictation_witness :
  trim " a cat " <> "" /\
  accepted (app (step (RecognitionResult " a cat ") (readyWorld "draw"))) /\
  input (app (step (RecognitionResult " a cat ") (readyWorld "draw")))
  = "draw  a cat ".
Proof.
  assert (H : trim " a cat " <> "") by (vm_compute; discriminate).
  split; [exact H |].
  destruct (dictation_makes_the_draft_submittable " a cat " (readyWorld "draw"))
    as (Hi & _ & _ & _ & _ & _ & _ & _ & _ & _ & _ & Hn).
  split; [exact (proj2 (Hn H) eq_refl) | exact Hi].
Defined.

Lemma dictations_witness :
  input (app (readyWorld "")) = "" /\
  Forall (fun t => t <> "") ["draw"; "a cat"] /\
  input (app (run_from (readyWorld "")
                (map RecognitionResult ["draw"; "a cat"]))) = "draw a cat".
Proof.
  assert (F : Forall (fun t => t <> "") ["draw"; "a cat"])
    by (repeat constructor; discriminate).
  split; [reflexivity |]. split; [exact F |].
  exact (dictations_are_joined_by_spaces ["draw"; "a cat"] (readyWorld "")
           eq_refl F).
Defined.

Lemma base64_witness :
  no_char comma "data:image/png;base64" = true /\
  no_char comma "iVBORw0KGgo=" = true /\
  base64EncodedData "data:image/png;base64,iVBORw0KGgo=" = Some "iVBORw0KGgo=".
Proof.
  split; [reflexivity |]. split; [reflexivity |].
  exact (proj1 (base64_payload_of_a_data_url "data:image/png;base64"
                  "iVBORw0KGgo=" eq_refl) eq_refl).
Defined.

Lemma image_alone_witness :
  let f := {| file_data := "iVBORw0KGgo="; file_type := "image/png" |} in
  let w := readyWorld "  " in
  let w1 := step (ImageChange (Some (f, "blob:preview"))) w in
  isLoading (app w) = false /\ trim (input (app w)) = "" /\
  chat (app w) = Some sampleChat /\
  exists evs,
    since_trace w1 (step (SendMessage helloEnv) w1) evs /\
    filter is_sendMessageStream evs =
      [SendMessageStream [InlineData "iVBORw0KGgo=" "image/png"]].
Proof.
  cbv zeta. repeat (split; [reflexivity |]).
  exact (proj1 (proj2 (proj2 (image_alone_can_be_sent helloEnv (readyWorld "  ")
           sampleChat {| file_data := "iVBORw0KGgo="; file_type := "image/png" |}
           "blob:preview" eq_refl eq_refl eq_refl)))).
Defined.

